(** * A shallow embedding of [attention.py]

    The script trains a small decoder-only Transformer on a character corpus
    and samples text from it.  This development embeds its components
    ([get_batch], [estimate_loss], [Head], [MultiHeadAttention],
    [FeedForward], [Block], [BigramLanguageModel] and the training loop) and
    proves the properties stated for them.

    Conventions of the embedding.
    - Numbers are modelled twice.  In the first model a tensor of floats is
      a nested list of real numbers ([vec], [mat], [tensor3]) and the
      arithmetic is exact; the only non-finite value the script writes
      itself, [float('-inf')], is the constructor [NegInf] of [score].
      This model has no overflow and no NaN.  It carries the properties of
      shape, of success and failure, of control flow and of the formulas
      that define the layers.
      In the second model, the module [Float32], a value is a real within
      the range of a float32, an infinity or NaN, and every operation maps
      its result to the range.  The properties of what an attention head
      computes (its weights, its dependence on the past, its output as an
      average) and of the dependence of the logits on the past are stated
      over it, with the absence of overflow as a hypothesis where it
      matters.  Rounding of the significand is modelled in neither.
    - A tensor of dtype [torch.long] is a nested list of [Z].
    - A tensor whose first dimension is empty is the empty list, whatever
      its other dimensions are: the shapes (0, T) are not told apart.
    - A Python exception is the result [None]; every function that can
      raise returns an [option].
    - The pseudo-random generator of the tensor engine is an interface
      ([RandomEngine]): calls take a generator state and return the next
      one. *)

From Stdlib Require Import Reals Lra List ZArith Lia Bool Arith Sorted.
From Stdlib Require String.
Import ListNotations.

Import String.StringSyntax.
Delimit Scope string_scope with string.
Bind Scope string_scope with String.string.

#[local] Abbreviation string := String.string.

(** ** The error monad *)

Definition bind {A B : Type} (m : option A) (k : A -> option B) : option B :=
  match m with
  | Some a => k a
  | None => None
  end.

Notation "x <- m ;; k" := (bind m (fun x => k))
  (at level 61, m at next level, right associativity).
Notation "' p <- m ;; k" := (bind m (fun x => match x with p => k end))
  (at level 61, p pattern, m at next level, right associativity).

Fixpoint mapM {A B : Type} (f : A -> option B) (l : list A) : option (list B) :=
  match l with
  | [] => Some []
  | a :: l' => b <- f a ;; bs <- mapM f l' ;; Some (b :: bs)
  end.

(** ** Tensors over the reals *)

Abbreviation vec := (list R).
Abbreviation mat := (list (list R)).
Abbreviation tensor3 := (list (list (list R))).

Fixpoint map2 {A B C : Type} (f : A -> B -> C) (l1 : list A) (l2 : list B) : list C :=
  match l1, l2 with
  | a :: l1', b :: l2' => f a b :: map2 f l1' l2'
  | _, _ => []
  end.

Definition Rsum (l : vec) : R := fold_right Rplus 0%R l.

Definition dot (u v : vec) : R := Rsum (map2 Rmult u v).

Definition vadd (u v : vec) : vec := map2 Rplus u v.
Definition madd (a b : mat) : mat := map2 vadd a b.
Definition tadd (a b : tensor3) : tensor3 := map2 madd a b.

Definition vscale (c : R) (v : vec) : vec := map (Rmult c) v.

(** [a @ b] for [a] of shape (n, m) and [b] of shape (m, p): row [i] of the
    product is the combination of the rows of [b] weighted by row [i] of
    [a]. *)
Definition vcomb (p : nat) (w : vec) (b : mat) : vec :=
  fold_right vadd (repeat 0%R p) (map2 vscale w b).

Definition matmul (p : nat) (a b : mat) : mat := map (fun w => vcomb p w b) a.

(** Shapes. *)
Definition shape1 (n : nat) (v : vec) : Prop := length v = n.
Definition shape2 (n m : nat) (a : mat) : Prop :=
  length a = n /\ Forall (shape1 m) a.
Definition shape3 (b n m : nat) (x : tensor3) : Prop :=
  length x = b /\ Forall (shape2 n m) x.

Definition zshape2 (n m : nat) (a : list (list Z)) : Prop :=
  length a = n /\ Forall (fun r => length r = m) a.

(** [torch.ones(r, c)] and [torch.tril]. *)
Definition torch_ones (r c : nat) : mat := repeat (repeat 1%R c) r.

Definition mapi {A B : Type} (f : nat -> A -> B) (l : list A) : list B :=
  map2 f (seq 0 (length l)) l.

Definition torch_tril (m : mat) : mat :=
  mapi (fun i row => mapi (fun j a => if (j <=? i)%nat then a else 0%R) row) m.

(** ** Scores and softmax *)

(** An attention score after masking: a real or minus infinity. *)
Inductive score : Type :=
| Fin (r : R)
| NegInf.

Definition score_exp (s : score) : R :=
  match s with
  | Fin r => exp r
  | NegInf => 0%R
  end.

(** [F.softmax(row, dim=-1)] on one row.  (The engine subtracts the row
    maximum before exponentiating; over the reals that factor cancels.) *)
Definition softmax (row : list score) : vec :=
  let es := map score_exp row in
  map (fun e => (e / Rsum es)%R) es.

(** ** [nn.Linear] *)

Record Linear : Type := mkLinear {
  in_features : nat;
  out_features : nat;
  weight : mat;                (* out_features rows of in_features entries *)
  bias : option vec            (* out_features entries, when present *)
}.

Definition tabulate {A : Type} (n : nat) (f : nat -> A) : list A := map f (seq 0 n).

(** [nn.Linear(in_f, out_f, bias)]; the engine's random initial values are
    supplied by [init] (row, column). *)
Definition Linear_init (in_f out_f : nat) (with_bias : bool) (init : nat -> nat -> R) : Linear :=
  {| in_features := in_f;
     out_features := out_f;
     weight := tabulate out_f (fun i => tabulate in_f (fun j => init i j));
     bias := if with_bias then Some (tabulate out_f (fun i => init i in_f)) else None |}.

(** The layer on one feature vector: [x @ W^T + b]. *)
Definition Linear_apply (l : Linear) (x : vec) : vec :=
  let y := map (fun w => dot x w) (weight l) in
  match bias l with
  | Some b => vadd y b
  | None => y
  end.

(** A width other than [in_features] raises. *)
Definition Linear_vec (l : Linear) (x : vec) : option vec :=
  if (length x =? in_features l)%nat then Some (Linear_apply l x) else None.

Definition Linear_mat (l : Linear) (x : mat) : option mat := mapM (Linear_vec l) x.
Definition Linear_forward (l : Linear) (x : tensor3) : option tensor3 := mapM (Linear_mat l) x.

Definition wf_Linear (in_f out_f : nat) (l : Linear) : Prop :=
  in_features l = in_f /\ out_features l = out_f /\
  shape2 out_f in_f (weight l) /\
  match bias l with
  | Some b => shape1 out_f b
  | None => True
  end.

(** ** [nn.LayerNorm] and [nn.Embedding] *)

Record LayerNorm : Type := mkLayerNorm {
  normalized_shape : nat;
  ln_weight : vec;
  ln_bias : vec;
  ln_eps : R
}.

Definition LayerNorm_init (n : nat) : LayerNorm :=
  {| normalized_shape := n;
     ln_weight := repeat 1%R n;
     ln_bias := repeat 0%R n;
     ln_eps := (/ 100000)%R |}.

Definition mean (x : vec) : R := (Rsum x / INR (length x))%R.

Definition variance (x : vec) : R :=
  mean (map (fun a => ((a - mean x) * (a - mean x))%R) x).

Definition LayerNorm_vec (ln : LayerNorm) (x : vec) : option vec :=
  if (length x =? normalized_shape ln)%nat then
    let xhat := map (fun a => ((a - mean x) / sqrt (variance x + ln_eps ln))%R) x in
    Some (vadd (map2 Rmult xhat (ln_weight ln)) (ln_bias ln))
  else None.

Definition LayerNorm_forward (ln : LayerNorm) (x : tensor3) : option tensor3 :=
  mapM (mapM (LayerNorm_vec ln)) x.

Definition wf_LayerNorm (n : nat) (ln : LayerNorm) : Prop :=
  normalized_shape ln = n /\ shape1 n (ln_weight ln) /\ shape1 n (ln_bias ln).

Record Embedding : Type := mkEmbedding {
  num_embeddings : nat;
  embedding_dim : nat;
  emb_weight : mat
}.

Definition Embedding_init (n d : nat) (init : nat -> nat -> R) : Embedding :=
  {| num_embeddings := n;
     embedding_dim := d;
     emb_weight := tabulate n (fun i => tabulate d (fun j => init i j)) |}.

(** Looking up one index; an index outside [0, num_embeddings) raises. *)
Definition Embedding_lookup (e : Embedding) (i : Z) : option vec :=
  if ((0 <=? i)%Z && (i <? Z.of_nat (num_embeddings e))%Z)%bool
  then nth_error (emb_weight e) (Z.to_nat i)
  else None.

Definition wf_Embedding (n d : nat) (e : Embedding) : Prop :=
  num_embeddings e = n /\ embedding_dim e = d /\ shape2 n d (emb_weight e).

(** ** Python slices, [torch.stack], [torch.cat] *)

(** [l[lo:hi]] for Python integers [lo] and [hi]: a negative index counts
    from the end, and both ends are clamped to the list. *)
Definition py_index (len i : Z) : Z :=
  if (i <? 0)%Z then Z.max (len + i) 0 else Z.min i len.

Definition py_slice {A : Type} (l : list A) (lo hi : Z) : list A :=
  let len := Z.of_nat (length l) in
  let a := py_index len lo in
  let b := py_index len hi in
  firstn (Z.to_nat (b - a)) (skipn (Z.to_nat a) l).

(** [l[lo:]]. *)
Definition py_slice_from {A : Type} (l : list A) (lo : Z) : list A :=
  skipn (Z.to_nat (py_index (Z.of_nat (length l)) lo)) l.

(** [torch.stack(rows)]: an empty list, or rows of different lengths, raise. *)
Definition stack {A : Type} (rows : list (list A)) : option (list (list A)) :=
  match rows with
  | [] => None
  | r :: rs =>
      if forallb (fun r' => (length r' =? length r)%nat) rs then Some rows else None
  end.

(** Pairing two lists of the same length; different lengths raise. *)
Fixpoint zipM {A B C : Type} (f : A -> B -> option C) (l1 : list A) (l2 : list B)
  : option (list C) :=
  match l1, l2 with
  | [], [] => Some []
  | a :: l1', b :: l2' => c <- f a b ;; cs <- zipM f l1' l2' ;; Some (c :: cs)
  | _, _ => None
  end.

(** [torch.cat((a, b), dim=-1)] on matrices and on 3-tensors. *)
Definition cat_mat {A : Type} (a b : list (list A)) : option (list (list A)) :=
  zipM (fun r1 r2 => Some (r1 ++ r2)) a b.

Definition cat_tensor3 (a b : tensor3) : option tensor3 := zipM (@cat_mat R) a b.

(** [torch.cat(ts, dim=-1)]; an empty list raises. *)
Fixpoint cat_last (ts : list tensor3) : option tensor3 :=
  match ts with
  | [] => None
  | [t] => Some t
  | t :: ts' => r <- cat_last ts' ;; cat_tensor3 t r
  end.

(** ** Masking *)

(** [m[:r, :c]]. *)
Definition slice2 {A : Type} (r c : nat) (m : list (list A)) : list (list A) :=
  map (firstn c) (firstn r m).

(** [m == 0], elementwise. *)
Definition eq_zero (m : mat) : list (list bool) :=
  map (map (fun a => if Req_dec_T a 0%R then true else false)) m.

(** Broadcasting one dimension to size [n]: sizes agree, or the dimension
    has size one; anything else raises. *)
Definition expand {A : Type} (n : nat) (l : list A) : option (list A) :=
  if (length l =? n)%nat then Some l
  else match l with
       | [a] => Some (repeat a n)
       | _ => None
       end.

(** [wei.masked_fill(mask, float('-inf'))] for a two-dimensional [mask]
    broadcast against the (T, T) matrix [wei]. *)
Definition masked_fill (wei : mat) (mask : list (list bool)) : option (list (list score)) :=
  rows <- expand (length wei) mask ;;
  zipM (fun w m =>
          m' <- expand (length w) m ;;
          Some (map2 (fun a (b : bool) => if b then NegInf else Fin a) w m'))
       wei rows.

(** [n ** -0.5] for a Python integer [n >= 0]: zero raises
    [ZeroDivisionError]. *)
Definition pow_neg_half (n : nat) : option R :=
  if (n =? 0)%nat then None else Some (/ sqrt (INR n))%R.

(** ** Cross entropy *)

Definition ignore_index : Z := (-100)%Z.

(** The negative log-likelihood of class [t] under the softmax of
    [logits]; a class outside [0, C) raises. *)
Definition nll (logits : vec) (t : Z) : option R :=
  if ((0 <=? t)%Z && (t <? Z.of_nat (length logits))%Z)%bool
  then Some (- ln (nth (Z.to_nat t) (softmax (map Fin logits)) 0%R))%R
  else None.

(** [F.cross_entropy(logits, targets)] with its defaults: mean reduction
    over the targets different from [ignore_index]. *)
Definition cross_entropy (logits : mat) (targets : list Z) : option R :=
  if (length logits =? length targets)%nat then
    let kept := filter (fun p => negb (snd p =? ignore_index)%Z) (combine logits targets) in
    ls <- mapM (fun p => nll (fst p) (snd p)) kept ;;
    Some (Rsum ls / INR (length kept))%R
  else None.

(** ** Hyperparameters *)

(** The module-level hyperparameters of the script, with the vocabulary
    size computed from the corpus. *)
Record Config : Type := mkConfig {
  batch_size : nat;
  block_size : nat;
  max_iters : nat;
  eval_interval : nat;
  eval_iters : nat;
  n_embd : nat;
  vocab_size : nat
}.

(** The engine's initial parameter values, keyed by the position of the
    parameter in the module tree, then by row and column. *)
Definition Init : Type := list nat -> nat -> nat -> R.

Definition sub (i : nat) (init : Init) : Init := fun p => init (i :: p).

(** ** The random engine (interface) *)

(** [randint g high n] is [torch.randint(high, (n,))]: [n] integers drawn
    from [0, high), or an exception when that range is empty.
    [multinomial1 g p] is one draw of [torch.multinomial(p, 1)] for one row
    [p] of probabilities. *)
Class RandomEngine : Type := {
  RNG : Type;
  randint : RNG -> Z -> nat -> option (list Z * RNG);
  multinomial1 : RNG -> vec -> option (Z * RNG)
}.

Definition prob_vector (p : vec) : Prop :=
  Forall (fun a => (0 <= a)%R) p /\ Rsum p = 1%R.

(** The contract of the engine. *)
Record RandomEngineLaws (E : RandomEngine) : Prop := {
  randint_empty : forall g high n, (high <= 0)%Z -> randint g high n = None;
  randint_range : forall g high n, (0 < high)%Z ->
    exists ix g', randint g high n = Some (ix, g') /\ length ix = n /\
                  Forall (fun i => (0 <= i < high)%Z) ix;
  multinomial1_support : forall g p, prob_vector p ->
    exists i g', multinomial1 g p = Some (i, g') /\
                 (0 <= i < Z.of_nat (length p))%Z /\ (0 < nth (Z.to_nat i) p 0)%R
}.

Section Model.

Variable cfg : Config.
Context {E : RandomEngine}.

(** ** [Head] *)

Record Head : Type := mkHead {
  key : Linear;
  query : Linear;
  value : Linear;
  tril : mat                    (* the registered buffer *)
}.

Definition Head_init (head_size : nat) (init : Init) : Head :=
  {| key := Linear_init (n_embd cfg) head_size false (sub 0 init []);
     query := Linear_init (n_embd cfg) head_size false (sub 1 init []);
     value := Linear_init (n_embd cfg) head_size false (sub 2 init []);
     tril := torch_tril (torch_ones (block_size cfg) (block_size cfg)) |}.

(** Lines 76-82 of [Head.forward] on one batch element [x] of shape (T, C):
    the attention weights after [F.softmax]. *)
Definition Head_weights (h : Head) (x : mat) : option mat :=
  let T := length x in
  k <- Linear_mat (key h) x ;;
  q <- Linear_mat (query h) x ;;
  c <- pow_neg_half (out_features (key h)) ;;
  let wei := map (fun qi => map (fun kj => (dot qi kj * c)%R) k) q in
  wei <- masked_fill wei (eq_zero (slice2 T T (tril h))) ;;
  Some (map softmax wei).

Definition Head_mat (h : Head) (x : mat) : option mat :=
  wei <- Head_weights h x ;;
  v <- Linear_mat (value h) x ;;
  Some (matmul (out_features (value h)) wei v).

Definition Head_forward (h : Head) (x : tensor3) : option tensor3 :=
  mapM (Head_mat h) x.

(** ** [MultiHeadAttention] *)

Record MultiHeadAttention : Type := mkMultiHeadAttention {
  heads : list Head;
  proj : Linear
}.

Definition MultiHeadAttention_init (num_heads head_size : nat) (init : Init)
  : MultiHeadAttention :=
  {| heads := map (fun i => Head_init head_size (sub i (sub 0 init))) (seq 0 num_heads);
     proj := Linear_init (n_embd cfg) (n_embd cfg) true (sub 1 init []) |}.

Definition MultiHeadAttention_forward (m : MultiHeadAttention) (x : tensor3)
  : option tensor3 :=
  outs <- mapM (fun h => Head_forward h x) (heads m) ;;
  out <- cat_last outs ;;
  Linear_forward (proj m) out.

(** ** [FeedForward] *)

Record FeedForward : Type := mkFeedForward {
  net0 : Linear;
  net2 : Linear
}.

Definition FeedForward_init (n : nat) (init : Init) : FeedForward :=
  {| net0 := Linear_init n (4 * n) true (sub 0 init []);
     net2 := Linear_init (4 * n) n true (sub 2 init []) |}.

Definition relu (x : tensor3) : tensor3 := map (map (map (Rmax 0))) x.

Definition FeedForward_forward (f : FeedForward) (x : tensor3) : option tensor3 :=
  h <- Linear_forward (net0 f) x ;;
  Linear_forward (net2 f) (relu h).

(** ** [Block] *)

Record Block : Type := mkBlock {
  sa : MultiHeadAttention;
  ffwd : FeedForward;
  ln1 : LayerNorm;
  ln2 : LayerNorm
}.

(** [Block.__init__(n_emd, n_head)].  The body reads the module-level
    [n_embd], not its first argument.  [n_embd // 0] raises. *)
Definition Block_init (n_emd n_head : nat) (init : Init) : option Block :=
  if (n_head =? 0)%nat then None
  else
    let head_size := (n_embd cfg / n_head)%nat in
    Some {| sa := MultiHeadAttention_init n_head head_size (sub 0 init);
            ffwd := FeedForward_init (n_embd cfg) (sub 1 init);
            ln1 := LayerNorm_init (n_embd cfg);
            ln2 := LayerNorm_init (n_embd cfg) |}.

Definition Block_forward (b : Block) (x : tensor3) : option tensor3 :=
  n1 <- LayerNorm_forward (ln1 b) x ;;
  a <- MultiHeadAttention_forward (sa b) n1 ;;
  let x := tadd x a in
  n2 <- LayerNorm_forward (ln2 b) x ;;
  f <- FeedForward_forward (ffwd b) n2 ;;
  let x := tadd x f in
  Some x.

(** ** [BigramLanguageModel] *)

Record BigramLanguageModel : Type := mkBigramLanguageModel {
  token_embedding_table : Embedding;
  position_embedding_table : Embedding;
  blocks : list Block;          (* the Blocks of the [nn.Sequential] ... *)
  ln_f : LayerNorm;             (* ... and its final LayerNorm *)
  lm_head : Linear
}.

Definition BigramLanguageModel_init (init : Init) : option BigramLanguageModel :=
  b0 <- Block_init (n_embd cfg) 4 (sub 0 (sub 2 init)) ;;
  b1 <- Block_init (n_embd cfg) 4 (sub 1 (sub 2 init)) ;;
  b2 <- Block_init (n_embd cfg) 4 (sub 2 (sub 2 init)) ;;
  Some {| token_embedding_table :=
            Embedding_init (vocab_size cfg) (n_embd cfg) (sub 0 init []);
          position_embedding_table :=
            Embedding_init (block_size cfg) (n_embd cfg) (sub 1 init []);
          blocks := [b0; b1; b2];
          ln_f := LayerNorm_init (n_embd cfg);
          lm_head := Linear_init (n_embd cfg) (vocab_size cfg) true (sub 3 init []) |}.

Fixpoint blocks_forward (bs : list Block) (x : tensor3) : option tensor3 :=
  match bs with
  | [] => Some x
  | b :: bs' => x' <- Block_forward b x ;; blocks_forward bs' x'
  end.

(** The logits a forward pass returns: of shape (B, T, C) without targets,
    reshaped to (B*T, C) with targets. *)
Inductive Logits : Type :=
| Logits3 (t : tensor3)
| Logits2 (m : mat).

(** [torch.arange(T)]. *)
Definition arange (T : nat) : list Z := map Z.of_nat (seq 0 T).

(** The second dimension of a (B, T) tensor. *)
Definition dim1 {A : Type} (idx : list (list A)) : nat :=
  match idx with
  | [] => 0
  | r :: _ => length r
  end.

Definition forward (m : BigramLanguageModel) (idx : list (list Z))
           (targets : option (list (list Z))) : option (Logits * option R) :=
  let T := dim1 idx in
  tok_emb <- mapM (mapM (Embedding_lookup (token_embedding_table m))) idx ;;
  pos_emb <- mapM (Embedding_lookup (position_embedding_table m)) (arange T) ;;
  let x := map (fun te => madd te pos_emb) tok_emb in
  x <- blocks_forward (blocks m) x ;;
  x <- LayerNorm_forward (ln_f m) x ;;
  logits <- Linear_forward (lm_head m) x ;;
  match targets with
  | None => Some (Logits3 logits, None)
  | Some targets =>
      let logits := concat logits in
      let targets := concat targets in
      loss <- cross_entropy logits targets ;;
      Some (Logits2 logits, Some loss)
  end.

(** [logits[:, -1, :]]: the last time step of every batch element; it
    raises on a two-dimensional tensor and when there is no time step. *)
Definition last_step (l : Logits) : option mat :=
  match l with
  | Logits3 t => mapM (fun rows => nth_error rows (length rows - 1)) t
  | Logits2 _ => None
  end.

(** [torch.multinomial(probs, num_samples=1)]: one draw per row. *)
Fixpoint multinomial (g : RNG) (probs : mat) : option (list Z * RNG) :=
  match probs with
  | [] => Some ([], g)
  | p :: ps =>
      '(i, g1) <- multinomial1 g p ;;
      '(js, g2) <- multinomial g1 ps ;;
      Some (i :: js, g2)
  end.

(** One iteration of the loop of [generate]. *)
Definition generate_step (m : BigramLanguageModel) (idx : list (list Z)) (g : RNG)
  : option (list (list Z) * RNG) :=
  let idx_cond := map (fun r => py_slice_from r (- Z.of_nat (block_size cfg))) idx in
  '(logits, loss) <- forward m idx_cond None ;;
  logits <- last_step logits ;;
  let probs := map (fun l => softmax (map Fin l)) logits in
  '(idx_next, g') <- multinomial g probs ;;
  idx <- cat_mat idx (map (fun i => [i]) idx_next) ;;
  Some (idx, g').

Fixpoint generate_loop (m : BigramLanguageModel) (n : nat) (idx : list (list Z)) (g : RNG)
  : option (list (list Z) * RNG) :=
  match n with
  | O => Some (idx, g)
  | S n' => '(idx', g') <- generate_step m idx g ;; generate_loop m n' idx' g'
  end.

(** [generate(idx, max_new_tokens)]; [range] of a negative count is empty. *)
Definition generate (m : BigramLanguageModel) (idx : list (list Z)) (max_new_tokens : Z)
           (g : RNG) : option (list (list Z) * RNG) :=
  generate_loop m (Z.to_nat max_new_tokens) idx g.

End Model.

(** ** The optimiser (interface) *)

(** [backward_step o m xb yb] stands for [optimizer.zero_grad()],
    [loss.backward()] and [optimizer.step()] for the loss of [m] on the
    batch [(xb, yb)]: it returns the updated parameters and optimiser
    state. *)
Class Optimizer : Type := {
  Opt : Type;
  backward_step : Opt -> BigramLanguageModel -> list (list Z) -> list (list Z)
                  -> BigramLanguageModel * Opt
}.

Section Training.

Variable cfg : Config.
Context {E : RandomEngine} {Optim : Optimizer}.

(** The two splits of the encoded corpus (module-level [train_data] and
    [val_data]). *)
Variable train_data val_data : list Z.

(** ** [get_batch] *)

Definition get_batch (split : string) (g : RNG)
  : option (list (list Z) * list (list Z) * RNG) :=
  let data := if String.eqb split "train"%string then train_data else val_data in
  '(ix, g') <- randint g (Z.of_nat (length data) - Z.of_nat (block_size cfg))
                       (batch_size cfg) ;;
  x <- stack (map (fun i => py_slice data i (i + Z.of_nat (block_size cfg))) ix) ;;
  y <- stack (map (fun i => py_slice data (i + 1) (i + Z.of_nat (block_size cfg) + 1)) ix) ;;
  Some (x, y, g').

(** ** The state of the script *)

(** What the engine is asked to do, in order: each call of the model
    records the mode flags it ran under. *)
Inductive Event : Type :=
| EvForward (training grad : bool)
| EvOptimizerStep.

(** One printed line [step i: train loss a, val loss b]. *)
Record Report : Type := mkReport {
  rep_iter : nat;
  rep_train : R;
  rep_val : R
}.

Record State : Type := mkState {
  model : BigramLanguageModel;  (* the parameters *)
  training : bool;              (* [model.training] *)
  grad_enabled : bool;          (* [torch.is_grad_enabled()] *)
  rng : RNG;
  opt : Opt;
  stdout : list Report;
  history : list Event
}.

Definition set_training (b : bool) (s : State) : State :=
  mkState (model s) b (grad_enabled s) (rng s) (opt s) (stdout s) (history s).

Definition set_grad_enabled (b : bool) (s : State) : State :=
  mkState (model s) (training s) b (rng s) (opt s) (stdout s) (history s).

Definition set_rng (g : RNG) (s : State) : State :=
  mkState (model s) (training s) (grad_enabled s) g (opt s) (stdout s) (history s).

Definition log_event (e : Event) (s : State) : State :=
  mkState (model s) (training s) (grad_enabled s) (rng s) (opt s) (stdout s)
          (history s ++ [e]).

Definition print (r : Report) (s : State) : State :=
  mkState (model s) (training s) (grad_enabled s) (rng s) (opt s) (stdout s ++ [r])
          (history s).

(** [get_batch(split)] on the generator of the state. *)
Definition get_batch_st (split : string) (s : State)
  : option (list (list Z) * list (list Z) * State) :=
  '(x, y, g) <- get_batch split (rng s) ;;
  Some (x, y, set_rng g s).

(** [model(X, Y)]. *)
Definition call_model (X Y : list (list Z)) (s : State)
  : option (Logits * option R * State) :=
  '(logits, loss) <- forward (model s) X (Some Y) ;;
  Some (logits, loss, log_event (EvForward (training s) (grad_enabled s)) s).

(** ** [estimate_loss] *)

(** [losses[k] = v]. *)
Fixpoint set_nth (k : nat) (v : R) (l : vec) : vec :=
  match l with
  | [] => []
  | a :: l' =>
      match k with
      | O => v :: l'
      | S k' => a :: set_nth k' v l'
      end
  end.

(** The inner loop [for k in range(eval_iters)], over the remaining [ks]. *)
Fixpoint eval_batches (split : string) (ks : list nat) (losses : vec) (s : State)
  : option (vec * State) :=
  match ks with
  | [] => Some (losses, s)
  | k :: ks' =>
      '(X, Y, s1) <- get_batch_st split s ;;
      '(logits, loss, s2) <- call_model X Y s1 ;;
      l <- loss ;;                                  (* [loss.item()] *)
      eval_batches split ks' (set_nth k l losses) s2
  end.

(** The outer loop [for split in ['train', 'val']], over the remaining
    [splits]; [out] is the dictionary, latest entry first. *)
Fixpoint eval_splits (splits : list string) (out : list (string * R))
         (s : State) : option (list (string * R) * State) :=
  match splits with
  | [] => Some (out, s)
  | split :: splits' =>
      let losses := repeat 0%R (eval_iters cfg) in
      '(losses, s1) <- eval_batches split (seq 0 (eval_iters cfg)) losses s ;;
      eval_splits splits' ((split, mean losses) :: out) s1
  end.

(** [estimate_loss()], with its decorator [@torch.no_grad()]: gradient
    recording is switched off for the call and put back on return. *)
Definition estimate_loss (s : State) : option (list (string * R) * State) :=
  let prev := grad_enabled s in
  let s := set_grad_enabled false s in
  let s := set_training false s in                 (* [model.eval()] *)
  '(out, s) <- eval_splits ["train"%string; "val"%string] [] s ;;
  let s := set_training true s in                  (* [model.train()] *)
  Some (out, set_grad_enabled prev s).

(** [d[k]]; a missing key raises. *)
Fixpoint lookup (k : string) (d : list (string * R)) : option R :=
  match d with
  | [] => None
  | (k', v) :: d' => if String.eqb k k' then Some v else lookup k d'
  end.

(** ** The training loop *)

(** The body of [for iter in range(max_iters)]. *)
Definition train_iter (iter : nat) (s : State) : option State :=
  s <- (if (eval_interval cfg =? 0)%nat then None    (* [iter % 0] raises *)
        else if (iter mod eval_interval cfg =? 0)%nat then
          '(losses, s) <- estimate_loss s ;;
          tr <- lookup "train"%string losses ;;
          va <- lookup "val"%string losses ;;
          Some (print (mkReport iter tr va) s)
        else Some s) ;;
  '(xb, yb, s) <- get_batch_st "train"%string s ;;
  '(logits, loss, s) <- call_model xb yb s ;;
  if grad_enabled s then                           (* [loss.backward()] needs a graph *)
    let (m', o') := backward_step (opt s) (model s) xb yb in
    Some (log_event EvOptimizerStep
            (mkState m' (training s) (grad_enabled s) (rng s) o' (stdout s) (history s)))
  else None.

Fixpoint train_loop (iters : list nat) (s : State) : option State :=
  match iters with
  | [] => Some s
  | i :: iters' => s' <- train_iter i s ;; train_loop iters' s'
  end.

Definition train (s : State) : option State := train_loop (seq 0 (max_iters cfg)) s.

End Training.

(** ** Well-formed modules and reference formulas *)

(** The parameter shapes the constructors establish, for arbitrary
    parameter values. *)
Definition wf_Head (cfg : Config) (head_size : nat) (h : Head) : Prop :=
  wf_Linear (n_embd cfg) head_size (key h) /\
  wf_Linear (n_embd cfg) head_size (query h) /\
  wf_Linear (n_embd cfg) head_size (value h) /\
  tril h = torch_tril (torch_ones (block_size cfg) (block_size cfg)).

(** The strictly upper triangular T x T mask: entry (i, j) is set when
    key position [j] lies in the future of query position [i]. *)
Definition causal_mask (T : nat) : list (list bool) :=
  tabulate T (fun i => tabulate T (fun j => (i <? j)%nat)).

(** The scaled score of query [xi] against key [xj]. *)
Definition head_score (h : Head) (xi xj : vec) : R :=
  (dot (Linear_apply (query h) xi) (Linear_apply (key h) xj)
   * / sqrt (INR (out_features (key h))))%R.

(** The output of a head at one position, as a function of the input at
    that position [xi] and of the inputs [past] up to and including it. *)
Definition head_row (h : Head) (xi : vec) (past : mat) : vec :=
  vcomb (out_features (value h))
        (softmax (map (fun xj => Fin (head_score h xi xj)) past))
        (map (Linear_apply (value h)) past).

(** The attention weights of query position [i] among [T] positions: a
    softmax over the positions up to [i], and zero on the later ones. *)
Definition weights_row (h : Head) (T : nat) (x : mat) (i : nat) (xi : vec) : vec :=
  softmax (map (fun xj => Fin (head_score h xi xj)) (firstn (S i) x))
  ++ repeat 0%R (T - S i).

Definition wf_MultiHeadAttention (cfg : Config) (num_heads head_size : nat)
           (m : MultiHeadAttention) : Prop :=
  length (heads m) = num_heads /\
  Forall (wf_Head cfg head_size) (heads m) /\
  wf_Linear (n_embd cfg) (n_embd cfg) (proj m).

Definition wf_FeedForward (cfg : Config) (f : FeedForward) : Prop :=
  wf_Linear (n_embd cfg) (4 * n_embd cfg) (net0 f) /\
  wf_Linear (4 * n_embd cfg) (n_embd cfg) (net2 f).

Definition wf_Block (cfg : Config) (n_head : nat) (b : Block) : Prop :=
  wf_MultiHeadAttention cfg n_head (n_embd cfg / n_head) (sa b) /\
  wf_FeedForward cfg (ffwd b) /\
  wf_LayerNorm (n_embd cfg) (ln1 b) /\
  wf_LayerNorm (n_embd cfg) (ln2 b).

Definition wf_BigramLanguageModel (cfg : Config) (m : BigramLanguageModel) : Prop :=
  wf_Embedding (vocab_size cfg) (n_embd cfg) (token_embedding_table m) /\
  wf_Embedding (block_size cfg) (n_embd cfg) (position_embedding_table m) /\
  Forall (wf_Block cfg 4) (blocks m) /\
  wf_LayerNorm (n_embd cfg) (ln_f m) /\
  wf_Linear (n_embd cfg) (vocab_size cfg) (lm_head m).

(** The hyperparameters the script can run with: positive sizes, and an
    embedding width that the four heads of a block divide. *)
Definition valid_config (cfg : Config) : Prop :=
  0 < batch_size cfg /\ 0 < block_size cfg /\ 0 < eval_interval cfg /\
  0 < n_embd cfg /\ n_embd cfg mod 4 = 0 /\ 0 < vocab_size cfg.

(** [LayerNorm] on one feature vector of the right width. *)
Definition LayerNorm_apply (ln : LayerNorm) (x : vec) : vec :=
  vadd (map2 Rmult
          (map (fun a => ((a - mean x) / sqrt (variance x + ln_eps ln))%R) x)
          (ln_weight ln))
       (ln_bias ln).

(** The block as the design words it: normalise, attend, add to the
    input; normalise, feed forward, add again. *)
Definition Block_spec (b : Block) (x y : tensor3) : Prop :=
  exists n1 a n2 f,
    LayerNorm_forward (ln1 b) x = Some n1 /\
    MultiHeadAttention_forward (sa b) n1 = Some a /\
    LayerNorm_forward (ln2 b) (tadd x a) = Some n2 /\
    FeedForward_forward (ffwd b) n2 = Some f /\
    y = tadd (tadd x a) f.

(** The hyperparameters written in the script; the vocabulary size is that
    of the corpus the script was written for (65 distinct characters). *)
Definition script_config : Config :=
  {| batch_size := 32;
     block_size := 8;
     max_iters := 5000;
     eval_interval := 300;
     eval_iters := 200;
     n_embd := 32;
     vocab_size := 65 |}.

(** Some initial parameter values. *)
Definition const_init (c : R) : Init := fun _ _ _ => c.

(** A (B, T) tensor of symbol codes: every entry lies in [0, V). *)
Definition codes_in (V : nat) (idx : list (list Z)) : Prop :=
  Forall (Forall (fun i => (0 <= i < Z.of_nat V)%Z)) idx.

(** The cross entropy of one prediction against its target symbol, and
    its average over a batch of predictions. *)
Definition nll_value (logits : vec) (t : Z) : R :=
  (- ln (nth (Z.to_nat t) (softmax (map Fin logits)) 0%R))%R.

Definition mean_cross_entropy (logits : mat) (targets : list Z) : R :=
  (Rsum (map2 nll_value logits targets) / INR (length targets))%R.



(** The split [get_batch] reads for a given name. *)
Definition selected (train_data val_data : list Z) (split : string) : list Z :=
  if String.eqb split "train" then train_data else val_data.

(** Writing the values [ls] at the indices [ks], one after the other. *)
Definition set_all (ks : list nat) (ls : vec) (losses : vec) : vec :=
  fold_left (fun acc p => set_nth (fst p) (snd p) acc) (combine ks ls) losses.

(** The losses of [n] successive batches drawn from [split], each passed
    forward through the fixed model [m]. *)
Fixpoint batch_losses (cfg : Config) {E : RandomEngine} (train_data val_data : list Z)
         (m : BigramLanguageModel) (split : string) (n : nat) (g : RNG)
  : option (vec * RNG) :=
  match n with
  | O => Some ([], g)
  | S n' =>
      '(x, y, g1) <- get_batch cfg train_data val_data split g ;;
      '(logits, loss) <- forward m x (Some y) ;;
      l <- loss ;;
      '(ls, g2) <- batch_losses cfg train_data val_data m split n' g1 ;;
      Some (l :: ls, g2)
  end.

(** The engine calls of one iteration of the training loop in training
    mode: the evaluation passes when the iteration number is a multiple of
    [eval_interval], then the training pass and the optimiser step. *)
Definition iter_events (cfg : Config) (i : nat) : list Event :=
  (if (i mod eval_interval cfg =? 0)%nat
   then repeat (EvForward false false) (2 * eval_iters cfg)
   else [])
  ++ [EvForward true true; EvOptimizerStep].

(** The contract of the optimiser: an update keeps the parameter shapes. *)
Definition OptimizerLaws (cfg : Config) (Optim : Optimizer) : Prop :=
  forall o m xb yb,
    wf_BigramLanguageModel cfg m ->
    wf_BigramLanguageModel cfg (fst (backward_step o m xb yb)).

(** ** Small instances *)

Definition tiny_config : Config :=
  {| batch_size := 2;
     block_size := 2;
     max_iters := 2;
     eval_interval := 2;
     eval_iters := 1;
     n_embd := 4;
     vocab_size := 2 |}.

(** The index of the first positive entry. *)
Fixpoint first_positive (p : vec) : option nat :=
  match p with
  | [] => None
  | a :: p' => if Rlt_dec 0 a then Some 0 else option_map S (first_positive p')
  end.

(** A deterministic engine: the generator state is a counter. *)
Definition counter_engine : RandomEngine :=
  {| RNG := nat;
     randint := fun g high n =>
       if (high <=? 0)%Z then None
       else Some (map (fun k => (Z.of_nat (g + k) mod high)%Z) (seq 0 n), g + n);
     multinomial1 := fun g p =>
       match first_positive p with
       | Some i => Some (Z.of_nat i, S g)
       | None => None
       end |}.

(** An optimiser that leaves the parameters as they are. *)
Definition null_optimizer : Optimizer :=
  {| Opt := unit;
     backward_step := fun o m _ _ => (m, o) |}.

Definition tiny_head : Head := Head_init tiny_config 1 (const_init 1).

Definition tiny_x : tensor3 := [[[1; 2; 3; 4]; [0; 1; 0; 1]]]%R.

Definition tiny_x' : tensor3 := [[[1; 2; 3; 4]; [5; 5; 5; 5]]]%R.

Definition tiny_mha : MultiHeadAttention := MultiHeadAttention_init tiny_config 2 2 (const_init 1).

Definition tiny_block : Block :=
  {| sa := tiny_mha;
     ffwd := FeedForward_init 4 (const_init 1);
     ln1 := LayerNorm_init 4;
     ln2 := LayerNorm_init 4 |}.

Definition tiny_model : BigramLanguageModel :=
  {| token_embedding_table := Embedding_init 2 4 (const_init 1 []);
     position_embedding_table := Embedding_init 2 4 (const_init 1 []);
     blocks := [{| sa := MultiHeadAttention_init tiny_config 4 1 (const_init 1);
                   ffwd := FeedForward_init 4 (const_init 1);
                   ln1 := LayerNorm_init 4;
                   ln2 := LayerNorm_init 4 |}];
     ln_f := LayerNorm_init 4;
     lm_head := Linear_init 4 2 true (const_init 1 []) |}.

Definition tiny_data : list Z := [0; 1; 1; 0; 1]%Z.

Definition tiny_state : @State counter_engine null_optimizer :=
  @mkState counter_engine null_optimizer tiny_model true true (0 : @RNG counter_engine) tt [] [].

(** ** The vocabulary and the codec *)

(** A character is its Unicode code point; a Python string is the list of
    its characters. *)
Abbreviation char := N.

(** [sorted(l)] on characters: ascending code points. *)
Fixpoint insert_sorted (c : char) (l : list char) : list char :=
  match l with
  | [] => [c]
  | a :: l' => if (c <=? a)%N then c :: l else a :: insert_sorted c l'
  end.

Definition sorted (l : list char) : list char := fold_right insert_sorted [] l.

(** [chars = sorted(list(set(text)))]: the distinct characters of the
    text, ascending.  ([set] keeps one copy of every character; the order
    in which [list] enumerates it does not survive [sorted].) *)
Definition chars (text : list char) : list char := sorted (nodup N.eq_dec text).

(** [vocab_size = len(chars)], as a hyperparameter record would hold it. *)
Definition vocab_size_of (text : list char) : nat := length (chars text).

(** A Python dict as an association list with unique keys: [d[k] = v]
    replaces the value of an existing key, [d[k]] on a missing key
    raises [KeyError]. *)
Fixpoint dict_set {K V : Type} (eqb : K -> K -> bool) (k : K) (v : V) (d : list (K * V))
  : list (K * V) :=
  match d with
  | [] => [(k, v)]
  | (k', v') :: d' =>
      if eqb k k' then (k, v) :: d' else (k', v') :: dict_set eqb k v d'
  end.

Fixpoint dict_get {K V : Type} (eqb : K -> K -> bool) (k : K) (d : list (K * V)) : option V :=
  match d with
  | [] => None
  | (k', v') :: d' => if eqb k k' then Some v' else dict_get eqb k d'
  end.

(** A dict comprehension [{k: v for (k, v) in pairs}]. *)
Definition dict_of_pairs {K V : Type} (eqb : K -> K -> bool) (pairs : list (K * V))
  : list (K * V) :=
  fold_left (fun d p => dict_set eqb (fst p) (snd p) d) pairs [].

(** [enumerate(l)]. *)
Definition enumerate {A : Type} (l : list A) : list (Z * A) :=
  combine (map Z.of_nat (seq 0 (length l))) l.

(** [stoi = { ch:i for i,ch in enumerate(chars) }] and
    [itos = { i:ch for i,ch in enumerate(chars) }]. *)
Definition stoi (text : list char) : list (char * Z) :=
  dict_of_pairs N.eqb (map (fun p => (snd p, fst p)) (enumerate (chars text))).

Definition itos (text : list char) : list (Z * char) :=
  dict_of_pairs Z.eqb (enumerate (chars text)).

(** [encode = lambda s: [stoi[c] for c in s]] and
    [decode = lambda l: ''.join([itos[i] for i in l])]. *)
Definition encode (text : list char) (s : list char) : option (list Z) :=
  mapM (fun c => dict_get N.eqb c (stoi text)) s.

Definition decode (text : list char) (l : list Z) : option (list char) :=
  mapM (fun i => dict_get Z.eqb i (itos text)) l.

(** [l[:hi]]. *)
Definition py_slice_to {A : Type} (l : list A) (hi : Z) : list A :=
  firstn (Z.to_nat (py_index (Z.of_nat (length l)) hi)) l.

(** [train_data = data[:n]] and [val_data = data[n:]].  The script takes
    [n = int(0.9*len(data))], a floating-point product; here [n] is any
    Python integer. *)
Definition train_split (data : list Z) (n : Z) : list Z := py_slice_to data n.
Definition val_split (data : list Z) (n : Z) : list Z := py_slice_from data n.

(** The feed-forward network on one feature vector. *)
Definition FeedForward_apply (f : FeedForward) (v : vec) : vec :=
  Linear_apply (net2 f) (map (Rmax 0) (Linear_apply (net0 f) v)).

(** The first [k] time steps of every batch element. *)
Definition time_prefix {A : Type} (k : nat) (x : list (list A)) : list (list A) :=
  map (firstn k) x.

(** Recognising the engine calls in a trace. *)
Definition is_optimizer_step (e : Event) : bool :=
  match e with
  | EvOptimizerStep => true
  | EvForward _ _ => false
  end.

Definition is_eval_forward (e : Event) : bool :=
  match e with
  | EvForward false false => true
  | _ => false
  end.

(** The number of multiples of [e] below [n]. *)
Definition evaluations (n e : nat) : nat := (n + e - 1) / e.

(** The batch made of batch element [b] alone. *)
Definition batch_row {A : Type} (b : nat) (x : list (list A)) : list (list A) :=
  [nth b x []].

(** More small instances. *)
Definition tiny_text : list char := [97; 98; 98; 97; 98; 97]%N.

Definition tiny_config1 : Config :=
  {| batch_size := 2;
     block_size := 1;
     max_iters := 2;
     eval_interval := 2;
     eval_iters := 1;
     n_embd := 4;
     vocab_size := 2 |}.

Definition tiny_head1 : Head := Head_init tiny_config1 1 (const_init 1).

Definition tiny_x3 : tensor3 := [[[1; 2; 3; 4]; [0; 1; 0; 1]; [2; 2; 2; 2]]]%R.

Definition tiny_ffwd : FeedForward := FeedForward_init 4 (const_init 1).

(** ** Floating-point range: infinities and NaN *)

(** The layers once more, over numbers that can leave the range of a
    float32.  A value is a real within the range, an infinity or NaN; an
    operation computes the real result and maps it to the range, so a
    result above [float_max] in magnitude is an infinity, and the
    operations on infinities and NaN follow IEEE 754.  A finite value is
    meant to lie within the range ([in_range]); every operation returns
    such values.  What is still idealised is the rounding of the
    significand (with it the gradual underflow of tiny results to zero)
    and the sign of zero.  A sum is accumulated in index order; the
    kernels of the engine may add in another order, which for finite
    intermediate results is a difference of rounding. *)
Module Float32.

Inductive float32 : Type :=
| Finite (r : R)
| Infinity (negative : bool)
| NaN.

(** The largest finite float32, (2 - 2^-23) * 2^127. *)
Definition float_max : R := 340282346638528859811704183484516925440%R.

Definition to_range (r : R) : float32 :=
  if Rlt_dec float_max r then Infinity false
  else if Rlt_dec r (- float_max) then Infinity true
  else Finite r.

Definition is_finite (a : float32) : Prop :=
  match a with
  | Finite _ => True
  | _ => False
  end.

(** A value an operation can return: a finite one lies within the range. *)
Definition in_range (a : float32) : Prop :=
  match a with
  | Finite r => (- float_max <= r <= float_max)%R
  | _ => True
  end.

Definition fadd (a b : float32) : float32 :=
  match a, b with
  | NaN, _ | _, NaN => NaN
  | Finite x, Finite y => to_range (x + y)
  | Finite _, Infinity s | Infinity s, Finite _ => Infinity s
  | Infinity s, Infinity s' => if Bool.eqb s s' then Infinity s else NaN
  end.

Definition fneg (a : float32) : float32 :=
  match a with
  | Finite x => Finite (- x)
  | Infinity s => Infinity (negb s)
  | NaN => NaN
  end.

Definition fsub (a b : float32) : float32 := fadd a (fneg b).

Definition fmul (a b : float32) : float32 :=
  match a, b with
  | NaN, _ | _, NaN => NaN
  | Finite x, Finite y => to_range (x * y)
  | Finite x, Infinity s | Infinity s, Finite x =>
      if Req_dec_T x 0 then NaN
      else Infinity (if Rlt_dec x 0 then negb s else s)
  | Infinity s, Infinity s' => Infinity (xorb s s')
  end.

Definition fdiv (a b : float32) : float32 :=
  match a, b with
  | NaN, _ | _, NaN => NaN
  | Finite x, Finite y =>
      if Req_dec_T y 0
      then (if Req_dec_T x 0 then NaN else Infinity (if Rlt_dec x 0 then true else false))
      else to_range (x / y)
  | Finite _, Infinity _ => Finite 0
  | Infinity s, Finite y => Infinity (if Rlt_dec y 0 then negb s else s)
  | Infinity _, Infinity _ => NaN
  end.

Definition fexp (a : float32) : float32 :=
  match a with
  | Finite x => to_range (exp x)
  | Infinity true => Finite 0
  | Infinity false => Infinity false
  | NaN => NaN
  end.

(** The maximum of two values as the engine's reductions take it: NaN
    wins. *)
Definition fmax2 (a b : float32) : float32 :=
  match a, b with
  | NaN, _ | _, NaN => NaN
  | Finite x, Finite y => Finite (Rmax x y)
  | Infinity false, _ | _, Infinity false => Infinity false
  | Infinity true, c | c, Infinity true => c
  end.

Abbreviation vec := (list float32).
Abbreviation mat := (list (list float32)).
Abbreviation tensor3 := (list (list (list float32))).

Definition fsum (l : vec) : float32 := fold_left fadd l (Finite 0).

Definition dot (u v : vec) : float32 := fsum (map2 fmul u v).

Definition vadd (u v : vec) : vec := map2 fadd u v.

Definition vscale (c : float32) (v : vec) : vec := map (fmul c) v.

(** [a @ b]: row [i] of the product accumulates the rows of [b] weighted
    by row [i] of [a], from the first row on. *)
Definition vcomb (p : nat) (w : vec) (b : mat) : vec :=
  fold_left vadd (map2 vscale w b) (repeat (Finite 0) p).

Definition matmul (p : nat) (a b : mat) : mat := map (fun w => vcomb p w b) a.

Definition shape1 (n : nat) (v : vec) : Prop := length v = n.
Definition shape2 (n m : nat) (a : mat) : Prop :=
  length a = n /\ Forall (shape1 m) a.
Definition shape3 (b n m : nat) (x : tensor3) : Prop :=
  length x = b /\ Forall (shape2 n m) x.

Definition torch_ones (r c : nat) : mat := repeat (repeat (Finite 1) c) r.

Definition torch_tril (m : mat) : mat :=
  mapi (fun i row => mapi (fun j a => if (j <=? i)%nat then a else Finite 0) row) m.

(** [m == 0], elementwise: an infinity and NaN are different from zero. *)
Definition eq_zero (m : mat) : list (list bool) :=
  map (map (fun a => match a with
                     | Finite r => if Req_dec_T r 0 then true else false
                     | _ => false
                     end)) m.

(** [wei.masked_fill(mask, float('-inf'))], with the mask broadcast. *)
Definition masked_fill (wei : mat) (mask : list (list bool)) : option mat :=
  rows <- expand (length wei) mask ;;
  zipM (fun w m =>
          m' <- expand (length w) m ;;
          Some (map2 (fun a (b : bool) => if b then Infinity true else a) w m'))
       wei rows.

(** [F.softmax(row, dim=-1)] on one row: the row maximum is subtracted
    before exponentiating. *)
Definition row_max (row : vec) : float32 := fold_right fmax2 (Infinity true) row.

Definition softmax (row : vec) : vec :=
  let m := row_max row in
  let es := map (fun s => fexp (fsub s m)) row in
  let total := fsum es in
  map (fun e => fdiv e total) es.

(** [nn.Linear] with float32 parameters. *)
Record Linear : Type := mkLinear {
  in_features : nat;
  out_features : nat;
  weight : mat;
  bias : option vec
}.

Definition Init : Type := list nat -> nat -> nat -> float32.

Definition sub (i : nat) (init : Init) : Init := fun p => init (i :: p).

Definition Linear_init (in_f out_f : nat) (with_bias : bool) (init : nat -> nat -> float32)
  : Linear :=
  {| in_features := in_f;
     out_features := out_f;
     weight := tabulate out_f (fun i => tabulate in_f (fun j => init i j));
     bias := if with_bias then Some (tabulate out_f (fun i => init i in_f)) else None |}.

Definition Linear_apply (l : Linear) (x : vec) : vec :=
  let y := map (fun w => dot x w) (weight l) in
  match bias l with
  | Some b => vadd y b
  | None => y
  end.

Definition Linear_vec (l : Linear) (x : vec) : option vec :=
  if (length x =? in_features l)%nat then Some (Linear_apply l x) else None.

Definition Linear_mat (l : Linear) (x : mat) : option mat := mapM (Linear_vec l) x.
Definition Linear_forward (l : Linear) (x : tensor3) : option tensor3 := mapM (Linear_mat l) x.

Definition wf_Linear (in_f out_f : nat) (l : Linear) : Prop :=
  in_features l = in_f /\ out_features l = out_f /\
  shape2 out_f in_f (weight l) /\
  match bias l with
  | Some b => shape1 out_f b
  | None => True
  end.

(** [Head] with float32 parameters. *)
Record Head : Type := mkHead {
  key : Linear;
  query : Linear;
  value : Linear;
  tril : mat
}.

Definition Head_init (cfg : Config) (head_size : nat) (init : Init) : Head :=
  {| key := Linear_init (n_embd cfg) head_size false (sub 0 init []);
     query := Linear_init (n_embd cfg) head_size false (sub 1 init []);
     value := Linear_init (n_embd cfg) head_size false (sub 2 init []);
     tril := torch_tril (torch_ones (block_size cfg) (block_size cfg)) |}.

(** Lines 76-81 of [Head.forward] on one batch element: the scores after
    [masked_fill]. *)
Definition Head_scores (h : Head) (x : mat) : option mat :=
  let T := length x in
  k <- Linear_mat (key h) x ;;
  q <- Linear_mat (query h) x ;;
  c <- pow_neg_half (out_features (key h)) ;;
  let wei := map (fun qi => map (fun kj => fmul (dot qi kj) (Finite c)) k) q in
  masked_fill wei (eq_zero (slice2 T T (tril h))).

(** Line 82: the attention weights. *)
Definition Head_weights (h : Head) (x : mat) : option mat :=
  wei <- Head_scores h x ;;
  Some (map softmax wei).

Definition Head_mat (h : Head) (x : mat) : option mat :=
  wei <- Head_weights h x ;;
  v <- Linear_mat (value h) x ;;
  Some (matmul (out_features (value h)) wei v).

Definition Head_forward (h : Head) (x : tensor3) : option tensor3 :=
  mapM (Head_mat h) x.

Definition wf_Head (cfg : Config) (head_size : nat) (h : Head) : Prop :=
  wf_Linear (n_embd cfg) head_size (key h) /\
  wf_Linear (n_embd cfg) head_size (query h) /\
  wf_Linear (n_embd cfg) head_size (value h) /\
  tril h = torch_tril (torch_ones (block_size cfg) (block_size cfg)).

(** The scaled score of query [xi] against key [xj]. *)
Definition head_score (h : Head) (xi xj : vec) : float32 :=
  fmul (dot (Linear_apply (query h) xi) (Linear_apply (key h) xj))
       (Finite (/ sqrt (INR (out_features (key h))))).

(** The scores of query position [i] among [T] positions after masking:
    the scores against the positions up to [i], then minus infinity. *)
Definition scores_row (h : Head) (T : nat) (x : mat) (i : nat) (xi : vec) : vec :=
  map (head_score h xi) (firstn (S i) x) ++ repeat (Infinity true) (T - S i).

(** The exponential of the gap between a score and the finite row
    maximum [m], as a real number. *)
Definition exp_gap (m : R) (s : float32) : R :=
  match fexp (fsub s (Finite m)) with
  | Finite e => e
  | _ => 0%R
  end.

(** The language model with float32 parameters.  The library layers
    ([nn.LayerNorm], [nn.ReLU], [nn.Embedding], [F.cross_entropy]) follow
    the formulas of their documentation. *)

Definition madd (a b : mat) : mat := map2 vadd a b.
Definition tadd (a b : tensor3) : tensor3 := map2 madd a b.

Definition fsqrt (a : float32) : float32 :=
  match a with
  | Finite x => if Rlt_dec x 0 then NaN else Finite (sqrt x)
  | Infinity false => Infinity false
  | Infinity true => NaN
  | NaN => NaN
  end.

Definition fln (a : float32) : float32 :=
  match a with
  | Finite x =>
      if Rlt_dec x 0 then NaN
      else if Req_dec_T x 0 then Infinity true else to_range (ln x)
  | Infinity false => Infinity false
  | Infinity true => NaN
  | NaN => NaN
  end.

(** [max(x, 0)]; NaN stays NaN. *)
Definition frelu (a : float32) : float32 :=
  match a with
  | Finite x => Finite (Rmax 0 x)
  | Infinity false => Infinity false
  | Infinity true => Finite 0
  | NaN => NaN
  end.

Record LayerNorm : Type := mkLayerNorm {
  normalized_shape : nat;
  ln_weight : vec;
  ln_bias : vec;
  ln_eps : R
}.

Definition LayerNorm_init (n : nat) : LayerNorm :=
  {| normalized_shape := n;
     ln_weight := repeat (Finite 1) n;
     ln_bias := repeat (Finite 0) n;
     ln_eps := (/ 100000)%R |}.

Definition mean (x : vec) : float32 := fdiv (fsum x) (Finite (INR (length x))).

Definition variance (x : vec) : float32 :=
  mean (map (fun a => fmul (fsub a (mean x)) (fsub a (mean x))) x).

Definition LayerNorm_apply (ln : LayerNorm) (x : vec) : vec :=
  vadd (map2 fmul
          (map (fun a => fdiv (fsub a (mean x))
                              (fsqrt (fadd (variance x) (Finite (ln_eps ln))))) x)
          (ln_weight ln))
       (ln_bias ln).

Definition LayerNorm_vec (ln : LayerNorm) (x : vec) : option vec :=
  if (length x =? normalized_shape ln)%nat then Some (LayerNorm_apply ln x) else None.

Definition LayerNorm_forward (ln : LayerNorm) (x : tensor3) : option tensor3 :=
  mapM (mapM (LayerNorm_vec ln)) x.

Definition wf_LayerNorm (n : nat) (ln : LayerNorm) : Prop :=
  normalized_shape ln = n /\ shape1 n (ln_weight ln) /\ shape1 n (ln_bias ln).

Record Embedding : Type := mkEmbedding {
  num_embeddings : nat;
  embedding_dim : nat;
  emb_weight : mat
}.

Definition Embedding_init (n d : nat) (init : nat -> nat -> float32) : Embedding :=
  {| num_embeddings := n;
     embedding_dim := d;
     emb_weight := tabulate n (fun i => tabulate d (fun j => init i j)) |}.

Definition Embedding_lookup (e : Embedding) (i : Z) : option vec :=
  if ((0 <=? i)%Z && (i <? Z.of_nat (num_embeddings e))%Z)%bool
  then nth_error (emb_weight e) (Z.to_nat i)
  else None.

Definition wf_Embedding (n d : nat) (e : Embedding) : Prop :=
  num_embeddings e = n /\ embedding_dim e = d /\ shape2 n d (emb_weight e).

Definition cat_tensor3 (a b : tensor3) : option tensor3 := zipM (@cat_mat float32) a b.

Fixpoint cat_last (ts : list tensor3) : option tensor3 :=
  match ts with
  | [] => None
  | [t] => Some t
  | t :: ts' => r <- cat_last ts' ;; cat_tensor3 t r
  end.

Record MultiHeadAttention : Type := mkMultiHeadAttention {
  heads : list Head;
  proj : Linear
}.

Definition MultiHeadAttention_init (cfg : Config) (num_heads head_size : nat) (init : Init)
  : MultiHeadAttention :=
  {| heads := map (fun i => Head_init cfg head_size (sub i (sub 0 init))) (seq 0 num_heads);
     proj := Linear_init (n_embd cfg) (n_embd cfg) true (sub 1 init []) |}.

Definition MultiHeadAttention_forward (m : MultiHeadAttention) (x : tensor3)
  : option tensor3 :=
  outs <- mapM (fun h => Head_forward h x) (heads m) ;;
  out <- cat_last outs ;;
  Linear_forward (proj m) out.

Record FeedForward : Type := mkFeedForward {
  net0 : Linear;
  net2 : Linear
}.

Definition FeedForward_init (n : nat) (init : Init) : FeedForward :=
  {| net0 := Linear_init n (4 * n) true (sub 0 init []);
     net2 := Linear_init (4 * n) n true (sub 2 init []) |}.

Definition relu (x : tensor3) : tensor3 := map (map (map frelu)) x.

Definition FeedForward_forward (f : FeedForward) (x : tensor3) : option tensor3 :=
  h <- Linear_forward (net0 f) x ;;
  Linear_forward (net2 f) (relu h).

Record Block : Type := mkBlock {
  sa : MultiHeadAttention;
  ffwd : FeedForward;
  ln1 : LayerNorm;
  ln2 : LayerNorm
}.

Definition Block_init (cfg : Config) (n_emd n_head : nat) (init : Init) : option Block :=
  if (n_head =? 0)%nat then None
  else
    let head_size := (n_embd cfg / n_head)%nat in
    Some {| sa := MultiHeadAttention_init cfg n_head head_size (sub 0 init);
            ffwd := FeedForward_init (n_embd cfg) (sub 1 init);
            ln1 := LayerNorm_init (n_embd cfg);
            ln2 := LayerNorm_init (n_embd cfg) |}.

Definition Block_forward (b : Block) (x : tensor3) : option tensor3 :=
  n1 <- LayerNorm_forward (ln1 b) x ;;
  a <- MultiHeadAttention_forward (sa b) n1 ;;
  let x := tadd x a in
  n2 <- LayerNorm_forward (ln2 b) x ;;
  f <- FeedForward_forward (ffwd b) n2 ;;
  let x := tadd x f in
  Some x.

Record BigramLanguageModel : Type := mkBigramLanguageModel {
  token_embedding_table : Embedding;
  position_embedding_table : Embedding;
  blocks : list Block;
  ln_f : LayerNorm;
  lm_head : Linear
}.

Definition BigramLanguageModel_init (cfg : Config) (init : Init)
  : option BigramLanguageModel :=
  b0 <- Block_init cfg (n_embd cfg) 4 (sub 0 (sub 2 init)) ;;
  b1 <- Block_init cfg (n_embd cfg) 4 (sub 1 (sub 2 init)) ;;
  b2 <- Block_init cfg (n_embd cfg) 4 (sub 2 (sub 2 init)) ;;
  Some {| token_embedding_table :=
            Embedding_init (vocab_size cfg) (n_embd cfg) (sub 0 init []);
          position_embedding_table :=
            Embedding_init (block_size cfg) (n_embd cfg) (sub 1 init []);
          blocks := [b0; b1; b2];
          ln_f := LayerNorm_init (n_embd cfg);
          lm_head := Linear_init (n_embd cfg) (vocab_size cfg) true (sub 3 init []) |}.

Fixpoint blocks_forward (bs : list Block) (x : tensor3) : option tensor3 :=
  match bs with
  | [] => Some x
  | b :: bs' => x' <- Block_forward b x ;; blocks_forward bs' x'
  end.

Inductive Logits : Type :=
| Logits3 (t : tensor3)
| Logits2 (m : mat).

(** [F.log_softmax] on one row, and [F.cross_entropy] with its defaults. *)
Definition log_softmax (row : vec) : vec :=
  let m := row_max row in
  let shifted := map (fun s => fsub s m) row in
  let lse := fln (fsum (map fexp shifted)) in
  map (fun d => fsub d lse) shifted.

Definition nll (logits : vec) (t : Z) : option float32 :=
  if ((0 <=? t)%Z && (t <? Z.of_nat (length logits))%Z)%bool
  then Some (fneg (nth (Z.to_nat t) (log_softmax logits) NaN))
  else None.

Definition cross_entropy (logits : mat) (targets : list Z) : option float32 :=
  if (length logits =? length targets)%nat then
    let kept := filter (fun p => negb (snd p =? ignore_index)%Z) (combine logits targets) in
    ls <- mapM (fun p => nll (fst p) (snd p)) kept ;;
    Some (fdiv (fsum ls) (Finite (INR (length kept))))
  else None.

Definition forward (m : BigramLanguageModel) (idx : list (list Z))
           (targets : option (list (list Z))) : option (Logits * option float32) :=
  let T := dim1 idx in
  tok_emb <- mapM (mapM (Embedding_lookup (token_embedding_table m))) idx ;;
  pos_emb <- mapM (Embedding_lookup (position_embedding_table m)) (arange T) ;;
  let x := map (fun te => madd te pos_emb) tok_emb in
  x <- blocks_forward (blocks m) x ;;
  x <- LayerNorm_forward (ln_f m) x ;;
  logits <- Linear_forward (lm_head m) x ;;
  match targets with
  | None => Some (Logits3 logits, None)
  | Some targets =>
      let logits := concat logits in
      let targets := concat targets in
      loss <- cross_entropy logits targets ;;
      Some (Logits2 logits, Some loss)
  end.

Definition wf_MultiHeadAttention (cfg : Config) (num_heads head_size : nat)
           (m : MultiHeadAttention) : Prop :=
  length (heads m) = num_heads /\
  Forall (wf_Head cfg head_size) (heads m) /\
  wf_Linear (n_embd cfg) (n_embd cfg) (proj m).

Definition wf_FeedForward (cfg : Config) (f : FeedForward) : Prop :=
  wf_Linear (n_embd cfg) (4 * n_embd cfg) (net0 f) /\
  wf_Linear (4 * n_embd cfg) (n_embd cfg) (net2 f).

Definition wf_Block (cfg : Config) (n_head : nat) (b : Block) : Prop :=
  wf_MultiHeadAttention cfg n_head (n_embd cfg / n_head) (sa b) /\
  wf_FeedForward cfg (ffwd b) /\
  wf_LayerNorm (n_embd cfg) (ln1 b) /\
  wf_LayerNorm (n_embd cfg) (ln2 b).

Definition wf_BigramLanguageModel (cfg : Config) (m : BigramLanguageModel) : Prop :=
  wf_Embedding (vocab_size cfg) (n_embd cfg) (token_embedding_table m) /\
  wf_Embedding (block_size cfg) (n_embd cfg) (position_embedding_table m) /\
  Forall (wf_Block cfg 4) (blocks m) /\
  wf_LayerNorm (n_embd cfg) (ln_f m) /\
  wf_Linear (n_embd cfg) (vocab_size cfg) (lm_head m).

(** The value projections of the positions from [k] on are finite: in one
    head, in every head of an attention layer, and in every attention
    layer of a stack of blocks run on [x]. *)
Definition head_values_finite (k : nat) (h : Head) (x : tensor3) : Prop :=
  forall xb s, In xb x -> k <= s -> s < length xb ->
    Forall is_finite (Linear_apply (value h) (nth s xb [])).

Definition attention_values_finite (k : nat) (m : MultiHeadAttention) (x : tensor3) : Prop :=
  forall h, In h (heads m) -> head_values_finite k h x.

Fixpoint blocks_values_finite (k : nat) (bs : list Block) (x : tensor3) : Prop :=
  match bs with
  | [] => True
  | b :: bs' =>
      (forall n1, LayerNorm_forward (ln1 b) x = Some n1 ->
                  attention_values_finite k (sa b) n1) /\
      (forall y, Block_forward b x = Some y -> blocks_values_finite k bs' y)
  end.

Definition values_finite_from (k : nat) (m : BigramLanguageModel) (idx : list (list Z))
  : Prop :=
  forall tok pos,
    mapM (mapM (Embedding_lookup (token_embedding_table m))) idx = Some tok ->
    mapM (Embedding_lookup (position_embedding_table m)) (arange (dim1 idx)) = Some pos ->
    blocks_values_finite k (blocks m) (map (fun te => madd te pos) tok).

(** The real number a finite value stands for. *)
Definition to_real (a : float32) : R :=
  match a with
  | Finite r => r
  | _ => 0%R
  end.

Definition const_init (c : R) : Init := fun _ _ _ => Finite c.

(** Small instances: a head of width 1 with every parameter equal to 1,
    an input, the same input with a second position whose value
    projection overflows, and an input whose scores overflow. *)
Definition tiny_head : Head := Head_init tiny_config 1 (const_init 1).

(** The same head built for [block_size = 1]. *)
Definition tiny_head1 : Head := Head_init tiny_config1 1 (const_init 1).

Definition tiny_x : tensor3 :=
  [[[Finite 1; Finite 2; Finite 3; Finite 4]; [Finite 0; Finite 1; Finite 0; Finite 1]]].

Definition tiny_x' : tensor3 :=
  [[[Finite 1; Finite 2; Finite 3; Finite 4]; [Finite 5; Finite 5; Finite 5; Finite 5]]].

Definition tiny_x_overflow : tensor3 :=
  [[[Finite 1; Finite 2; Finite 3; Finite 4];
    [Finite 300000000000000000000000000000000000000;
     Finite 300000000000000000000000000000000000000; Finite 0; Finite 0]]].

(** A model with one block of four heads of width 1, the token and
    position tables holding a different constant row per index. *)
Definition tiny_model : BigramLanguageModel :=
  {| token_embedding_table := Embedding_init 2 4 (fun i _ => Finite (INR (S i)));
     position_embedding_table := Embedding_init 2 4 (fun i _ => Finite (INR i));
     blocks := [{| sa := MultiHeadAttention_init tiny_config 4 1 (const_init 1);
                   ffwd := FeedForward_init 4 (const_init 1);
                   ln1 := LayerNorm_init 4;
                   ln2 := LayerNorm_init 4 |}];
     ln_f := LayerNorm_init 4;
     lm_head := Linear_init 4 2 true (const_init 1 []) |}.

Definition tiny_x_large : tensor3 :=
  [[[Finite 100000000000000000000; Finite 0; Finite 0; Finite 0];
    [Finite 100000000000000000000; Finite 0; Finite 0; Finite 0]]].

End Float32.

(** * Properties *)

(** ** The error monad and lists *)

Lemma bind_Some {A B : Type} (m : option A) (k : A -> option B) (b : B) :
  bind m k = Some b <-> exists a, m = Some a /\ k a = Some b.
Proof.
  destruct m as [a|]; simpl; split.
  - intros H. exists a. auto.
  - intros [a' [Ha Hk]]. inversion Ha; subst. exact Hk.
  - discriminate.
  - intros [a' [Ha _]]. discriminate.
Qed.

Ltac inv_bind H :=
  let a := fresh "a" in
  let Ha := fresh "Ha" in
  apply bind_Some in H; destruct H as [a [Ha H]].

Lemma mapM_pure {A B : Type} (f : A -> option B) (g : A -> B) (l : list A) :
  (forall a, In a l -> f a = Some (g a)) -> mapM f l = Some (map g l).
Proof.
  induction l as [|a l IH]; intros H; simpl.
  - reflexivity.
  - rewrite (H a (or_introl eq_refl)). simpl.
    rewrite IH by (intros; apply H; right; assumption). reflexivity.
Qed.

Lemma mapM_length {A B : Type} (f : A -> option B) (l : list A) (r : list B) :
  mapM f l = Some r -> length r = length l.
Proof.
  revert r. induction l as [|a l IH]; simpl; intros r H.
  - inversion H. reflexivity.
  - inv_bind H. inv_bind H. inversion H; subst. simpl. f_equal. apply IH. assumption.
Qed.

Lemma mapM_Forall2 {A B : Type} (f : A -> option B) (l : list A) (r : list B) :
  mapM f l = Some r <-> Forall2 (fun a b => f a = Some b) l r.
Proof.
  revert r. induction l as [|a l IH]; simpl; intros r; split; intros H.
  - inversion H. constructor.
  - inversion H. reflexivity.
  - inv_bind H. inv_bind H. inversion H; subst. constructor; [assumption|].
    apply IH. assumption.
  - inversion H as [|? b ? r' Hab Hrest]; subst. rewrite Hab. simpl.
    apply IH in Hrest. rewrite Hrest. reflexivity.
Qed.

Lemma mapM_total {A B : Type} (f : A -> option B) (P : B -> Prop) (l : list A) :
  (forall a, In a l -> exists b, f a = Some b /\ P b) ->
  exists r, mapM f l = Some r /\ length r = length l /\ Forall P r.
Proof.
  induction l as [|a l IH]; intros H; simpl.
  - exists []. repeat split; constructor.
  - destruct (H a (or_introl eq_refl)) as [b [Hb HP]].
    destruct IH as [r [Hr [Hlen HF]]]; [intros; apply H; right; assumption|].
    exists (b :: r). rewrite Hb, Hr. simpl. repeat split; [congruence|].
    constructor; assumption.
Qed.

Lemma mapM_nth_error {A B : Type} (f : A -> option B) (l : list A) (r : list B) (i : nat) (a : A) :
  mapM f l = Some r -> nth_error l i = Some a ->
  exists b, nth_error r i = Some b /\ f a = Some b.
Proof.
  revert r i. induction l as [|a0 l IH]; intros r i H Hi.
  - destruct i; discriminate.
  - simpl in H. inv_bind H. inv_bind H. inversion H; subst.
    destruct i as [|i]; simpl in *.
    + inversion Hi; subst. eauto.
    + eapply IH; eauto.
Qed.

Lemma map2_length {A B C : Type} (f : A -> B -> C) (l1 : list A) (l2 : list B) :
  length (map2 f l1 l2) = Nat.min (length l1) (length l2).
Proof.
  revert l2. induction l1 as [|a l1 IH]; intros [|b l2]; simpl; auto.
Qed.

Lemma map2_app {A B C : Type} (f : A -> B -> C) (l1 l1' : list A) (l2 l2' : list B) :
  length l1 = length l2 ->
  map2 f (l1 ++ l1') (l2 ++ l2') = map2 f l1 l2 ++ map2 f l1' l2'.
Proof.
  revert l2. induction l1 as [|a l1 IH]; intros [|b l2] H; simpl in *; try discriminate.
  - reflexivity.
  - f_equal. apply IH. lia.
Qed.

Lemma map2_map_l {A A' B C : Type} (f : A' -> B -> C) (g : A -> A') (l1 : list A) (l2 : list B) :
  map2 f (map g l1) l2 = map2 (fun a b => f (g a) b) l1 l2.
Proof.
  revert l2. induction l1 as [|a l1 IH]; intros [|b l2]; simpl; auto.
  f_equal. apply IH.
Qed.

Lemma map2_map_r {A B B' C : Type} (f : A -> B' -> C) (g : B -> B') (l1 : list A) (l2 : list B) :
  map2 f l1 (map g l2) = map2 (fun a b => f a (g b)) l1 l2.
Proof.
  revert l2. induction l1 as [|a l1 IH]; intros [|b l2]; simpl; auto.
  f_equal. apply IH.
Qed.

Lemma map2_diag {A C : Type} (f : A -> A -> C) (l : list A) :
  map2 f l l = map (fun a => f a a) l.
Proof. induction l as [|a l IH]; simpl; congruence. Qed.

Lemma map2_ext_in {A B C : Type} (f g : A -> B -> C) (l1 : list A) (l2 : list B) :
  (forall a b, In a l1 -> In b l2 -> f a b = g a b) ->
  map2 f l1 l2 = map2 g l1 l2.
Proof.
  revert l2. induction l1 as [|a l1 IH]; intros [|b l2] H; simpl; auto.
  f_equal.
  - apply H; left; reflexivity.
  - apply IH. intros; apply H; right; assumption.
Qed.

Lemma map2_const_r {A B C : Type} (f : A -> B -> C) (b : B) (l : list A) (n : nat) :
  length l = n -> map2 f l (repeat b n) = map (fun a => f a b) l.
Proof.
  revert n. induction l as [|a l IH]; intros [|n] H; simpl in *; try discriminate; auto.
  f_equal. apply IH. lia.
Qed.

Lemma map2_firstn {A B C : Type} (f : A -> B -> C) (n : nat) (l1 : list A) (l2 : list B) :
  firstn n (map2 f l1 l2) = map2 f (firstn n l1) (firstn n l2).
Proof.
  revert l1 l2. induction n as [|n IH]; intros [|a l1] [|b l2]; simpl; auto.
  f_equal. apply IH.
Qed.

Lemma Forall_nth_error {A : Type} (P : A -> Prop) (l : list A) (i : nat) (a : A) :
  Forall P l -> nth_error l i = Some a -> P a.
Proof.
  intros HF Hi. rewrite Forall_forall in HF. apply HF.
  eapply nth_error_In; eauto.
Qed.

Lemma tabulate_length {A : Type} (n : nat) (f : nat -> A) : length (tabulate n f) = n.
Proof. unfold tabulate. rewrite length_map, length_seq. reflexivity. Qed.

Lemma mapi_length {A B : Type} (f : nat -> A -> B) (l : list A) : length (mapi f l) = length l.
Proof. unfold mapi. rewrite map2_length, length_seq. lia. Qed.

Lemma map2_seq_nth_error {A B : Type} (f : nat -> A -> B) (l : list A) (s i : nat) :
  nth_error (map2 f (seq s (length l)) l) i = option_map (f (s + i)) (nth_error l i).
Proof.
  revert s i. induction l as [|a l IH]; intros s i; simpl.
  - destruct i; reflexivity.
  - destruct i as [|i]; simpl.
    + rewrite Nat.add_0_r. reflexivity.
    + rewrite IH. f_equal. f_equal. lia.
Qed.

Lemma mapi_nth_error {A B : Type} (f : nat -> A -> B) (l : list A) (i : nat) :
  nth_error (mapi f l) i = option_map (f i) (nth_error l i).
Proof. unfold mapi. apply (map2_seq_nth_error f l 0 i). Qed.

Lemma nth_error_ext {A : Type} (l1 l2 : list A) :
  (forall i, nth_error l1 i = nth_error l2 i) -> l1 = l2.
Proof.
  revert l2. induction l1 as [|a l1 IH]; intros [|b l2] H.
  - reflexivity.
  - specialize (H 0). discriminate.
  - specialize (H 0). discriminate.
  - pose proof (H 0) as H0. simpl in H0. inversion H0; subst. f_equal.
    apply IH. intros i. exact (H (S i)).
Qed.

Lemma nth_error_tabulate {A : Type} (n : nat) (f : nat -> A) (i : nat) :
  nth_error (tabulate n f) i = if (i <? n)%nat then Some (f i) else None.
Proof.
  unfold tabulate. destruct (Nat.ltb_spec i n) as [Hlt|Hge].
  - rewrite nth_error_map, nth_error_seq.
    destruct (Nat.ltb_spec i n); [reflexivity | lia].
  - apply nth_error_None. rewrite length_map, length_seq. assumption.
Qed.

Lemma nth_error_repeat' {A : Type} (a : A) (n i : nat) :
  nth_error (repeat a n) i = if (i <? n)%nat then Some a else None.
Proof.
  destruct (Nat.ltb_spec i n) as [Hlt|Hge].
  - apply nth_error_repeat. assumption.
  - apply nth_error_None. rewrite repeat_length. assumption.
Qed.

Lemma map2_nth_error {A B C : Type} (f : A -> B -> C) (l1 : list A) (l2 : list B) (i : nat) :
  nth_error (map2 f l1 l2) i =
  match nth_error l1 i, nth_error l2 i with
  | Some a, Some b => Some (f a b)
  | _, _ => None
  end.
Proof.
  revert l2 i. induction l1 as [|a l1 IH]; intros [|b l2] [|i]; simpl; auto.
  - destruct (nth_error l1 i); reflexivity.
Qed.

Lemma map2_tabulate_r {A B C : Type} (g : A -> B -> C) (f : nat -> B) (l : list A) (n : nat) :
  length l = n -> map2 g l (tabulate n f) = mapi (fun i a => g a (f i)) l.
Proof.
  intros Hlen. apply nth_error_ext. intros i.
  rewrite map2_nth_error, mapi_nth_error, nth_error_tabulate.
  destruct (nth_error l i) as [a|] eqn:Hi; simpl; [|reflexivity].
  assert (i < n) by (rewrite <- Hlen; apply nth_error_Some; congruence).
  destruct (Nat.ltb_spec i n); [reflexivity | lia].
Qed.

Lemma firstn_tabulate {A : Type} (f : nat -> A) (n k : nat) :
  k <= n -> firstn k (tabulate n f) = tabulate k f.
Proof.
  intros Hk. apply nth_error_ext. intros i.
  rewrite nth_error_firstn, !nth_error_tabulate.
  destruct (Nat.ltb_spec i k), (Nat.ltb_spec i n); try reflexivity; lia.
Qed.

Lemma map_tabulate {A B : Type} (g : A -> B) (f : nat -> A) (n : nat) :
  map g (tabulate n f) = tabulate n (fun i => g (f i)).
Proof. unfold tabulate. rewrite map_map. reflexivity. Qed.

Lemma tabulate_ext {A : Type} (f g : nat -> A) (n : nat) :
  (forall i, i < n -> f i = g i) -> tabulate n f = tabulate n g.
Proof.
  intros H. unfold tabulate. apply map_ext_in. intros i Hi.
  apply in_seq in Hi. apply H. lia.
Qed.

Lemma zipM_pure {A B C : Type} (f : A -> B -> option C) (g : A -> B -> C)
      (l1 : list A) (l2 : list B) :
  length l1 = length l2 ->
  (forall i a b, nth_error l1 i = Some a -> nth_error l2 i = Some b -> f a b = Some (g a b)) ->
  zipM f l1 l2 = Some (map2 g l1 l2).
Proof.
  revert l2. induction l1 as [|a l1 IH]; intros [|b l2] Hlen H; simpl in *; try discriminate.
  - reflexivity.
  - rewrite (H 0 a b eq_refl eq_refl). simpl.
    rewrite IH; [reflexivity | lia |].
    intros i a' b' Ha Hb. apply (H (S i)); assumption.
Qed.

Lemma zipM_length {A B C : Type} (f : A -> B -> option C) (l1 : list A) (l2 : list B) (r : list C) :
  zipM f l1 l2 = Some r -> length l1 = length l2 /\ length r = length l1.
Proof.
  revert l2 r. induction l1 as [|a l1 IH]; intros [|b l2] r H; simpl in *; try discriminate.
  - inversion H. auto.
  - inv_bind H. inv_bind H. inversion H; subst. apply IH in Ha0. simpl. lia.
Qed.

(** ** Sums and softmax *)

Lemma Rsum_app (l1 l2 : vec) : Rsum (l1 ++ l2) = (Rsum l1 + Rsum l2)%R.
Proof.
  unfold Rsum. induction l1 as [|a l1 IH]; simpl.
  - lra.
  - rewrite IH. lra.
Qed.

Lemma Rsum_repeat_0 (n : nat) : Rsum (repeat 0%R n) = 0%R.
Proof. unfold Rsum. induction n as [|n IH]; simpl; [reflexivity | rewrite IH; lra]. Qed.

Lemma Rsum_nonneg (l : vec) : Forall (fun a => (0 <= a)%R) l -> (0 <= Rsum l)%R.
Proof.
  unfold Rsum. induction 1 as [|a l Ha _ IH]; simpl; lra.
Qed.


Lemma Rsum_map_div (l : vec) (s : R) : Rsum (map (fun e => (e / s)%R) l) = (Rsum l / s)%R.
Proof.
  unfold Rsum. induction l as [|a l IH]; simpl.
  - unfold Rdiv. lra.
  - rewrite IH. unfold Rdiv. lra.
Qed.


Lemma softmax_length (row : list score) : length (softmax row) = length row.
Proof. unfold softmax. rewrite !length_map. reflexivity. Qed.




Lemma softmax_masked_tail (p : list score) (k : nat) :
  softmax (p ++ repeat NegInf k) = softmax p ++ repeat 0%R k.
Proof.
  unfold softmax. rewrite !map_app, map_repeat. simpl.
  rewrite Rsum_app, Rsum_repeat_0, Rplus_0_r, map_repeat. f_equal. f_equal.
  unfold Rdiv. lra.
Qed.

(** ** Linear layers *)

Lemma Linear_apply_length (i o : nat) (l : Linear) (x : vec) :
  wf_Linear i o l -> length (Linear_apply l x) = o.
Proof.
  intros [_ [_ [[Hw _] Hb]]]. unfold Linear_apply.
  destruct (bias l) as [b|].
  - unfold vadd. rewrite map2_length, length_map, Hw. unfold shape1 in Hb. lia.
  - rewrite length_map. exact Hw.
Qed.

Lemma Linear_vec_ok (i o : nat) (l : Linear) (x : vec) :
  wf_Linear i o l -> length x = i -> Linear_vec l x = Some (Linear_apply l x).
Proof.
  intros [Hi _] Hx. unfold Linear_vec. rewrite Hx, Hi, Nat.eqb_refl. reflexivity.
Qed.

Lemma Linear_vec_width (l : Linear) (x : vec) :
  length x <> in_features l -> Linear_vec l x = None.
Proof.
  intros H. unfold Linear_vec. destruct (Nat.eqb_spec (length x) (in_features l)); congruence.
Qed.

Lemma Linear_mat_ok (i o n : nat) (l : Linear) (x : mat) :
  wf_Linear i o l -> shape2 n i x ->
  Linear_mat l x = Some (map (Linear_apply l) x) /\ shape2 n o (map (Linear_apply l) x).
Proof.
  intros Hwf [Hn Hrows]. split.
  - apply mapM_pure. intros a Ha. rewrite Forall_forall in Hrows.
    apply (Linear_vec_ok _ _ _ _ Hwf). apply Hrows. assumption.
  - split; [rewrite length_map; assumption|].
    apply Forall_forall. intros y Hy. apply in_map_iff in Hy. destruct Hy as [a [<- _]].
    apply (Linear_apply_length _ _ _ a Hwf).
Qed.

Lemma Linear_forward_ok (i o b n : nat) (l : Linear) (x : tensor3) :
  wf_Linear i o l -> shape3 b n i x ->
  Linear_forward l x = Some (map (map (Linear_apply l)) x) /\
  shape3 b n o (map (map (Linear_apply l)) x).
Proof.
  intros Hwf [Hb Hmats]. split.
  - apply mapM_pure. intros a Ha. rewrite Forall_forall in Hmats.
    apply (Linear_mat_ok _ _ _ _ _ Hwf (Hmats a Ha)).
  - split; [rewrite length_map; assumption|].
    apply Forall_forall. intros y Hy. apply in_map_iff in Hy. destruct Hy as [a [<- Ha]].
    rewrite Forall_forall in Hmats. apply (Linear_mat_ok _ _ _ _ _ Hwf (Hmats a Ha)).
Qed.

Lemma Linear_init_wf (i o : nat) (wb : bool) (init : nat -> nat -> R) :
  wf_Linear i o (Linear_init i o wb init).
Proof.
  unfold wf_Linear, Linear_init; simpl. repeat split.
  - apply tabulate_length.
  - apply Forall_forall. intros r Hr. unfold tabulate in Hr. apply in_map_iff in Hr.
    destruct Hr as [k [<- _]]. apply tabulate_length.
  - destruct wb; [apply tabulate_length | exact I].
Qed.

(** ** The causal mask *)

Lemma tril_ones (r c : nat) :
  torch_tril (torch_ones r c) =
  tabulate r (fun i => tabulate c (fun j => if (j <=? i)%nat then 1%R else 0%R)).
Proof.
  unfold torch_tril, torch_ones. apply nth_error_ext. intros i.
  rewrite mapi_nth_error, nth_error_repeat', nth_error_tabulate.
  destruct (i <? r)%nat; simpl; [|reflexivity]. f_equal.
  apply nth_error_ext. intros j.
  rewrite mapi_nth_error, nth_error_repeat', nth_error_tabulate.
  destruct (j <? c)%nat; reflexivity.
Qed.

(** The buffer sliced to [T] rows and columns and compared with zero is
    the strictly upper triangular T x T mask. *)
Lemma sliced_mask (bs T : nat) :
  T <= bs ->
  eq_zero (slice2 T T (torch_tril (torch_ones bs bs))) = causal_mask T.
Proof.
  intros HT. rewrite tril_ones. unfold slice2, eq_zero, causal_mask.
  rewrite firstn_tabulate by assumption. rewrite !map_tabulate.
  apply tabulate_ext. intros i Hi.
  rewrite firstn_tabulate by assumption. rewrite map_tabulate.
  apply tabulate_ext. intros j Hj.
  destruct (Nat.leb_spec j i), (Nat.ltb_spec i j); try lia;
    destruct (Req_dec_T _ _); try reflexivity; lra.
Qed.

Lemma mapi_ext {A B : Type} (f g : nat -> A -> B) (l : list A) :
  (forall i a, nth_error l i = Some a -> f i a = g i a) -> mapi f l = mapi g l.
Proof.
  intros H. apply nth_error_ext. intros i. rewrite !mapi_nth_error.
  destruct (nth_error l i) as [a|] eqn:Hi; simpl; [|reflexivity].
  f_equal. apply H. assumption.
Qed.

Lemma mapi_map {A A' B : Type} (f : nat -> A' -> B) (g : A -> A') (l : list A) :
  mapi f (map g l) = mapi (fun i a => f i (g a)) l.
Proof.
  apply nth_error_ext. intros i. rewrite !mapi_nth_error, nth_error_map.
  destruct (nth_error l i); reflexivity.
Qed.

Lemma map_mapi {A B C : Type} (g : B -> C) (f : nat -> A -> B) (l : list A) :
  map g (mapi f l) = mapi (fun i a => g (f i a)) l.
Proof.
  apply nth_error_ext. intros i. rewrite nth_error_map, !mapi_nth_error.
  destruct (nth_error l i); reflexivity.
Qed.

Lemma expand_same {A : Type} (n : nat) (l : list A) : length l = n -> expand n l = Some l.
Proof. intros H. unfold expand. rewrite H, Nat.eqb_refl. reflexivity. Qed.

(** Filling a (T, T) matrix through the causal mask. *)
Lemma masked_fill_causal (T : nat) (wei : mat) :
  shape2 T T wei ->
  masked_fill wei (causal_mask T) =
  Some (mapi (fun i w => mapi (fun j a => if (i <? j)%nat then NegInf else Fin a) w) wei).
Proof.
  intros [Hlen Hrows]. unfold masked_fill.
  rewrite expand_same by (unfold causal_mask; rewrite tabulate_length; auto). simpl.
  rewrite zipM_pure with
    (g := fun w m => map2 (fun a (b : bool) => if b then NegInf else Fin a) w m).
  - f_equal. unfold causal_mask. rewrite map2_tabulate_r by assumption.
    apply mapi_ext. intros i w Hw.
    apply map2_tabulate_r. apply (Forall_nth_error _ _ _ _ Hrows Hw).
  - unfold causal_mask. rewrite tabulate_length. assumption.
  - intros i w m Hw Hm. unfold causal_mask in Hm. rewrite nth_error_tabulate in Hm.
    destruct (i <? T)%nat; [|discriminate]. inversion Hm; subst.
    rewrite expand_same; [reflexivity|].
    rewrite tabulate_length. symmetry. apply (Forall_nth_error _ _ _ _ Hrows Hw).
Qed.

(** Row [i] after masking: the scores up to position [i], then minus
    infinity. *)
Lemma masked_row_split (i : nat) (w : vec) :
  mapi (fun j a => if (i <? j)%nat then NegInf else Fin a) w =
  map Fin (firstn (S i) w) ++ repeat NegInf (length w - S i).
Proof.
  apply nth_error_ext. intros j.
  rewrite mapi_nth_error, nth_error_app, length_map, length_firstn.
  destruct (Nat.ltb_spec j (Nat.min (S i) (length w))) as [Hlt|Hge].
  - rewrite nth_error_map, nth_error_firstn.
    destruct (Nat.ltb_spec j (S i)); [|lia].
    destruct (nth_error w j); simpl; [|reflexivity].
    destruct (Nat.ltb_spec i j); [lia | reflexivity].
  - rewrite nth_error_repeat'.
    destruct (nth_error w j) as [a|] eqn:Hj; cbn [option_map].
    + assert (j < length w) by (apply nth_error_Some; congruence).
      destruct (Nat.ltb_spec i j); [|lia].
      destruct (Nat.ltb_spec (j - Nat.min (S i) (length w)) (length w - S i)); [reflexivity | lia].
    + apply nth_error_None in Hj.
      destruct (Nat.ltb_spec (j - Nat.min (S i) (length w)) (length w - S i)); [lia | reflexivity].
Qed.

(** ** Weighted combinations of rows *)

Lemma vadd_zero_l (n : nat) (v : vec) : length v = n -> vadd (repeat 0%R n) v = v.
Proof.
  revert n. induction v as [|a v IH]; intros [|n] H; simpl in *; try discriminate; auto.
  unfold vadd in *. simpl. rewrite IH by lia. f_equal. lra.
Qed.

Lemma vscale_zero (n : nat) (v : vec) : length v = n -> vscale 0 v = repeat 0%R n.
Proof.
  revert n. induction v as [|a v IH]; intros [|n] H; simpl in *; try discriminate; auto.
  f_equal; [lra|]. apply IH. lia.
Qed.

Lemma vcomb_length (p : nat) (w : vec) (b : mat) :
  Forall (shape1 p) b -> length (vcomb p w b) = p.
Proof.
  intros Hb. unfold vcomb. revert w. induction Hb as [|r b Hr Hb IH]; intros [|a w]; simpl;
    try apply repeat_length.
  unfold vadd at 1. rewrite map2_length. unfold vscale at 1. rewrite length_map.
  rewrite IH. unfold shape1 in Hr. lia.
Qed.

Lemma vcomb_zero_weights (p k : nat) (b : mat) :
  Forall (shape1 p) b -> vcomb p (repeat 0%R k) b = repeat 0%R p.
Proof.
  intros Hb. unfold vcomb. revert k. induction Hb as [|r b Hr Hb IH]; intros [|k]; simpl; auto.
  rewrite IH. rewrite (vscale_zero p) by assumption.
  apply vadd_zero_l. apply repeat_length.
Qed.

(** Weights that vanish beyond a prefix only combine the rows of that
    prefix. *)
Lemma vcomb_zero_tail (p k : nat) (w : vec) (b : mat) :
  Forall (shape1 p) b ->
  vcomb p (w ++ repeat 0%R k) b = vcomb p w (firstn (length w) b).
Proof.
  intros Hb. revert b Hb. induction w as [|a w IH]; intros b Hb.
  - simpl. apply vcomb_zero_weights. assumption.
  - destruct b as [|r b]; simpl.
    + reflexivity.
    + inversion Hb; subst. unfold vcomb in *. simpl. f_equal. apply IH. assumption.
Qed.

(** ** One attention head *)

Lemma pow_neg_half_ok (n : nat) : 0 < n -> pow_neg_half n = Some (/ sqrt (INR n))%R.
Proof.
  intros H. unfold pow_neg_half. destruct (Nat.eqb_spec n 0); [lia | reflexivity].
Qed.

Lemma mapi_shape2 {A : Type} (T m : nat) (f : nat -> A -> vec) (l : list A) :
  length l = T ->
  (forall i a, nth_error l i = Some a -> length (f i a) = m) ->
  shape2 T m (mapi f l).
Proof.
  intros Hlen H. split; [rewrite mapi_length; assumption|].
  apply Forall_forall. intros r Hr. apply In_nth_error in Hr. destruct Hr as [i Hi].
  rewrite mapi_nth_error in Hi.
  destruct (nth_error l i) as [a|] eqn:Ha; [|discriminate].
  inversion Hi; subst. apply (H i a Ha).
Qed.

Section HeadFacts.

Variable cfg : Config.
Variable head_size : nat.
Variable h : Head.
Hypothesis Hwf : wf_Head cfg head_size h.
Hypothesis Hhs : 0 < head_size.

Lemma Head_weights_ok (T : nat) (x : mat) :
  shape2 T (n_embd cfg) x -> T <= block_size cfg ->
  Head_weights h x = Some (mapi (weights_row h T x) x).
Proof.
  intros Hx HT. destruct Hwf as [Hk [Hq [_ Htril]]].
  pose proof Hx as [Hlen _].
  destruct (Linear_mat_ok _ _ _ _ _ Hk Hx) as [Ek Sk].
  destruct (Linear_mat_ok _ _ _ _ _ Hq Hx) as [Eq Sq].
  unfold Head_weights. rewrite Ek, Eq. cbn [bind].
  assert (Ho : out_features (key h) = head_size) by (destruct Hk as [_ [Ho _]]; exact Ho).
  rewrite pow_neg_half_ok by (rewrite Ho; assumption). cbn [bind].
  rewrite Htril, Hlen, sliced_mask by assumption.
  rewrite masked_fill_causal.
  - cbn [bind]. f_equal. rewrite map_mapi, !mapi_map.
    apply mapi_ext. intros i xi _. unfold weights_row.
    rewrite masked_row_split, softmax_masked_tail.
    rewrite !length_map, Hlen. f_equal. f_equal.
    rewrite !map_map, firstn_map, map_map. reflexivity.
  - split; [rewrite !length_map; assumption|].
    apply Forall_forall. intros w Hw. apply in_map_iff in Hw. destruct Hw as [qi [<- _]].
    unfold shape1. rewrite !length_map. assumption.
Qed.

(** The head on one batch element: position [i] of the output is
    [head_row] of the input at [i] and of the input prefix ending at
    [i]. *)
Lemma Head_mat_ok (T : nat) (x : mat) :
  shape2 T (n_embd cfg) x -> T <= block_size cfg ->
  Head_mat h x = Some (mapi (fun i xi => head_row h xi (firstn (S i) x)) x) /\
  shape2 T head_size (mapi (fun i xi => head_row h xi (firstn (S i) x)) x).
Proof.
  intros Hx HT. pose proof Hx as [Hlen _].
  destruct Hwf as [_ [_ [Hv _]]].
  destruct (Linear_mat_ok _ _ _ _ _ Hv Hx) as [Ev [_ Sv]].
  assert (Ho : out_features (value h) = head_size) by (destruct Hv as [_ [Ho _]]; exact Ho).
  split.
  - unfold Head_mat. rewrite Head_weights_ok with (T := T) by assumption.
    cbn [bind]. rewrite Ev. cbn [bind]. f_equal.
    unfold matmul. rewrite map_mapi. apply mapi_ext. intros i xi Hi.
    unfold weights_row, head_row. rewrite vcomb_zero_tail by (rewrite Ho; exact Sv).
    f_equal. rewrite softmax_length, length_map, firstn_map.
    f_equal. rewrite length_firstn.
    assert (i < length x) by (apply nth_error_Some; congruence).
    f_equal. lia.
  - apply mapi_shape2; [assumption|]. intros i xi _. unfold head_row.
    rewrite Ho. apply vcomb_length.
    apply Forall_forall. intros r Hr. apply in_map_iff in Hr. destruct Hr as [a [<- _]].
    apply (Linear_apply_length _ _ _ a Hv).
Qed.

End HeadFacts.

Lemma mapi_nth {A B : Type} (f : nat -> A -> B) (l : list A) (i : nat) (d : B) :
  nth i (mapi f l) d = match nth_error l i with Some a => f i a | None => d end.
Proof.
  destruct (nth_error l i) as [a|] eqn:Hi.
  - apply nth_error_nth. rewrite mapi_nth_error, Hi. reflexivity.
  - apply nth_error_nth_None. rewrite mapi_nth_error, Hi. reflexivity.
Qed.

Lemma firstn_agree {A : Type} (d : A) (t : nat) (l1 l2 : list A) :
  length l1 = length l2 ->
  (forall s, s <= t -> nth s l1 d = nth s l2 d) ->
  firstn (S t) l1 = firstn (S t) l2.
Proof.
  intros Hlen H. apply nth_error_ext. intros s. rewrite !nth_error_firstn.
  destruct (Nat.ltb_spec s (S t)) as [Hs|Hs]; [|reflexivity].
  destruct (Nat.lt_ge_cases s (length l1)) as [Hl|Hl].
  - rewrite (nth_error_nth' l1 d Hl), (nth_error_nth' l2 d) by lia.
    f_equal. apply H. lia.
  - assert (E1 : nth_error l1 s = None) by (apply nth_error_None; assumption).
    assert (E2 : nth_error l2 s = None) by (apply nth_error_None; lia).
    congruence.
Qed.

Lemma nth_map_nil {A B : Type} (f : list A -> list B) (l : list (list A)) (b : nat) :
  f [] = [] -> nth b (map f l) [] = f (nth b l []).
Proof.
  intros Hf. rewrite <- Hf at 1. apply map_nth.
Qed.

Lemma shape3_nth (B T D : nat) (x : tensor3) (b : nat) :
  shape3 B T D x -> b < B -> shape2 T D (nth b x []).
Proof.
  intros [Hlen HF] Hb. rewrite Forall_forall in HF. apply HF. apply nth_In. lia.
Qed.

(** The head on a batch: the weights, the values and the output. *)
Lemma Head_forward_ok (cfg : Config) (head_size : nat) (h : Head) (B T : nat) (x : tensor3) :
  wf_Head cfg head_size h -> 0 < head_size ->
  shape3 B T (n_embd cfg) x -> T <= block_size cfg ->
  mapM (Head_weights h) x = Some (map (fun xb => mapi (weights_row h T xb) xb) x) /\
  Head_forward h x = Some (map (fun xb => mapi (fun i xi => head_row h xi (firstn (S i) xb)) xb) x) /\
  shape3 B T head_size (map (fun xb => mapi (fun i xi => head_row h xi (firstn (S i) xb)) xb) x).
Proof.
  intros Hwf Hhs [HB Hx] HT. rewrite Forall_forall in Hx. repeat split.
  - apply mapM_pure. intros xb Hxb.
    apply (Head_weights_ok cfg head_size h Hwf Hhs T xb (Hx xb Hxb) HT).
  - apply mapM_pure. intros xb Hxb.
    apply (Head_mat_ok cfg head_size h Hwf Hhs T xb (Hx xb Hxb) HT).
  - rewrite length_map. assumption.
  - apply Forall_forall. intros o Ho. apply in_map_iff in Ho. destruct Ho as [xb [<- Hxb]].
    apply (Head_mat_ok cfg head_size h Hwf Hhs T xb (Hx xb Hxb) HT).
Qed.

(** ** Shapes through the layers *)

Lemma LayerNorm_vec_ok (n : nat) (ln : LayerNorm) (x : vec) :
  wf_LayerNorm n ln -> length x = n ->
  LayerNorm_vec ln x = Some (LayerNorm_apply ln x) /\ length (LayerNorm_apply ln x) = n.
Proof.
  intros [Hn [Hw Hb]] Hx. unfold shape1 in *. split.
  - unfold LayerNorm_vec. rewrite Hx, Hn, Nat.eqb_refl. reflexivity.
  - unfold LayerNorm_apply, vadd. rewrite !map2_length, length_map. lia.
Qed.

Lemma LayerNorm_forward_ok (n B T : nat) (ln : LayerNorm) (x : tensor3) :
  wf_LayerNorm n ln -> shape3 B T n x ->
  LayerNorm_forward ln x = Some (map (map (LayerNorm_apply ln)) x) /\
  shape3 B T n (map (map (LayerNorm_apply ln)) x).
Proof.
  intros Hwf [HB Hx]. rewrite Forall_forall in Hx. split.
  - apply mapM_pure. intros xb Hxb. apply mapM_pure. intros r Hr.
    destruct (Hx xb Hxb) as [_ Hrows]. rewrite Forall_forall in Hrows.
    apply (LayerNorm_vec_ok n ln r Hwf (Hrows r Hr)).
  - split; [rewrite length_map; assumption|].
    apply Forall_forall. intros y Hy. apply in_map_iff in Hy. destruct Hy as [xb [<- Hxb]].
    destruct (Hx xb Hxb) as [HT Hrows]. rewrite Forall_forall in Hrows.
    split; [rewrite length_map; assumption|].
    apply Forall_forall. intros z Hz. apply in_map_iff in Hz. destruct Hz as [r [<- Hr]].
    apply (LayerNorm_vec_ok n ln r Hwf (Hrows r Hr)).
Qed.

Lemma map2_Forall {A B C : Type} (P : A -> Prop) (Q : B -> Prop) (R' : C -> Prop)
      (f : A -> B -> C) (l1 : list A) (l2 : list B) :
  (forall a b, P a -> Q b -> R' (f a b)) ->
  Forall P l1 -> Forall Q l2 -> Forall R' (map2 f l1 l2).
Proof.
  intros H H1. revert l2. induction H1 as [|a l1 Ha H1 IH]; intros l2 H2.
  - constructor.
  - destruct H2 as [|b l2 Hb H2]; simpl; constructor; auto.
Qed.

Lemma vadd_shape (n : nat) (u v : vec) : shape1 n u -> shape1 n v -> shape1 n (vadd u v).
Proof. unfold shape1, vadd. intros. rewrite map2_length. lia. Qed.

Lemma madd_shape (T n : nat) (a b : mat) : shape2 T n a -> shape2 T n b -> shape2 T n (madd a b).
Proof.
  intros [Ha Hra] [Hb Hrb]. split.
  - unfold madd. rewrite map2_length. lia.
  - apply (map2_Forall (shape1 n) (shape1 n)); auto using vadd_shape.
Qed.

Lemma tadd_shape (B T n : nat) (a b : tensor3) :
  shape3 B T n a -> shape3 B T n b -> shape3 B T n (tadd a b).
Proof.
  intros [Ha Hra] [Hb Hrb]. split.
  - unfold tadd. rewrite map2_length. lia.
  - apply (map2_Forall (shape2 T n) (shape2 T n)); auto using madd_shape.
Qed.

Lemma relu_shape (B T n : nat) (x : tensor3) : shape3 B T n x -> shape3 B T n (relu x).
Proof.
  intros [HB Hx]. rewrite Forall_forall in Hx. unfold relu. split.
  - rewrite length_map. assumption.
  - apply Forall_forall. intros y Hy. apply in_map_iff in Hy. destruct Hy as [xb [<- Hxb]].
    destruct (Hx xb Hxb) as [HT Hrows]. rewrite Forall_forall in Hrows.
    split; [rewrite length_map; assumption|].
    apply Forall_forall. intros z Hz. apply in_map_iff in Hz. destruct Hz as [r [<- Hr]].
    unfold shape1. rewrite length_map. apply (Hrows r Hr).
Qed.

Lemma FeedForward_forward_ok (cfg : Config) (f : FeedForward) (B T : nat) (x : tensor3) :
  wf_FeedForward cfg f -> shape3 B T (n_embd cfg) x ->
  exists y, FeedForward_forward f x = Some y /\ shape3 B T (n_embd cfg) y.
Proof.
  intros [H0 H2] Hx. unfold FeedForward_forward.
  destruct (Linear_forward_ok _ _ _ _ _ _ H0 Hx) as [E0 S0]. rewrite E0. cbn [bind].
  apply relu_shape in S0.
  destruct (Linear_forward_ok _ _ _ _ _ _ H2 S0) as [E2 S2]. rewrite E2.
  eexists. split; [reflexivity | exact S2].
Qed.

(** ** Concatenating the heads *)

Lemma map2_nth {A B C : Type} (f : A -> B -> C) (l1 : list A) (l2 : list B)
      (i : nat) (d1 : A) (d2 : B) (d : C) :
  i < length l1 -> i < length l2 ->
  nth i (map2 f l1 l2) d = f (nth i l1 d1) (nth i l2 d2).
Proof.
  revert l2 i. induction l1 as [|a l1 IH]; intros [|b l2] [|i] H1 H2; simpl in *; try lia.
  - reflexivity.
  - apply IH; lia.
Qed.

Lemma cat_mat_ok (T p q : nat) (a b : mat) :
  shape2 T p a -> shape2 T q b ->
  cat_mat a b = Some (map2 (@app R) a b) /\ shape2 T (p + q) (map2 (@app R) a b).
Proof.
  intros [Ha Hra] [Hb Hrb]. split.
  - unfold cat_mat. apply zipM_pure; [lia | reflexivity].
  - split; [rewrite map2_length; lia|].
    apply (map2_Forall (shape1 p) (shape1 q)); auto.
    unfold shape1. intros. rewrite length_app. lia.
Qed.

Lemma cat_tensor3_ok (B T p q : nat) (a b : tensor3) :
  shape3 B T p a -> shape3 B T q b ->
  cat_tensor3 a b = Some (map2 (map2 (@app R)) a b) /\
  shape3 B T (p + q) (map2 (map2 (@app R)) a b).
Proof.
  intros [Ha Hra] [Hb Hrb]. split.
  - unfold cat_tensor3. apply zipM_pure; [lia|].
    intros i x y Hx Hy.
    apply (cat_mat_ok T p q x y (Forall_nth_error _ _ _ _ Hra Hx) (Forall_nth_error _ _ _ _ Hrb Hy)).
  - split; [rewrite map2_length; lia|].
    apply (map2_Forall (shape2 T p) (shape2 T q)); auto.
    intros x y Hx Hy. apply (cat_mat_ok T p q x y Hx Hy).
Qed.

(** Concatenating a non-empty list of tensors of shape (B, T, p): the
    widths add up, and every position holds the positions of the tensors
    one after the other, in the order of the list. *)
Lemma cat_last_ok (B T p : nat) (ts : list tensor3) :
  ts <> [] -> Forall (shape3 B T p) ts ->
  exists c, cat_last ts = Some c /\ shape3 B T (length ts * p) c /\
    forall b t, b < B -> t < T ->
      nth t (nth b c []) [] = concat (map (fun o => nth t (nth b o []) []) ts).
Proof.
  intros Hne HF. induction HF as [|o ts Ho HF IH]; [congruence|].
  destruct ts as [|o' ts'].
  - exists o. simpl. rewrite Nat.add_0_r. repeat split; try apply Ho.
    intros b t _ _. rewrite app_nil_r. reflexivity.
  - destruct IH as [c [Ec [Sc Hc]]]; [discriminate|].
    destruct (cat_tensor3_ok B T p _ o c Ho Sc) as [E S].
    exists (map2 (map2 (@app R)) o c). split; [|split].
    + change (cat_last (o :: o' :: ts')) with (bind (cat_last (o' :: ts')) (fun r => cat_tensor3 o r)).
      rewrite Ec. exact E.
    + exact S.
    + intros b t Hb Ht.
      destruct Ho as [HoB Hor], Sc as [HcB Hcr].
      rewrite (map2_nth (map2 (@app R)) o c b [] [] []) by lia.
      assert (Hob : shape2 T p (nth b o [])).
      { rewrite Forall_forall in Hor. apply Hor. apply nth_In. lia. }
      assert (Hcb : shape2 T (length (o' :: ts') * p) (nth b c [])).
      { rewrite Forall_forall in Hcr. apply Hcr. apply nth_In. lia. }
      destruct Hob as [HobT _], Hcb as [HcbT _].
      rewrite (map2_nth (@app R) _ _ t [] [] []) by lia.
      rewrite (Hc b t Hb Ht). reflexivity.
Qed.

(** ** Multi-head attention *)

Lemma MultiHeadAttention_heads_ok
      (cfg : Config) (num_heads head_size : nat) (m : MultiHeadAttention)
      (B T : nat) (x : tensor3) :
  wf_MultiHeadAttention cfg num_heads head_size m ->
  0 < num_heads -> 0 < head_size ->
  shape3 B T (n_embd cfg) x -> T <= block_size cfg ->
  exists outs c,
    mapM (fun h => Head_forward h x) (heads m) = Some outs /\
    length outs = num_heads /\
    Forall (shape3 B T head_size) outs /\
    cat_last outs = Some c /\
    shape3 B T (num_heads * head_size) c /\
    (forall b t, b < B -> t < T ->
       nth t (nth b c []) [] = concat (map (fun o => nth t (nth b o []) []) outs)).
Proof.
  intros [Hn [Hheads Hproj]] Hnh Hhs Hx HT.
  destruct (mapM_total (fun h => Head_forward h x) (shape3 B T head_size) (heads m))
    as [outs [Eouts [Hlen Hshapes]]].
  { intros h Hh. rewrite Forall_forall in Hheads.
    destruct (Head_forward_ok cfg head_size h B T x (Hheads h Hh) Hhs Hx HT) as [_ [E S]].
    eexists. split; [exact E | exact S]. }
  assert (Hne : outs <> []) by (destruct outs; [simpl in Hlen; lia | discriminate]).
  destruct (cat_last_ok B T head_size outs Hne Hshapes) as [c [Ec [Sc Hc]]].
  rewrite Hlen, Hn in Sc.
  exists outs, c. repeat split; try assumption; try apply Sc. lia.
Qed.

Lemma MultiHeadAttention_forward_ok
      (cfg : Config) (num_heads head_size : nat) (m : MultiHeadAttention)
      (B T : nat) (x : tensor3) :
  wf_MultiHeadAttention cfg num_heads head_size m ->
  0 < num_heads -> 0 < head_size -> num_heads * head_size = n_embd cfg ->
  shape3 B T (n_embd cfg) x -> T <= block_size cfg ->
  exists outs c,
    Forall2 (fun h o => Head_forward h x = Some o) (heads m) outs /\
    Forall (shape3 B T head_size) outs /\
    cat_last outs = Some c /\
    shape3 B T (n_embd cfg) c /\
    (forall b t, b < B -> t < T ->
       nth t (nth b c []) [] = concat (map (fun o => nth t (nth b o []) []) outs)) /\
    MultiHeadAttention_forward m x = Some (map (map (Linear_apply (proj m))) c) /\
    shape3 B T (n_embd cfg) (map (map (Linear_apply (proj m))) c).
Proof.
  intros Hwf Hnh Hhs Hdiv Hx HT.
  destruct (MultiHeadAttention_heads_ok cfg num_heads head_size m B T x Hwf Hnh Hhs Hx HT)
    as [outs [c [Eouts [Hlen [Hshapes [Ec [Sc Hc]]]]]]].
  destruct Hwf as [Hn [Hheads Hproj]].
  rewrite Hdiv in Sc.
  destruct (Linear_forward_ok _ _ _ _ _ _ Hproj Sc) as [Ep Sp].
  exists outs, c. repeat split; try assumption; try apply Sc; try apply Sp.
  - apply mapM_Forall2. exact Eouts.
  - unfold MultiHeadAttention_forward. rewrite Eouts. cbn [bind]. rewrite Ec. cbn [bind].
    exact Ep.
Qed.

(** C6.  On an input of shape (B, T, D), with T <= block_size and D
    divisible by the number of heads, multi-head attention runs every head
    of width D / num_heads on the same input, concatenates their outputs
    along the last dimension in the order of the list of heads, which gives
    width D again, applies the output projection to every position, and
    returns a tensor of shape (B, T, D). *)
Theorem multi_head_attention_shape
        (cfg : Config) (num_heads : nat) (m : MultiHeadAttention)
        (B T : nat) (x : tensor3) :
  wf_MultiHeadAttention cfg num_heads (n_embd cfg / num_heads) m ->
  0 < num_heads -> 0 < n_embd cfg -> n_embd cfg mod num_heads = 0 ->
  shape3 B T (n_embd cfg) x -> T <= block_size cfg ->
  exists outs c out,
    length outs = num_heads /\
    Forall2 (fun h o => Head_forward h x = Some o) (heads m) outs /\
    Forall (shape3 B T (n_embd cfg / num_heads)) outs /\
    cat_last outs = Some c /\
    shape3 B T (n_embd cfg) c /\
    (forall b t, b < B -> t < T ->
       nth t (nth b c []) [] = concat (map (fun o => nth t (nth b o []) []) outs)) /\
    out = map (map (Linear_apply (proj m))) c /\
    MultiHeadAttention_forward m x = Some out /\
    shape3 B T (n_embd cfg) out.
Proof.
  intros Hwf Hnh HD Hmod Hx HT.
  assert (Hdiv : num_heads * (n_embd cfg / num_heads) = n_embd cfg).
  { pose proof (Nat.div_mod_eq (n_embd cfg) num_heads). lia. }
  assert (Hhs : 0 < n_embd cfg / num_heads) by nia.
  destruct (MultiHeadAttention_forward_ok cfg num_heads _ m B T x Hwf Hnh Hhs Hdiv Hx HT)
    as [outs [c [HF2 [HS [Ec [Sc [Hc [Em Sm]]]]]]]].
  exists outs, c, (map (map (Linear_apply (proj m))) c).
  repeat split; try assumption; try apply Sc; try apply Sm.
  apply Forall2_length in HF2. destruct Hwf as [Hn _]. lia.
Qed.

(** ** Constructors establish the shapes *)

Lemma Head_init_wf (cfg : Config) (head_size : nat) (init : Init) :
  wf_Head cfg head_size (Head_init cfg head_size init).
Proof.
  unfold wf_Head, Head_init; simpl. repeat split; apply Linear_init_wf.
Qed.

Lemma MultiHeadAttention_init_wf (cfg : Config) (num_heads head_size : nat) (init : Init) :
  wf_MultiHeadAttention cfg num_heads head_size
                        (MultiHeadAttention_init cfg num_heads head_size init).
Proof.
  unfold wf_MultiHeadAttention, MultiHeadAttention_init; simpl. split; [|split].
  - rewrite length_map, length_seq. reflexivity.
  - apply Forall_forall. intros h Hh. apply in_map_iff in Hh. destruct Hh as [i [<- _]].
    apply Head_init_wf.
  - apply Linear_init_wf.
Qed.

Lemma LayerNorm_init_wf (n : nat) : wf_LayerNorm n (LayerNorm_init n).
Proof.
  unfold wf_LayerNorm, LayerNorm_init, shape1; simpl. rewrite !repeat_length. auto.
Qed.

Lemma FeedForward_init_wf (cfg : Config) (init : Init) :
  wf_FeedForward cfg (FeedForward_init (n_embd cfg) init).
Proof.
  unfold wf_FeedForward, FeedForward_init; simpl. split; apply Linear_init_wf.
Qed.

Lemma Block_init_wf (cfg : Config) (n_emd n_head : nat) (init : Init) (b : Block) :
  Block_init cfg n_emd n_head init = Some b -> wf_Block cfg n_head b.
Proof.
  unfold Block_init. destruct (n_head =? 0); [discriminate|].
  intros H. inversion H; subst. unfold wf_Block; simpl. split; [|split; [|split]].
  - apply MultiHeadAttention_init_wf.
  - apply FeedForward_init_wf.
  - apply LayerNorm_init_wf.
  - apply LayerNorm_init_wf.
Qed.

(** ** The transformer block *)

Lemma Block_forward_spec (b : Block) (x y : tensor3) :
  Block_forward b x = Some y <-> Block_spec b x y.
Proof.
  unfold Block_forward, Block_spec. split.
  - intros H. inv_bind H. inv_bind H. inv_bind H. inv_bind H. inversion H; subst.
    eexists _, _, _, _. repeat split; eassumption.
  - intros [n1 [a [n2 [f [E1 [E2 [E3 [E4 ->]]]]]]]].
    rewrite E1. cbn [bind]. rewrite E2. cbn [bind]. rewrite E3. cbn [bind]. rewrite E4.
    reflexivity.
Qed.

Lemma Block_forward_ok (cfg : Config) (n_head : nat) (b : Block) (B T : nat) (x : tensor3) :
  wf_Block cfg n_head b ->
  0 < n_head -> 0 < n_embd cfg -> n_embd cfg mod n_head = 0 ->
  shape3 B T (n_embd cfg) x -> T <= block_size cfg ->
  exists n1 a n2 f,
    LayerNorm_forward (ln1 b) x = Some n1 /\
    MultiHeadAttention_forward (sa b) n1 = Some a /\
    shape3 B T (n_embd cfg) a /\
    LayerNorm_forward (ln2 b) (tadd x a) = Some n2 /\
    FeedForward_forward (ffwd b) n2 = Some f /\
    shape3 B T (n_embd cfg) f /\
    Block_forward b x = Some (tadd (tadd x a) f) /\
    shape3 B T (n_embd cfg) (tadd (tadd x a) f).
Proof.
  intros [Hsa [Hff [Hl1 Hl2]]] Hnh HD Hmod Hx HT.
  destruct (LayerNorm_forward_ok _ B T _ x Hl1 Hx) as [E1 S1].
  assert (Hdiv : n_head * (n_embd cfg / n_head) = n_embd cfg).
  { pose proof (Nat.div_mod_eq (n_embd cfg) n_head). lia. }
  assert (Hhs : 0 < n_embd cfg / n_head) by nia.
  destruct (MultiHeadAttention_forward_ok cfg n_head _ (sa b) B T _ Hsa Hnh Hhs Hdiv S1 HT)
    as [outs [c [_ [_ [_ [_ [_ [Ea Sa]]]]]]]].
  set (a := map (map (Linear_apply (proj (sa b)))) c) in *.
  pose proof (tadd_shape B T _ x a Hx Sa) as Sx1.
  destruct (LayerNorm_forward_ok _ B T _ _ Hl2 Sx1) as [E2 S2].
  destruct (FeedForward_forward_ok cfg (ffwd b) B T _ Hff S2) as [f [Ef Sf]].
  eexists _, a, _, f. repeat split; try eassumption; try apply Sa; try apply Sf.
  - apply Block_forward_spec. eexists _, a, _, f. repeat split; eassumption.
  - apply (tadd_shape B T _ _ _ Sx1 Sf).
  - apply (tadd_shape B T _ _ _ Sx1 Sf).
Qed.

(** C5.  A transformer block computes x' = x + Attention(Norm1(x)) and
    then x'' = x' + FeedForward(Norm2(x')): each normalisation is applied
    to the running activation before its sub-layer, each sub-layer's output
    has the shape of the running activation and is added to it. *)
Theorem block_is_prenorm_residual
        (cfg : Config) (n_head : nat) (b : Block) (B T : nat) (x : tensor3) :
  wf_Block cfg n_head b ->
  0 < n_head -> 0 < n_embd cfg -> n_embd cfg mod n_head = 0 ->
  shape3 B T (n_embd cfg) x -> T <= block_size cfg ->
  (forall y, Block_forward b x = Some y <-> Block_spec b x y) /\
  exists n1 a n2 f,
    LayerNorm_forward (ln1 b) x = Some n1 /\
    MultiHeadAttention_forward (sa b) n1 = Some a /\
    shape3 B T (n_embd cfg) a /\
    LayerNorm_forward (ln2 b) (tadd x a) = Some n2 /\
    FeedForward_forward (ffwd b) n2 = Some f /\
    shape3 B T (n_embd cfg) f /\
    Block_forward b x = Some (tadd (tadd x a) f) /\
    shape3 B T (n_embd cfg) (tadd (tadd x a) f).
Proof.
  intros Hwf Hnh HD Hmod Hx HT. split.
  - intros y. apply Block_forward_spec.
  - apply (Block_forward_ok cfg n_head b B T x Hwf Hnh HD Hmod Hx HT).
Qed.

(** ** A head count that does not divide the embedding width *)

Lemma mapM_None {A B : Type} (f : A -> option B) (l : list A) (a : A) :
  In a l -> f a = None -> mapM f l = None.
Proof.
  induction l as [|a0 l IH]; intros Hin Hf; simpl in *.
  - contradiction.
  - destruct Hin as [->|Hin].
    + rewrite Hf. reflexivity.
    + destruct (f a0); [|reflexivity]. simpl. rewrite (IH Hin Hf). reflexivity.
Qed.

Lemma Linear_forward_width (l : Linear) (B T p : nat) (c : tensor3) :
  shape3 B T p c -> 0 < B -> 0 < T -> p <> in_features l -> Linear_forward l c = None.
Proof.
  intros [HB Hc] HB0 HT0 Hp.
  destruct c as [|cb c']; [simpl in HB; lia|].
  inversion Hc as [|? ? [HT Hrows] _]; subst.
  destruct cb as [|r cb']; [simpl in HT0; lia|].
  inversion Hrows as [|? ? Hr _]; subst.
  apply mapM_None with (a := r :: cb'); [left; reflexivity|].
  apply mapM_None with (a := r); [left; reflexivity|].
  apply Linear_vec_width. unfold shape1 in Hr. lia.
Qed.

Lemma Head_forward_zero_width (cfg : Config) (h : Head) (B T : nat) (x : tensor3) :
  wf_Head cfg 0 h -> shape3 B T (n_embd cfg) x -> 0 < B -> Head_forward h x = None.
Proof.
  intros [Hk [Hq _]] [HB Hx] HB0.
  destruct x as [|xb x']; [simpl in HB; lia|].
  inversion Hx as [|? ? Hxb _]; subst.
  apply mapM_None with (a := xb); [left; reflexivity|].
  unfold Head_mat, Head_weights.
  destruct (Linear_mat_ok _ _ _ _ _ Hk Hxb) as [Ek _]. rewrite Ek.
  destruct (Linear_mat_ok _ _ _ _ _ Hq Hxb) as [Eq _]. rewrite Eq.
  cbn [bind]. destruct Hk as [_ [Ho _]]. rewrite Ho. reflexivity.
Qed.

Lemma MultiHeadAttention_forward_indivisible
      (cfg : Config) (num_heads : nat) (m : MultiHeadAttention) (B T : nat) (x : tensor3) :
  wf_MultiHeadAttention cfg num_heads (n_embd cfg / num_heads) m ->
  0 < num_heads -> n_embd cfg mod num_heads <> 0 ->
  shape3 B T (n_embd cfg) x -> 0 < B -> 0 < T -> T <= block_size cfg ->
  MultiHeadAttention_forward m x = None.
Proof.
  intros Hwf Hnh Hmod Hx HB0 HT0 HT. unfold MultiHeadAttention_forward.
  destruct (Nat.eq_0_gt_0_cases (n_embd cfg / num_heads)) as [Hz|Hpos].
  - destruct Hwf as [Hn [Hheads _]]. rewrite Hz in Hheads.
    destruct (heads m) as [|h hs]; [simpl in Hn; lia|].
    inversion Hheads as [|? ? Hh _]; subst.
    rewrite mapM_None with (a := h); [reflexivity | left; reflexivity |].
    apply (Head_forward_zero_width cfg h B T x Hh Hx HB0).
  - destruct (MultiHeadAttention_heads_ok cfg num_heads _ m B T x Hwf Hnh Hpos Hx HT)
      as [outs [c [Eouts [_ [_ [Ec [Sc _]]]]]]].
    rewrite Eouts. cbn [bind]. rewrite Ec. cbn [bind].
    apply (Linear_forward_width (proj m) B T _ c Sc HB0 HT0).
    destruct Hwf as [_ [_ [Hin _]]]. rewrite Hin.
    pose proof (Nat.div_mod_eq (n_embd cfg) num_heads). lia.
Qed.

(** C9 (amended).  [Block.__init__] raises only for a head count of zero.
    For any other head count the block is built, every head with the width
    n_embd // n_head, rounded down when the division is not exact; when it
    is not exact, the mismatch shows only later: the forward pass of the
    block raises on every non-empty input of shape (B, T, D) with
    T <= block_size. *)
Theorem block_init_rounds_head_size_down
        (cfg : Config) (n_emd n_head : nat) (init : Init) :
  (n_head = 0 -> Block_init cfg n_emd n_head init = None) /\
  (0 < n_head ->
   exists b, Block_init cfg n_emd n_head init = Some b /\
     wf_Block cfg n_head b /\
     length (heads (sa b)) = n_head /\
     Forall (fun h => out_features (key h) = n_embd cfg / n_head /\
                      out_features (query h) = n_embd cfg / n_head /\
                      out_features (value h) = n_embd cfg / n_head) (heads (sa b)) /\
     (n_embd cfg mod n_head <> 0 ->
      forall B T x, shape3 B T (n_embd cfg) x -> 0 < B -> 0 < T -> T <= block_size cfg ->
        Block_forward b x = None)).
Proof.
  split.
  - intros ->. reflexivity.
  - intros Hnh.
    destruct (Block_init cfg n_emd n_head init) as [b|] eqn:Eb.
    2: { unfold Block_init in Eb. destruct (Nat.eqb_spec n_head 0); [lia | discriminate]. }
    pose proof (Block_init_wf cfg n_emd n_head init b Eb) as Hwf.
    exists b. split; [reflexivity|]. split; [exact Hwf|].
    destruct Hwf as [Hsa [_ [Hl1 _]]]. split; [apply Hsa|]. split.
    + destruct Hsa as [_ [Hheads _]]. eapply Forall_impl; [|exact Hheads].
      intros h [[_ [Hk _]] [[_ [Hq _]] [[_ [Hv _]] _]]]. auto.
    + intros Hmod B T x Hx HB0 HT0 HT. unfold Block_forward.
      destruct (LayerNorm_forward_ok _ B T _ x Hl1 Hx) as [E1 S1]. rewrite E1. cbn [bind].
      rewrite (MultiHeadAttention_forward_indivisible cfg n_head (sa b) B T _ Hsa Hnh Hmod S1 HB0 HT0 HT).
      reflexivity.
Qed.

(** C9, as stated, fails: with the script's width 32 and five heads the
    division is not exact, and the constructor returns a block whose heads
    have width 6. *)
Lemma block_init_accepts_indivisible_width :
  n_embd script_config mod 5 <> 0 /\
  exists b, Block_init script_config 32 5 (const_init 0) = Some b /\
    Forall (fun h => out_features (key h) = 6) (heads (sa b)).
Proof.
  split; [discriminate|].
  eexists. split; [reflexivity|].
  simpl. repeat constructor.
Qed.

(** ** The forward pass of the language model *)

Lemma Embedding_lookup_ok (n d : nat) (e : Embedding) (i : Z) :
  wf_Embedding n d e -> (0 <= i < Z.of_nat n)%Z ->
  exists v, Embedding_lookup e i = Some v /\ shape1 d v.
Proof.
  intros [Hn [_ [Hlen Hrows]]] Hi. unfold Embedding_lookup. rewrite Hn.
  destruct (Z.leb_spec 0 i); [|lia]. destruct (Z.ltb_spec i (Z.of_nat n)); [|lia]. simpl.
  destruct (nth_error (emb_weight e) (Z.to_nat i)) as [v|] eqn:Hv.
  - exists v. split; [reflexivity|]. apply (Forall_nth_error _ _ _ _ Hrows Hv).
  - apply nth_error_None in Hv. lia.
Qed.

Lemma blocks_forward_ok (cfg : Config) (bs : list Block) (B T : nat) (x : tensor3) :
  Forall (wf_Block cfg 4) bs -> 0 < n_embd cfg -> n_embd cfg mod 4 = 0 ->
  shape3 B T (n_embd cfg) x -> T <= block_size cfg ->
  exists y, blocks_forward bs x = Some y /\ shape3 B T (n_embd cfg) y.
Proof.
  intros Hbs HD Hmod. revert x. induction Hbs as [|b bs Hb Hbs IH]; intros x Hx HT; simpl.
  - exists x. split; [reflexivity | assumption].
  - destruct (Block_forward_ok cfg 4 b B T x Hb (Nat.lt_0_succ 3) HD Hmod Hx HT)
      as [n1 [a [n2 [f [_ [_ [_ [_ [_ [_ [E S]]]]]]]]]]].
    rewrite E. cbn [bind]. apply IH; assumption.
Qed.

Lemma arange_codes (T n : nat) : T <= n -> Forall (fun i => (0 <= i < Z.of_nat n)%Z) (arange T).
Proof.
  intros H. apply Forall_forall. intros i Hi. unfold arange in Hi.
  apply in_map_iff in Hi. destruct Hi as [k [<- Hk]]. apply in_seq in Hk. lia.
Qed.

Lemma dim1_shape {A : Type} (B T : nat) (idx : list (list A)) :
  length idx = B -> Forall (fun r => length r = T) idx -> 0 < B -> dim1 idx = T.
Proof.
  intros HB HF HB0. destruct idx as [|r idx]; [simpl in HB; lia|].
  inversion HF; subst. reflexivity.
Qed.

(** The logits of a forward pass, and what [forward] returns from them. *)
Lemma forward_ok (cfg : Config) (m : BigramLanguageModel) (B T : nat) (idx : list (list Z)) :
  wf_BigramLanguageModel cfg m -> 0 < n_embd cfg -> n_embd cfg mod 4 = 0 ->
  zshape2 B T idx -> codes_in (vocab_size cfg) idx -> T <= block_size cfg ->
  exists logits, shape3 B T (vocab_size cfg) logits /\
    forall targets, forward m idx targets =
      match targets with
      | None => Some (Logits3 logits, None)
      | Some tg => loss <- cross_entropy (concat logits) (concat tg) ;;
                   Some (Logits2 (concat logits), Some loss)
      end.
Proof.
  intros [Htok [Hpos [Hblocks [Hln Hhead]]]] HD Hmod [HB Hrows] Hcodes HT.
  (* token embeddings *)
  destruct (mapM_total (mapM (Embedding_lookup (token_embedding_table m)))
                       (shape2 T (n_embd cfg)) idx) as [tok [Etok [Ltok Stok]]].
  { intros r Hr. rewrite Forall_forall in Hrows. unfold codes_in in Hcodes.
    rewrite Forall_forall in Hcodes. specialize (Hcodes r Hr).
    destruct (mapM_total (Embedding_lookup (token_embedding_table m))
                         (shape1 (n_embd cfg)) r) as [te [Ete [Lte Ste]]].
    { intros i Hi. rewrite Forall_forall in Hcodes.
      apply (Embedding_lookup_ok _ _ _ i Htok (Hcodes i Hi)). }
    exists te. split; [exact Ete|]. split; [rewrite Lte; apply Hrows; assumption | exact Ste]. }
  (* position embeddings *)
  assert (Hdim : dim1 idx <= block_size cfg).
  { destruct idx as [|r idx']; simpl; [lia|]. inversion Hrows; subst. assumption. }
  destruct (mapM_total (Embedding_lookup (position_embedding_table m))
                       (shape1 (n_embd cfg)) (arange (dim1 idx))) as [pos [Epos [Lpos Spos]]].
  { intros i Hi. pose proof (arange_codes (dim1 idx) (block_size cfg) Hdim) as HF.
    rewrite Forall_forall in HF. apply (Embedding_lookup_ok _ _ _ i Hpos (HF i Hi)). }
  assert (Sx : shape3 B T (n_embd cfg) (map (fun te => madd te pos) tok)).
  { split; [rewrite length_map; lia|].
    apply Forall_forall. intros y Hy. apply in_map_iff in Hy. destruct Hy as [te [<- Hte]].
    rewrite Forall_forall in Stok. apply madd_shape; [apply Stok; assumption|].
    split; [|exact Spos]. rewrite Lpos. unfold arange. rewrite length_map, length_seq.
    apply (dim1_shape B T idx HB Hrows).
    destruct tok; [contradiction | simpl in Ltok; lia]. }
  destruct (blocks_forward_ok cfg (blocks m) B T _ Hblocks HD Hmod Sx HT) as [y [Ey Sy]].
  destruct (LayerNorm_forward_ok _ B T _ y Hln Sy) as [Eln Sln].
  destruct (Linear_forward_ok _ _ _ _ _ _ Hhead Sln) as [Eh Sh].
  eexists. split; [exact Sh|].
  intros targets. unfold forward.
  rewrite Etok. cbn [bind]. rewrite Epos. cbn [bind]. rewrite Ey. cbn [bind].
  rewrite Eln. cbn [bind]. rewrite Eh. cbn [bind]. reflexivity.
Qed.

(** ** The loss *)

Lemma filter_all {A : Type} (f : A -> bool) (l : list A) :
  (forall a, In a l -> f a = true) -> filter f l = l.
Proof.
  induction l as [|a l IH]; intros H; simpl.
  - reflexivity.
  - rewrite (H a (or_introl eq_refl)). f_equal. apply IH. intros; apply H; right; assumption.
Qed.

Lemma map_combine {A B C : Type} (f : A -> B -> C) (l1 : list A) (l2 : list B) :
  map (fun p => f (fst p) (snd p)) (combine l1 l2) = map2 f l1 l2.
Proof.
  revert l2. induction l1 as [|a l1 IH]; intros [|b l2]; simpl; auto.
  f_equal. apply IH.
Qed.

Lemma in_combine_Forall {A B : Type} (P : A -> Prop) (Q : B -> Prop)
      (l1 : list A) (l2 : list B) (p : A * B) :
  Forall P l1 -> Forall Q l2 -> In p (combine l1 l2) -> P (fst p) /\ Q (snd p).
Proof.
  intros H1 H2 Hin. destruct p as [a b]. rewrite Forall_forall in H1, H2. split.
  - apply H1. eapply in_combine_l; eauto.
  - apply H2. eapply in_combine_r; eauto.
Qed.

Lemma nll_ok (V : nat) (logits : vec) (t : Z) :
  shape1 V logits -> (0 <= t < Z.of_nat V)%Z -> nll logits t = Some (nll_value logits t).
Proof.
  intros HV Ht. unfold nll. unfold shape1 in HV. rewrite HV.
  destruct (Z.leb_spec 0 t); [|lia]. destruct (Z.ltb_spec t (Z.of_nat V)); [|lia].
  reflexivity.
Qed.

(** On targets that are symbol codes the loss is the average over all
    the (prediction, target) pairs. *)
Lemma cross_entropy_ok (N V : nat) (logits : mat) (targets : list Z) :
  shape2 N V logits -> length targets = N ->
  Forall (fun t => (0 <= t < Z.of_nat V)%Z) targets ->
  cross_entropy logits targets = Some (mean_cross_entropy logits targets).
Proof.
  intros [HN Hrows] Ht Hcodes. unfold cross_entropy.
  rewrite HN, Ht, Nat.eqb_refl.
  rewrite filter_all.
  2: { intros p Hp.
       destruct (in_combine_Forall _ _ _ _ p Hrows Hcodes Hp) as [_ Hc].
       unfold ignore_index. destruct (Z.eqb_spec (snd p) (-100)); [lia | reflexivity]. }
  rewrite mapM_pure with (g := fun p => nll_value (fst p) (snd p)).
  2: { intros p Hp.
       destruct (in_combine_Forall _ _ _ _ p Hrows Hcodes Hp) as [Hl Hc].
       apply (nll_ok V); assumption. }
  cbn [bind]. unfold mean_cross_entropy.
  rewrite map_combine, length_combine, HN, Ht, Nat.min_id. reflexivity.
Qed.

Lemma concat_shape {A : Type} (B T : nat) (l : list (list A)) :
  length l = B -> Forall (fun r => length r = T) l -> length (concat l) = B * T.
Proof.
  intros HB HF. subst B. induction HF as [|r l Hr HF IH]; simpl.
  - reflexivity.
  - rewrite length_app, IH, Hr. reflexivity.
Qed.

Lemma concat_Forall {A : Type} (P : A -> Prop) (l : list (list A)) :
  Forall (Forall P) l -> Forall P (concat l).
Proof.
  induction 1 as [|r l Hr _ IH]; simpl; [constructor|].
  apply Forall_app. split; assumption.
Qed.

Lemma concat_shape2 (B T V : nat) (x : tensor3) :
  shape3 B T V x -> shape2 (B * T) V (concat x).
Proof.
  intros [HB Hx]. split.
  - apply concat_shape; [assumption|]. eapply Forall_impl; [|exact Hx].
    intros a [Ha _]. exact Ha.
  - apply concat_Forall. eapply Forall_impl; [|exact Hx]. intros a [_ Ha]. exact Ha.
Qed.

(** C4.  The forward pass of the language model returns no loss whenever
    the targets are omitted, and a loss whenever they are supplied; on an
    input of shape (B, T) it returns the (B, T, V) logits and no loss
    without targets, and, with targets of shape (B, T), the logits flattened
    to (B*T, V) together with the average, over all B*T positions, of the
    cross entropy between the prediction at a position and its target. *)
Theorem forward_returns_loss_iff_targets (cfg : Config) (m : BigramLanguageModel) :
  (forall idx r, forward m idx None = Some r ->
     snd r = None /\ exists logits, fst r = Logits3 logits) /\
  (forall idx targets r, forward m idx (Some targets) = Some r ->
     exists loss logits, snd r = Some loss /\ fst r = Logits2 logits) /\
  (forall B T idx,
     wf_BigramLanguageModel cfg m -> 0 < n_embd cfg -> n_embd cfg mod 4 = 0 ->
     zshape2 B T idx -> codes_in (vocab_size cfg) idx -> T <= block_size cfg ->
     exists logits,
       shape3 B T (vocab_size cfg) logits /\
       forward m idx None = Some (Logits3 logits, None) /\
       forall targets,
         zshape2 B T targets -> codes_in (vocab_size cfg) targets ->
         shape2 (B * T) (vocab_size cfg) (concat logits) /\
         length (concat targets) = B * T /\
         forward m idx (Some targets) =
           Some (Logits2 (concat logits),
                 Some (Rsum (map2 nll_value (concat logits) (concat targets))
                       / INR (B * T))%R)).
Proof.
  split; [|split].
  - intros idx r H. unfold forward in H.
    inv_bind H. inv_bind H. inv_bind H. inv_bind H. inv_bind H.
    inversion H; subst. simpl. eauto.
  - intros idx targets r H. unfold forward in H.
    inv_bind H. inv_bind H. inv_bind H. inv_bind H. inv_bind H. inv_bind H.
    inversion H; subst. simpl. eauto.
  - intros B T idx Hwf HD Hmod Hidx Hcodes HT.
    destruct (forward_ok cfg m B T idx Hwf HD Hmod Hidx Hcodes HT) as [logits [Sl Hf]].
    exists logits. split; [exact Sl|]. split; [exact (Hf None)|].
    intros targets [HtB Htrows] Htcodes.
    pose proof (concat_shape2 B T _ logits Sl) as Sflat.
    pose proof (concat_shape B T targets HtB Htrows) as Ltg.
    split; [exact Sflat|]. split; [exact Ltg|].
    rewrite (Hf (Some targets)).
    rewrite (cross_entropy_ok (B * T) (vocab_size cfg) _ _ Sflat Ltg
                              (concat_Forall _ _ Htcodes)).
    cbn [bind]. unfold mean_cross_entropy. rewrite Ltg. reflexivity.
Qed.

(** ** The batch sampler *)

Lemma py_slice_window {A : Type} (l : list A) (i c : Z) :
  (0 <= i)%Z -> (0 <= c)%Z -> (i + c <= Z.of_nat (length l))%Z ->
  py_slice l i (i + c) = firstn (Z.to_nat c) (skipn (Z.to_nat i) l) /\
  length (py_slice l i (i + c)) = Z.to_nat c.
Proof.
  intros Hi Hc Hlen. unfold py_slice, py_index.
  destruct (Z.ltb_spec i 0); [lia|]. destruct (Z.ltb_spec (i + c) 0); [lia|].
  rewrite !Z.min_l by lia.
  replace (i + c - i)%Z with c by lia. split; [reflexivity|].
  rewrite length_firstn, length_skipn. lia.
Qed.

Lemma nth_window {A : Type} (l : list A) (i c t : nat) (d : A) :
  t < c -> nth t (firstn c (skipn i l)) d = nth (i + t) l d.
Proof.
  intros Ht. destruct (nth_error l (i + t)) as [a|] eqn:Ha.
  - rewrite (nth_error_nth l (i + t) d Ha).
    apply nth_error_nth. rewrite nth_error_firstn.
    destruct (Nat.ltb_spec t c); [|lia]. rewrite nth_error_skipn. exact Ha.
  - rewrite (nth_error_nth_None l (i + t) d Ha).
    apply nth_error_nth_None. rewrite nth_error_firstn.
    destruct (Nat.ltb_spec t c); [|lia]. rewrite nth_error_skipn. exact Ha.
Qed.

Lemma stack_ok {A : Type} (n : nat) (rows : list (list A)) :
  rows <> [] -> Forall (fun r => length r = n) rows -> stack rows = Some rows.
Proof.
  intros Hne HF. destruct rows as [|r rs]; [congruence|].
  inversion HF as [|? ? Hr Hrs]; subst. unfold stack.
  replace (forallb (fun r' => length r' =? length r) rs) with true; [reflexivity|].
  symmetry. apply forallb_forall. intros r' Hr'. rewrite Forall_forall in Hrs.
  rewrite (Hrs r' Hr'). apply Nat.eqb_refl.
Qed.

Section BatchSampler.

Variable cfg : Config.
Context {E : RandomEngine}.
Hypothesis Hlaws : RandomEngineLaws E.
Variable train_data val_data : list Z.

Let C := block_size cfg.
Let Bsz := batch_size cfg.

Lemma get_batch_short (split : string) (g : RNG) :
  length (selected train_data val_data split) <= C -> get_batch cfg train_data val_data split g = None.
Proof.
  intros Hshort. unfold get_batch. fold (selected train_data val_data split).
  rewrite (randint_empty E Hlaws); [reflexivity|]. subst C. lia.
Qed.

Lemma get_batch_ok (split : string) (g : RNG) :
  C < length (selected train_data val_data split) -> 0 < Bsz ->
  exists ix g',
    randint g (Z.of_nat (length (selected train_data val_data split)) - Z.of_nat C) Bsz = Some (ix, g') /\
    length ix = Bsz /\
    Forall (fun i => (0 <= i < Z.of_nat (length (selected train_data val_data split)) - Z.of_nat C)%Z) ix /\
    get_batch cfg train_data val_data split g =
      Some (map (fun i => firstn C (skipn (Z.to_nat i) (selected train_data val_data split))) ix,
            map (fun i => firstn C (skipn (Z.to_nat i + 1) (selected train_data val_data split))) ix,
            g').
Proof.
  intros Hlong HB.
  destruct (randint_range E Hlaws g (Z.of_nat (length (selected train_data val_data split)) - Z.of_nat C) Bsz)
    as [ix [g' [Er [Hlen Hix]]]]; [lia|].
  exists ix, g'. split; [exact Er|]. split; [exact Hlen|]. split; [exact Hix|].
  unfold get_batch. fold (selected train_data val_data split). fold C. fold Bsz. rewrite Er. cbn [bind].
  assert (Hne : ix <> []) by (destruct ix; [simpl in Hlen; lia | discriminate]).
  rewrite Forall_forall in Hix.
  assert (Ex : map (fun i => py_slice (selected train_data val_data split) i (i + Z.of_nat C)) ix =
               map (fun i => firstn C (skipn (Z.to_nat i) (selected train_data val_data split))) ix).
  { apply map_ext_in. intros i Hi. specialize (Hix i Hi).
    destruct (py_slice_window (selected train_data val_data split) i (Z.of_nat C)) as [Es _]; try lia.
    rewrite Es, Nat2Z.id. reflexivity. }
  assert (Ey : map (fun i => py_slice (selected train_data val_data split) (i + 1) (i + Z.of_nat C + 1)) ix =
               map (fun i => firstn C (skipn (Z.to_nat i + 1) (selected train_data val_data split))) ix).
  { apply map_ext_in. intros i Hi. specialize (Hix i Hi).
    replace (i + Z.of_nat C + 1)%Z with (i + 1 + Z.of_nat C)%Z by lia.
    destruct (py_slice_window (selected train_data val_data split) (i + 1) (Z.of_nat C)) as [Es _]; try lia.
    rewrite Es, Nat2Z.id. f_equal. f_equal. lia. }
  rewrite Ex, Ey.
  rewrite (stack_ok C).
  - cbn [bind]. rewrite (stack_ok C).
    + reflexivity.
    + destruct ix; [congruence | discriminate].
    + apply Forall_forall. intros r Hr. apply in_map_iff in Hr. destruct Hr as [i [<- Hi]].
      specialize (Hix i Hi). rewrite length_firstn, length_skipn. lia.
  - destruct ix; [congruence | discriminate].
  - apply Forall_forall. intros r Hr. apply in_map_iff in Hr. destruct Hr as [i [<- Hi]].
    specialize (Hix i Hi). rewrite length_firstn, length_skipn. lia.
Qed.

End BatchSampler.

Lemma nth_map_default {A B : Type} (f : A -> B) (l : list A) (n : nat) (d : A) (d' : B) :
  n < length l -> nth n (map f l) d' = f (nth n l d).
Proof.
  intros H. rewrite (nth_indep _ d' (f d)) by (rewrite length_map; assumption).
  apply map_nth.
Qed.

(** C3.  A call of the batch sampler on a split of length L, with window
    length C = block_size and batch size B = batch_size >= 1: when L > C it
    draws B start offsets in [0, L - C) and returns inputs and targets of
    shape (B, C), row [b] of the input being the window [i, i + C) of the
    split at offset [i] number [b], and the target being the input shifted
    by one, [y[t] = split[i + t + 1]]; when L <= C the call raises. *)
Theorem get_batch_windows
        (cfg : Config) (E : RandomEngine) (train_data val_data : list Z)
        (split : string) (g : RNG) :
  RandomEngineLaws E ->
  (block_size cfg < length (selected train_data val_data split) ->
   0 < batch_size cfg ->
   exists ix x y g',
     get_batch cfg train_data val_data split g = Some (x, y, g') /\
     length ix = batch_size cfg /\
     Forall (fun i => (0 <= i < Z.of_nat (length (selected train_data val_data split))
                               - Z.of_nat (block_size cfg))%Z) ix /\
     zshape2 (batch_size cfg) (block_size cfg) x /\
     zshape2 (batch_size cfg) (block_size cfg) y /\
     forall b, b < batch_size cfg ->
       nth b x [] = firstn (block_size cfg)
                           (skipn (Z.to_nat (nth b ix 0%Z)) (selected train_data val_data split)) /\
       forall t, t < block_size cfg ->
         nth t (nth b x []) 0%Z =
           nth (Z.to_nat (nth b ix 0%Z) + t) (selected train_data val_data split) 0%Z /\
         nth t (nth b y []) 0%Z =
           nth (Z.to_nat (nth b ix 0%Z) + t + 1) (selected train_data val_data split) 0%Z) /\
  (length (selected train_data val_data split) <= block_size cfg ->
   get_batch cfg train_data val_data split g = None).
Proof.
  intros Hlaws. split.
  - intros Hlong HB.
    destruct (get_batch_ok cfg Hlaws train_data val_data split g Hlong HB)
      as [ix [g' [_ [Hlen [Hix Eg]]]]].
    eexists ix, _, _, g'. split; [exact Eg|]. split; [exact Hlen|]. split; [exact Hix|].
    rewrite Forall_forall in Hix.
    split; [|split].
    + split; [rewrite length_map; exact Hlen|].
      apply Forall_forall. intros r Hr. apply in_map_iff in Hr. destruct Hr as [i [<- Hi]].
      specialize (Hix i Hi). rewrite length_firstn, length_skipn. lia.
    + split; [rewrite length_map; exact Hlen|].
      apply Forall_forall. intros r Hr. apply in_map_iff in Hr. destruct Hr as [i [<- Hi]].
      specialize (Hix i Hi). rewrite length_firstn, length_skipn. lia.
    + intros b Hb.
      rewrite (nth_map_default _ ix b 0%Z []) by lia.
      rewrite (nth_map_default _ ix b 0%Z []) by lia.
      split; [reflexivity|]. intros t Ht. rewrite !nth_window by assumption.
      split; [reflexivity|]. f_equal. lia.
  - intros Hshort. apply (get_batch_short cfg Hlaws train_data val_data split g Hshort).
Qed.


(** ** Loss estimation *)

Lemma set_nth_length (k : nat) (v : R) (l : vec) : length (set_nth k v l) = length l.
Proof.
  revert k. induction l as [|a l IH]; intros [|k]; simpl; auto.
Qed.

Lemma set_nth_split (k : nat) (v : R) (l : vec) :
  k < length l -> set_nth k v l = firstn k l ++ v :: skipn (S k) l.
Proof.
  revert k. induction l as [|a l IH]; intros [|k] H; simpl in *; try lia.
  - reflexivity.
  - f_equal. apply IH. lia.
Qed.

Lemma firstn_middle {A : Type} (l1 : list A) (a : A) (l2 : list A) :
  firstn (S (length l1)) (l1 ++ a :: l2) = l1 ++ [a].
Proof. induction l1 as [|b l1 IH]; simpl; [reflexivity | f_equal; exact IH]. Qed.

Lemma skipn_middle {A : Type} (l1 : list A) (a : A) (l2 : list A) (n : nat) :
  skipn (S (length l1) + n) (l1 ++ a :: l2) = skipn n l2.
Proof. induction l1 as [|b l1 IH]; simpl; [reflexivity | exact IH]. Qed.

Lemma set_all_seq (ls : vec) (k : nat) (losses : vec) :
  k + length ls <= length losses ->
  set_all (seq k (length ls)) ls losses =
  firstn k losses ++ ls ++ skipn (k + length ls) losses.
Proof.
  unfold set_all. revert k losses. induction ls as [|l ls IH]; intros k losses H.
  - cbn [length seq combine fold_left]. rewrite Nat.add_0_r, firstn_skipn. reflexivity.
  - cbn [length seq combine fold_left fst snd]. cbn [length] in H.
    rewrite IH by (rewrite set_nth_length; lia).
    rewrite set_nth_split by lia.
    assert (Hk : length (firstn k losses) = k) by (rewrite length_firstn; lia).
    rewrite <- Hk at 1. rewrite firstn_middle.
    rewrite <- Hk at 2. rewrite skipn_middle.
    rewrite skipn_skipn, <- app_assoc. cbn [app].
    replace (length ls + S k) with (k + S (length ls)) by lia. reflexivity.
Qed.

Lemma set_all_zeros (ls : vec) :
  set_all (seq 0 (length ls)) ls (repeat 0%R (length ls)) = ls.
Proof.
  rewrite set_all_seq by (rewrite repeat_length; lia).
  simpl. rewrite skipn_all2 by (rewrite repeat_length; lia). apply app_nil_r.
Qed.

Section TrainingFacts.

Variable cfg : Config.
Context {E : RandomEngine} {Optim : Optimizer}.
Variable train_data val_data : list Z.

#[local] Abbreviation get_batch' := (get_batch cfg train_data val_data).
#[local] Abbreviation batch_losses' := (batch_losses cfg train_data val_data).

Lemma batch_losses_length (m : BigramLanguageModel) (split : string) (n : nat)
      (g g' : RNG) (ls : vec) :
  batch_losses' m split n g = Some (ls, g') -> length ls = n.
Proof.
  revert g ls. induction n as [|n IH]; intros g ls H; simpl in H.
  - inversion H. reflexivity.
  - inv_bind H. destruct a as [[x y] g1]. inv_bind H. destruct a as [logits loss].
    inv_bind H. inv_bind H. destruct a0 as [ls' g2]. inversion H; subst.
    simpl. f_equal. eapply IH; eauto.
Qed.

(** The inner loop is the list of batch losses written at the indices
    [ks]; it only moves the generator and records one forward pass per
    index. *)
Lemma eval_batches_eq (split : string) (ks : list nat) (losses : vec) (s : State) :
  eval_batches cfg train_data val_data split ks losses s =
  ('(ls, g') <- batch_losses' (model s) split (length ks) (rng s) ;;
   Some (set_all ks ls losses,
         mkState (model s) (training s) (grad_enabled s) g' (opt s) (stdout s)
                 (history s ++ repeat (EvForward (training s) (grad_enabled s)) (length ks)))).
Proof.
  revert losses s. induction ks as [|k ks IH]; intros losses s.
  - simpl. rewrite app_nil_r. destruct s; reflexivity.
  - cbn [eval_batches batch_losses length]. unfold get_batch_st, call_model.
    destruct (get_batch' split (rng s)) as [[[x y] g1]|]; [|reflexivity].
    cbn [bind set_rng model]. 
    destruct (forward (model s) x (Some y)) as [[logits loss]|]; [|reflexivity].
    cbn [bind]. destruct loss as [l|]; [|reflexivity].
    cbn [bind]. rewrite IH. cbn [log_event set_rng model rng training grad_enabled opt stdout history].
    destruct (batch_losses' (model s) split (length ks) g1) as [[ls g2]|]; [|reflexivity].
    cbn [bind]. unfold set_all. cbn [combine fold_left fst snd].
    rewrite <- app_assoc. reflexivity.
Qed.

(** [estimate_loss] in closed form. *)
Lemma estimate_loss_eq (s : State) :
  estimate_loss cfg train_data val_data s =
  ('(lt, g1) <- batch_losses' (model s) "train"%string (eval_iters cfg) (rng s) ;;
   '(lv, g2) <- batch_losses' (model s) "val"%string (eval_iters cfg) g1 ;;
   Some ([("val"%string, mean lv); ("train"%string, mean lt)],
         mkState (model s) true (grad_enabled s) g2 (opt s) (stdout s)
                 (history s ++ repeat (EvForward false false) (2 * eval_iters cfg)))).
Proof.
  unfold estimate_loss. cbn [eval_splits]. rewrite eval_batches_eq.
  rewrite length_seq.
  cbn [set_training set_grad_enabled model rng training grad_enabled opt stdout history].
  destruct (batch_losses' (model s) "train"%string (eval_iters cfg) (rng s))
    as [[lt g1]|] eqn:Et; [|reflexivity].
  cbn [bind]. rewrite eval_batches_eq. rewrite length_seq.
  cbn [model rng training grad_enabled opt stdout history].
  destruct (batch_losses' (model s) "val"%string (eval_iters cfg) g1)
    as [[lv g2]|] eqn:Ev; [|reflexivity].
  cbn [bind].
  pose proof (batch_losses_length _ _ _ _ _ _ Et) as Lt.
  pose proof (batch_losses_length _ _ _ _ _ _ Ev) as Lv.
  assert (Zt : set_all (seq 0 (eval_iters cfg)) lt (repeat 0%R (eval_iters cfg)) = lt)
    by (rewrite <- Lt; apply set_all_zeros).
  assert (Zv : set_all (seq 0 (eval_iters cfg)) lv (repeat 0%R (eval_iters cfg)) = lv)
    by (rewrite <- Lv; apply set_all_zeros).
  rewrite Zt, Zv.
  cbn [set_training set_grad_enabled model rng training grad_enabled opt stdout history].
  rewrite <- app_assoc, <- repeat_app.
  replace (eval_iters cfg + eval_iters cfg) with (2 * eval_iters cfg) by lia.
  reflexivity.
Qed.

End TrainingFacts.

(** ** The training loop *)

Section TrainingLoop.

Variable cfg : Config.
Context {E : RandomEngine} {Optim : Optimizer}.
Variable train_data val_data : list Z.

#[local] Abbreviation train_iter' := (train_iter cfg train_data val_data).

(** The evaluation phase of one iteration, from a state in training
    mode. *)
Lemma eval_phase_sound (i : nat) (s s1 : State) :
  (if (eval_interval cfg =? 0)%nat then None
   else if (i mod eval_interval cfg =? 0)%nat then
          '(losses, s) <- estimate_loss cfg train_data val_data s ;;
          tr <- lookup "train" losses ;;
          va <- lookup "val" losses ;;
          Some (print (mkReport i tr va) s)
        else Some s) = Some s1 ->
  grad_enabled s = true ->
  model s1 = model s /\ opt s1 = opt s /\ training s1 = (if (i mod eval_interval cfg =? 0)%nat then true else training s) /\
  grad_enabled s1 = true /\
  history s1 = history s ++ (if (i mod eval_interval cfg =? 0)%nat
                             then repeat (EvForward false false) (2 * eval_iters cfg)
                             else []) /\
  map rep_iter (stdout s1) = map rep_iter (stdout s)
                             ++ (if (i mod eval_interval cfg =? 0)%nat then [i] else []) /\
  ((i mod eval_interval cfg =? 0)%nat = true ->
   exists out s0 tr va,
     estimate_loss cfg train_data val_data s = Some (out, s0) /\
     lookup "train" out = Some tr /\ lookup "val" out = Some va /\
     stdout s1 = stdout s ++ [mkReport i tr va]).
Proof.
  intros H Hg. destruct (eval_interval cfg =? 0)%nat; [discriminate|].
  destruct (i mod eval_interval cfg =? 0)%nat.
  - inv_bind H. destruct a as [out s0]. inv_bind H. inv_bind H. inversion H; subst s1.
    pose proof Ha as Heq. rewrite estimate_loss_eq in Heq.
    inv_bind Heq. destruct a1 as [lt g1]. inv_bind Heq. destruct a1 as [lv g2].
    inversion Heq; subst out s0. cbn. rewrite Hg.
    repeat split; try reflexivity.
    + rewrite map_app. reflexivity.
    + intros _. eexists _, _, a, a0. repeat split; eassumption.
  - inversion H; subst s1. rewrite !app_nil_r. repeat split; try assumption; try reflexivity.
    intros Hc. discriminate.
Qed.

(** The training phase of one iteration. *)
Lemma step_phase_sound (s1 s' : State) :
  ('(xb, yb, s) <- get_batch_st cfg train_data val_data "train" s1 ;;
   '(logits, loss, s) <- call_model xb yb s ;;
   if grad_enabled s then
     let (m', o') := backward_step (opt s) (model s) xb yb in
     Some (log_event EvOptimizerStep
             (mkState m' (training s) (grad_enabled s) (rng s) o' (stdout s) (history s)))
   else None) = Some s' ->
  training s' = training s1 /\ grad_enabled s' = true /\ grad_enabled s1 = true /\
  stdout s' = stdout s1 /\
  history s' = history s1 ++ [EvForward (training s1) true; EvOptimizerStep] /\
  exists xb yb, model s' = fst (backward_step (opt s1) (model s1) xb yb).
Proof.
  intros H. unfold get_batch_st, call_model in H.
  inv_bind H. destruct a as [[xb yb] s2]. inv_bind Ha. destruct a as [[x y] g].
  inversion Ha; subst xb yb s2.
  inv_bind H. destruct a as [[logits loss] s3]. inv_bind Ha1. destruct a as [lg l].
  inversion Ha1; subst logits loss s3. cbn in H.
  destruct (grad_enabled s1) eqn:Hg; [|discriminate].
  destruct (backward_step (opt s1) (model s1) x y) as [m' o'] eqn:Eb.
  inversion H; subst s'. cbn. rewrite <- app_assoc.
  repeat split; try reflexivity. exists x, y. rewrite Eb. reflexivity.
Qed.

Lemma train_iter_sound (i : nat) (s s' : State) :
  train_iter' i s = Some s' -> training s = true -> grad_enabled s = true ->
  training s' = true /\ grad_enabled s' = true /\
  history s' = history s ++ iter_events cfg i /\
  map rep_iter (stdout s') = map rep_iter (stdout s)
                             ++ (if (i mod eval_interval cfg =? 0)%nat then [i] else []) /\
  ((i mod eval_interval cfg =? 0)%nat = true ->
   exists out s0 tr va,
     estimate_loss cfg train_data val_data s = Some (out, s0) /\
     lookup "train" out = Some tr /\ lookup "val" out = Some va /\
     stdout s' = stdout s ++ [mkReport i tr va]) /\
  exists xb yb, model s' = fst (backward_step (opt s) (model s) xb yb).
Proof.
  intros H Ht Hg. unfold train_iter in H. inv_bind H. rename a into s1.
  destruct (eval_phase_sound i s s1 Ha Hg) as [Hm [Ho [Ht1 [Hg1 [Hh [Hout Hrep]]]]]].
  destruct (step_phase_sound s1 s' H) as [Ht' [Hg' [_ [Hout' [Hh' [xb [yb Hm']]]]]]].
  assert (Ht1' : training s1 = true) by (rewrite Ht1, Ht; destruct (i mod eval_interval cfg =? 0)%nat; reflexivity).
  repeat split.
  - congruence.
  - assumption.
  - rewrite Hh', Hh, Ht1'. unfold iter_events. rewrite <- app_assoc. reflexivity.
  - rewrite Hout'. exact Hout.
  - intros Hc. destruct (Hrep Hc) as [out [s0 [tr [va [E1 [E2 [E3 E4]]]]]]].
    exists out, s0, tr, va. repeat split; try assumption. rewrite Hout'. exact E4.
  - exists xb, yb. rewrite Hm', Ho, Hm. reflexivity.
Qed.

Lemma train_loop_sound (iters : list nat) (s s' : State) :
  train_loop cfg train_data val_data iters s = Some s' ->
  training s = true -> grad_enabled s = true ->
  training s' = true /\ grad_enabled s' = true /\
  history s' = history s ++ flat_map (iter_events cfg) iters /\
  map rep_iter (stdout s') =
    map rep_iter (stdout s) ++ filter (fun i => (i mod eval_interval cfg =? 0)%nat) iters.
Proof.
  revert s. induction iters as [|i iters IH]; intros s H Ht Hg; simpl in H.
  - inversion H; subst. simpl. rewrite !app_nil_r. auto.
  - inv_bind H. rename a into s1.
    destruct (train_iter_sound i s s1 Ha Ht Hg) as [Ht1 [Hg1 [Hh [Hout _]]]].
    destruct (IH s1 H Ht1 Hg1) as [Ht' [Hg' [Hh' Hout']]].
    repeat split; try assumption.
    + rewrite Hh', Hh. simpl. rewrite app_assoc. reflexivity.
    + rewrite Hout', Hout. simpl.
      destruct (i mod eval_interval cfg =? 0)%nat; simpl; rewrite <- app_assoc; reflexivity.
Qed.

End TrainingLoop.

(** ** The script runs to completion *)

Lemma Forall_window {A : Type} (P : A -> Prop) (c i : nat) (l : list A) :
  Forall P l -> Forall P (firstn c (skipn i l)).
Proof.
  intros H. rewrite <- (firstn_skipn i l) in H. apply Forall_app in H. destruct H as [_ H].
  rewrite <- (firstn_skipn c (skipn i l)) in H. apply Forall_app in H. apply H.
Qed.

Section Totality.

Variable cfg : Config.
Context {E : RandomEngine} {Optim : Optimizer}.
Variable train_data val_data : list Z.

Hypothesis Hlaws : RandomEngineLaws E.
Hypothesis Hcfg : valid_config cfg.
Hypothesis Htrain_long : block_size cfg < length train_data.
Hypothesis Hval_long : block_size cfg < length val_data.
Hypothesis Htrain_codes : Forall (fun i => (0 <= i < Z.of_nat (vocab_size cfg))%Z) train_data.
Hypothesis Hval_codes : Forall (fun i => (0 <= i < Z.of_nat (vocab_size cfg))%Z) val_data.

Lemma selected_long (split : string) :
  block_size cfg < length (selected train_data val_data split).
Proof. unfold selected. destruct (String.eqb split "train"); assumption. Qed.

Lemma selected_codes (split : string) :
  Forall (fun i => (0 <= i < Z.of_nat (vocab_size cfg))%Z) (selected train_data val_data split).
Proof. unfold selected. destruct (String.eqb split "train"); assumption. Qed.

(** Every batch is a pair of (B, C) tensors of symbol codes. *)
Lemma get_batch_valid (split : string) (g : RNG) :
  exists x y g',
    get_batch cfg train_data val_data split g = Some (x, y, g') /\
    zshape2 (batch_size cfg) (block_size cfg) x /\
    zshape2 (batch_size cfg) (block_size cfg) y /\
    codes_in (vocab_size cfg) x /\ codes_in (vocab_size cfg) y.
Proof.
  destruct Hcfg as [HB _].
  destruct (get_batch_ok cfg Hlaws train_data val_data split g (selected_long split) HB)
    as [ix [g' [_ [Hlen [Hix Eg]]]]].
  rewrite Forall_forall in Hix.
  eexists _, _, g'. split; [exact Eg|].
  pose proof (selected_long split) as Hlong.
  repeat split.
  - rewrite length_map. exact Hlen.
  - apply Forall_forall. intros r Hr. apply in_map_iff in Hr. destruct Hr as [i [<- Hi]].
    specialize (Hix i Hi). rewrite length_firstn, length_skipn. lia.
  - rewrite length_map. exact Hlen.
  - apply Forall_forall. intros r Hr. apply in_map_iff in Hr. destruct Hr as [i [<- Hi]].
    specialize (Hix i Hi). rewrite length_firstn, length_skipn. lia.
  - apply Forall_forall. intros r Hr. apply in_map_iff in Hr. destruct Hr as [i [<- Hi]].
    apply Forall_window. apply selected_codes.
  - apply Forall_forall. intros r Hr. apply in_map_iff in Hr. destruct Hr as [i [<- Hi]].
    apply Forall_window. apply selected_codes.
Qed.

Lemma forward_targets_total (m : BigramLanguageModel) (x y : list (list Z)) :
  wf_BigramLanguageModel cfg m ->
  zshape2 (batch_size cfg) (block_size cfg) x ->
  zshape2 (batch_size cfg) (block_size cfg) y ->
  codes_in (vocab_size cfg) x -> codes_in (vocab_size cfg) y ->
  exists logits loss, forward m x (Some y) = Some (logits, Some loss).
Proof.
  intros Hwf Hx Hy Hcx Hcy. destruct Hcfg as [_ [_ [_ [HD [Hmod _]]]]].
  destruct (forward_ok cfg m _ _ x Hwf HD Hmod Hx Hcx (Nat.le_refl _)) as [logits [Sl Hf]].
  rewrite (Hf (Some y)).
  destruct Hy as [HyB Hyrows].
  rewrite (cross_entropy_ok _ (vocab_size cfg) _ _ (concat_shape2 _ _ _ logits Sl)
                            (concat_shape _ _ y HyB Hyrows) (concat_Forall _ _ Hcy)).
  cbn [bind]. eauto.
Qed.

Lemma batch_losses_total (m : BigramLanguageModel) (split : string) (n : nat) (g : RNG) :
  wf_BigramLanguageModel cfg m ->
  exists ls g', batch_losses cfg train_data val_data m split n g = Some (ls, g').
Proof.
  intros Hwf. revert g. induction n as [|n IH]; intros g; simpl.
  - eauto.
  - destruct (get_batch_valid split g) as [x [y [g1 [Eg [Hx [Hy [Hcx Hcy]]]]]]].
    rewrite Eg. cbn [bind].
    destruct (forward_targets_total m x y Hwf Hx Hy Hcx Hcy) as [logits [loss Ef]].
    rewrite Ef. cbn [bind].
    destruct (IH g1) as [ls [g2 El]]. rewrite El. cbn [bind]. eauto.
Qed.

Lemma estimate_loss_total (s : State) :
  wf_BigramLanguageModel cfg (model s) ->
  exists out s', estimate_loss cfg train_data val_data s = Some (out, s').
Proof.
  intros Hwf. rewrite estimate_loss_eq.
  destruct (batch_losses_total (model s) "train" (eval_iters cfg) (rng s) Hwf)
    as [lt [g1 Et]]. rewrite Et. cbn [bind].
  destruct (batch_losses_total (model s) "val" (eval_iters cfg) g1 Hwf)
    as [lv [g2 Ev]]. rewrite Ev. cbn [bind]. eauto.
Qed.

Hypothesis Hopt : OptimizerLaws cfg Optim.

Lemma train_iter_total (i : nat) (s : State) :
  wf_BigramLanguageModel cfg (model s) -> grad_enabled s = true ->
  exists s', train_iter cfg train_data val_data i s = Some s' /\
             wf_BigramLanguageModel cfg (model s').
Proof.
  intros Hwf Hg. unfold train_iter.
  assert (Hphase : exists s1,
    (if (eval_interval cfg =? 0)%nat then None
     else if (i mod eval_interval cfg =? 0)%nat then
            '(losses, s) <- estimate_loss cfg train_data val_data s ;;
            tr <- lookup "train" losses ;;
            va <- lookup "val" losses ;;
            Some (print (mkReport i tr va) s)
          else Some s) = Some s1 /\
    model s1 = model s /\ grad_enabled s1 = true).
  { destruct Hcfg as [_ [_ [Hei _]]].
    destruct (Nat.eqb_spec (eval_interval cfg) 0); [lia|].
    destruct (i mod eval_interval cfg =? 0)%nat; [|eauto].
    rewrite estimate_loss_eq.
    destruct (batch_losses_total (model s) "train" (eval_iters cfg) (rng s) Hwf)
      as [lt [g1 Et]]. rewrite Et. cbn [bind].
    destruct (batch_losses_total (model s) "val" (eval_iters cfg) g1 Hwf)
      as [lv [g2 Ev]]. rewrite Ev. cbn. eauto. }
  destruct Hphase as [s1 [E1 [Hm1 Hg1]]]. rewrite E1. cbn [bind].
  unfold get_batch_st, call_model.
  destruct (get_batch_valid "train" (rng s1)) as [x [y [g1 [Eg [Hx [Hy [Hcx Hcy]]]]]]].
  rewrite Eg. cbn [bind set_rng model].
  rewrite <- Hm1 in Hwf.
  destruct (forward_targets_total (model s1) x y Hwf Hx Hy Hcx Hcy) as [logits [loss Ef]].
  rewrite Ef. cbn. rewrite Hg1.
  pose proof (Hopt (opt s1) (model s1) x y Hwf) as Hwf'.
  destruct (backward_step (opt s1) (model s1) x y) as [m' o'].
  eexists. split; [reflexivity|]. exact Hwf'.
Qed.

Lemma train_loop_total (iters : list nat) (s : State) :
  wf_BigramLanguageModel cfg (model s) -> training s = true -> grad_enabled s = true ->
  exists s', train_loop cfg train_data val_data iters s = Some s'.
Proof.
  revert s. induction iters as [|i iters IH]; intros s Hwf Ht Hg; simpl.
  - eauto.
  - destruct (train_iter_total i s Hwf Hg) as [s1 [E1 Hwf1]]. rewrite E1. cbn [bind].
    destruct (train_iter_sound cfg train_data val_data i s s1 E1 Ht Hg) as [Ht1 [Hg1 _]].
    apply IH; assumption.
Qed.

End Totality.

(** C8.  A call of [estimate_loss] runs, for the train split and then for
    the val split, [eval_iters] forward passes on freshly drawn batches and
    reports the mean of their losses; all these passes run in evaluation
    mode with gradient recording off, no optimiser step happens, the
    parameters, the optimiser state and the output are unchanged, and the
    model is back in training mode on return.  The training loop calls it
    exactly in the iterations whose number is a multiple of
    [eval_interval], and prints its result there.  With valid
    hyperparameters, splits longer than a window and a shape-preserving
    optimiser, both run to completion. *)
Theorem estimate_loss_leaves_parameters
        (cfg : Config) (E : RandomEngine) (Optim : Optimizer)
        (train_data val_data : list Z) :
  (forall s out s',
     estimate_loss cfg train_data val_data s = Some (out, s') ->
     model s' = model s /\ opt s' = opt s /\ stdout s' = stdout s /\
     training s' = true /\ grad_enabled s' = grad_enabled s /\
     history s' = history s ++ repeat (EvForward false false) (2 * eval_iters cfg) /\
     exists lt g1 lv,
       batch_losses cfg train_data val_data (model s) "train" (eval_iters cfg) (rng s)
         = Some (lt, g1) /\
       batch_losses cfg train_data val_data (model s) "val" (eval_iters cfg) g1
         = Some (lv, rng s') /\
       length lt = eval_iters cfg /\ length lv = eval_iters cfg /\
       lookup "train" out = Some (Rsum lt / INR (length lt))%R /\
       lookup "val" out = Some (Rsum lv / INR (length lv))%R) /\
  (forall i s s',
     train_iter cfg train_data val_data i s = Some s' ->
     training s = true -> grad_enabled s = true ->
     history s' = history s ++ iter_events cfg i /\
     if (i mod eval_interval cfg =? 0)%nat
     then exists out s0 tr va,
            estimate_loss cfg train_data val_data s = Some (out, s0) /\
            lookup "train" out = Some tr /\ lookup "val" out = Some va /\
            stdout s' = stdout s ++ [mkReport i tr va]
     else stdout s' = stdout s) /\
  (forall s s',
     train cfg train_data val_data s = Some s' ->
     training s = true -> grad_enabled s = true ->
     history s' = history s ++ flat_map (iter_events cfg) (seq 0 (max_iters cfg)) /\
     map rep_iter (stdout s') =
       map rep_iter (stdout s)
       ++ filter (fun i => (i mod eval_interval cfg =? 0)%nat) (seq 0 (max_iters cfg))) /\
  (RandomEngineLaws E -> valid_config cfg -> OptimizerLaws cfg Optim ->
   block_size cfg < length train_data -> block_size cfg < length val_data ->
   Forall (fun i => (0 <= i < Z.of_nat (vocab_size cfg))%Z) train_data ->
   Forall (fun i => (0 <= i < Z.of_nat (vocab_size cfg))%Z) val_data ->
   forall s, wf_BigramLanguageModel cfg (model s) ->
             training s = true -> grad_enabled s = true ->
     (exists out s', estimate_loss cfg train_data val_data s = Some (out, s')) /\
     (exists s', train cfg train_data val_data s = Some s')).
Proof.
  split; [|split; [|split]].
  - intros s out s' H. rewrite estimate_loss_eq in H.
    inv_bind H. destruct a as [lt g1]. inv_bind H. destruct a as [lv g2].
    inversion H; subst out s'. cbn.
    repeat split; try reflexivity.
    exists lt, g1, lv. repeat split; try assumption.
    + eapply batch_losses_length; eauto.
    + eapply batch_losses_length; eauto.
  - intros i s s' H Ht Hg.
    destruct (train_iter_sound cfg train_data val_data i s s' H Ht Hg)
      as [_ [_ [Hh [Hout [Hrep _]]]]].
    split; [exact Hh|].
    destruct (i mod eval_interval cfg =? 0)%nat eqn:Hi.
    + apply Hrep. reflexivity.
    + unfold train_iter in H. inv_bind H. rename a into s1.
      destruct (eval_interval cfg =? 0)%nat; [discriminate|].
      rewrite Hi in Ha. inversion Ha; subst s1.
      destruct (step_phase_sound cfg train_data val_data s s' H) as [_ [_ [_ [Hs _]]]].
      exact Hs.
  - intros s s' H Ht Hg.
    destruct (train_loop_sound cfg train_data val_data _ s s' H Ht Hg) as [_ [_ [Hh Hout]]].
    split; assumption.
  - intros Hlaws Hcfg Hopt Htl Hvl Htc Hvc s Hwf Ht Hg. split.
    + apply (estimate_loss_total cfg train_data val_data Hlaws Hcfg Htl Hvl Htc Hvc s Hwf).
    + apply (train_loop_total cfg train_data val_data Hlaws Hcfg Htl Hvl Htc Hvc Hopt _ s Hwf Ht Hg).
Qed.

(** ** Generation *)






Section Sampling.

Context {E : RandomEngine}.
Hypothesis Hlaws : RandomEngineLaws E.


End Sampling.



Section Generation.

Variable cfg : Config.
Context {E : RandomEngine}.
Variable m : BigramLanguageModel.
Hypothesis Hlaws : RandomEngineLaws E.
Hypothesis Hcfg : valid_config cfg.
Hypothesis Hwf : wf_BigramLanguageModel cfg m.



End Generation.


(** ** The constructor of the model, and the small instances *)

Lemma Embedding_init_wf (n d : nat) (init : nat -> nat -> R) :
  wf_Embedding n d (Embedding_init n d init).
Proof.
  unfold wf_Embedding, Embedding_init; simpl. repeat split.
  - apply tabulate_length.
  - apply Forall_forall. intros r Hr. unfold tabulate in Hr. apply in_map_iff in Hr.
    destruct Hr as [k [<- _]]. apply tabulate_length.
Qed.


Lemma first_positive_spec (p : vec) :
  Forall (fun a => (0 <= a)%R) p -> (0 < Rsum p)%R ->
  exists i, first_positive p = Some i /\ i < length p /\ (0 < nth i p 0)%R.
Proof.
  induction 1 as [|a p Ha HF IH]; intros Hsum; simpl in *.
  - lra.
  - destruct (Rlt_dec 0 a) as [Hpos|Hneg].
    + exists 0. repeat split; [lia | assumption].
    + destruct IH as [i [Ei [Hi Hn]]]; [lra|].
      exists (S i). rewrite Ei. repeat split; [lia | assumption].
Qed.

Lemma counter_engine_laws : RandomEngineLaws counter_engine.
Proof.
  constructor.
  - intros g high n H. simpl. destruct (Z.leb_spec high 0); [reflexivity | lia].
  - intros g high n H. simpl. destruct (Z.leb_spec high 0); [lia|].
    eexists _, _. split; [reflexivity|]. split.
    + rewrite length_map, length_seq. reflexivity.
    + apply Forall_forall. intros i Hi. apply in_map_iff in Hi. destruct Hi as [k [<- _]].
      apply Z.mod_pos_bound. assumption.
  - intros g p [Hnn Hsum]. simpl.
    destruct (first_positive_spec p Hnn) as [i [Ei [Hi Hn]]]; [lra|].
    rewrite Ei. exists (Z.of_nat i), (S g). rewrite Nat2Z.id. repeat split; [lia | lia | assumption].
Qed.

Lemma null_optimizer_laws (cfg : Config) : OptimizerLaws cfg null_optimizer.
Proof. intros o m xb yb H. exact H. Qed.

Lemma tiny_config_valid : valid_config tiny_config.
Proof. unfold valid_config; simpl. repeat split; lia. Qed.

Lemma tiny_head_wf : wf_Head tiny_config 1 tiny_head.
Proof. apply Head_init_wf. Qed.

Lemma tiny_mha_wf : wf_MultiHeadAttention tiny_config 2 2 tiny_mha.
Proof. apply MultiHeadAttention_init_wf. Qed.

Lemma tiny_block_wf : wf_Block tiny_config 2 tiny_block.
Proof.
  split; [exact tiny_mha_wf|]. split; [|split].
  - apply (FeedForward_init_wf tiny_config).
  - apply LayerNorm_init_wf.
  - apply LayerNorm_init_wf.
Qed.

Lemma tiny_model_wf : wf_BigramLanguageModel tiny_config tiny_model.
Proof.
  split; [apply Embedding_init_wf|]. split; [apply Embedding_init_wf|].
  split; [|split; [apply LayerNorm_init_wf | apply Linear_init_wf]].
  constructor; [|constructor].
  split; [apply (MultiHeadAttention_init_wf tiny_config 4 1)|]. split; [|split].
  - apply (FeedForward_init_wf tiny_config).
  - apply LayerNorm_init_wf.
  - apply LayerNorm_init_wf.
Qed.

Lemma tiny_x_shape : shape3 1 2 4 tiny_x.
Proof. repeat (split || constructor). Qed.

Lemma tiny_x'_shape : shape3 1 2 4 tiny_x'.
Proof. repeat (split || constructor). Qed.

Lemma tiny_data_codes : Forall (fun i => (0 <= i < Z.of_nat (vocab_size tiny_config))%Z) tiny_data.
Proof. repeat constructor; simpl; lia. Qed.

(** ** The theorems at the small instances *)

Lemma multi_head_attention_shape_witness :
  exists out, MultiHeadAttention_forward tiny_mha tiny_x = Some out /\ shape3 1 2 4 out.
Proof.
  destruct (multi_head_attention_shape tiny_config 2 tiny_mha 1 2 tiny_x
              tiny_mha_wf (Nat.lt_0_succ 1) (Nat.lt_0_succ 3) eq_refl
              tiny_x_shape (Nat.le_refl 2))
    as [outs [c [out [_ [_ [_ [_ [_ [_ [_ [Eo So]]]]]]]]]]].
  exists out. split; [exact Eo | exact So].
Defined.

Lemma block_is_prenorm_residual_witness :
  exists y, Block_forward tiny_block tiny_x = Some y /\ Block_spec tiny_block tiny_x y /\
            shape3 1 2 4 y.
Proof.
  destruct (block_is_prenorm_residual tiny_config 2 tiny_block 1 2 tiny_x
              tiny_block_wf (Nat.lt_0_succ 1) (Nat.lt_0_succ 3) eq_refl
              tiny_x_shape (Nat.le_refl 2))
    as [Hspec [n1 [a [n2 [f [_ [_ [_ [_ [_ [_ [Eb Sb]]]]]]]]]]]].
  eexists. split; [exact Eb|]. split; [|exact Sb]. apply Hspec. exact Eb.
Defined.

Lemma forward_returns_loss_iff_targets_witness :
  exists logits loss,
    forward tiny_model [[0; 1]]%Z None = Some (Logits3 logits, None) /\
    forward tiny_model [[0; 1]]%Z (Some [[1; 0]]%Z) = Some (Logits2 (concat logits), Some loss).
Proof.
  destruct (forward_returns_loss_iff_targets tiny_config tiny_model) as [_ [_ H]].
  destruct (H 1 2 [[0; 1]]%Z tiny_model_wf (Nat.lt_0_succ 3) eq_refl) as [logits [_ [E1 H2]]].
  - repeat (split || constructor).
  - repeat constructor; simpl; lia.
  - apply Nat.le_refl.
  - destruct (H2 [[1; 0]]%Z) as [_ [_ E2]].
    + repeat (split || constructor).
    + repeat constructor; simpl; lia.
    + eexists logits, _. split; [exact E1 | exact E2].
Defined.


Lemma get_batch_windows_witness :
  exists x y g',
    get_batch tiny_config (E := counter_engine) tiny_data tiny_data "train"
              (0 : @RNG counter_engine) = Some (x, y, g') /\
    zshape2 2 2 x /\ zshape2 2 2 y.
Proof.
  destruct (get_batch_windows tiny_config counter_engine tiny_data tiny_data "train"
              (0 : @RNG counter_engine) counter_engine_laws) as [H _].
  destruct H as [ix [x [y [g' [Eg [_ [_ [Sx [Sy _]]]]]]]]].
  - simpl. lia.
  - simpl. lia.
  - exists x, y, g'. repeat split; try assumption; try apply Sx; try apply Sy.
Defined.

Lemma estimate_loss_leaves_parameters_witness :
  (exists out s', estimate_loss tiny_config tiny_data tiny_data tiny_state = Some (out, s')) /\
  (exists s', train tiny_config tiny_data tiny_data tiny_state = Some s').
Proof.
  destruct (estimate_loss_leaves_parameters tiny_config counter_engine null_optimizer
              tiny_data tiny_data) as [_ [_ [_ H]]].
  apply (H counter_engine_laws tiny_config_valid (null_optimizer_laws tiny_config)).
  - simpl. lia.
  - simpl. lia.
  - exact tiny_data_codes.
  - exact tiny_data_codes.
  - exact tiny_model_wf.
  - reflexivity.
  - reflexivity.
Defined.

Lemma block_init_rounds_head_size_down_witness :
  exists b, Block_init script_config 32 5 (const_init 0) = Some b /\
    forall B T x, shape3 B T 32 x -> 0 < B -> 0 < T -> T <= 8 -> Block_forward b x = None.
Proof.
  destruct (block_init_rounds_head_size_down script_config 32 5 (const_init 0)) as [_ H].
  destruct (H (Nat.lt_0_succ 4)) as [b [Eb [_ [_ [_ Hf]]]]].
  exists b. split; [exact Eb|]. apply Hf. discriminate.
Defined.


(** * Further properties of the script *)

(** ** Dictionaries *)

Section Dict.

Context {K V : Type}.
Variable eqb : K -> K -> bool.
Hypothesis eqb_eq : forall a b, eqb a b = true <-> a = b.

Lemma eqb_refl' (a : K) : eqb a a = true.
Proof. apply eqb_eq. reflexivity. Qed.

Lemma eqb_neq' (a b : K) : a <> b -> eqb a b = false.
Proof.
  intros H. destruct (eqb a b) eqn:E; [|reflexivity]. apply eqb_eq in E. contradiction.
Qed.

Lemma dict_get_set (k k' : K) (v : V) (d : list (K * V)) :
  dict_get eqb k' (dict_set eqb k v d) = if eqb k' k then Some v else dict_get eqb k' d.
Proof.
  induction d as [|[k0 v0] d IH]; simpl.
  - reflexivity.
  - destruct (eqb k k0) eqn:E; simpl.
    + apply eqb_eq in E. subst k0. destruct (eqb k' k); reflexivity.
    + rewrite IH. destruct (eqb k' k0) eqn:E0; [|reflexivity].
      apply eqb_eq in E0. subst k0. destruct (eqb k' k) eqn:E1; [|reflexivity].
      apply eqb_eq in E1. subst k'. rewrite eqb_refl' in E. discriminate.
Qed.

Lemma dict_fold_missing (k : K) (pairs d : list (K * V)) :
  ~ In k (map fst pairs) ->
  dict_get eqb k (fold_left (fun d p => dict_set eqb (fst p) (snd p) d) pairs d)
  = dict_get eqb k d.
Proof.
  revert d. induction pairs as [|[k0 v0] pairs IH]; intros d Hn; simpl in *.
  - reflexivity.
  - rewrite IH by tauto. rewrite dict_get_set.
    rewrite eqb_neq'; [reflexivity|]. intros ->. tauto.
Qed.

Lemma dict_fold_present (k : K) (v : V) (pairs d : list (K * V)) :
  NoDup (map fst pairs) -> In (k, v) pairs ->
  dict_get eqb k (fold_left (fun d p => dict_set eqb (fst p) (snd p) d) pairs d) = Some v.
Proof.
  revert d. induction pairs as [|[k0 v0] pairs IH]; intros d Hnd Hin; simpl in *.
  - contradiction.
  - inversion Hnd as [|? ? Hnotin Hnd']; subst. destruct Hin as [Heq|Hin].
    + inversion Heq; subst. rewrite dict_fold_missing by assumption.
      rewrite dict_get_set, eqb_refl'. reflexivity.
    + apply IH; assumption.
Qed.

(** A comprehension over pairs with distinct keys maps every key to its
    value and nothing else. *)
Lemma dict_of_pairs_get (k : K) (v : V) (pairs : list (K * V)) :
  NoDup (map fst pairs) -> In (k, v) pairs -> dict_get eqb k (dict_of_pairs eqb pairs) = Some v.
Proof. apply dict_fold_present. Qed.

Lemma dict_of_pairs_missing (k : K) (pairs : list (K * V)) :
  ~ In k (map fst pairs) -> dict_get eqb k (dict_of_pairs eqb pairs) = None.
Proof. intros H. unfold dict_of_pairs. rewrite dict_fold_missing by assumption. reflexivity. Qed.

End Dict.

(** ** The alphabet *)

Lemma insert_sorted_In (c x : char) (l : list char) :
  In x (insert_sorted c l) <-> x = c \/ In x l.
Proof.
  induction l as [|a l IH]; simpl.
  - intuition.
  - destruct (c <=? a)%N; simpl; [intuition | rewrite IH; intuition].
Qed.

Lemma insert_sorted_NoDup (c : char) (l : list char) :
  ~ In c l -> NoDup l -> NoDup (insert_sorted c l).
Proof.
  induction l as [|a l IH]; intros Hn Hnd; simpl.
  - constructor; [tauto | constructor].
  - destruct (c <=? a)%N.
    + constructor; assumption.
    + inversion Hnd; subst. constructor.
      * rewrite insert_sorted_In. simpl in Hn. intuition.
      * apply IH; [simpl in Hn; tauto | assumption].
Qed.

Lemma sorted_In (x : char) (l : list char) : In x (sorted l) <-> In x l.
Proof.
  unfold sorted. induction l as [|a l IH]; simpl.
  - tauto.
  - rewrite insert_sorted_In, IH. intuition.
Qed.

Lemma sorted_NoDup (l : list char) : NoDup l -> NoDup (sorted l).
Proof.
  unfold sorted. induction 1 as [|a l Ha Hnd IH]; simpl.
  - constructor.
  - apply insert_sorted_NoDup; [|assumption]. fold (sorted l). rewrite sorted_In. assumption.
Qed.

Lemma insert_sorted_ascending (c : char) (l : list char) :
  StronglySorted N.lt l -> ~ In c l -> StronglySorted N.lt (insert_sorted c l).
Proof.
  induction 1 as [|a l Hs IH Hall]; intros Hn; simpl.
  - repeat constructor.
  - destruct (N.leb_spec c a) as [Hle|Hgt].
    + assert (Hlt : (c < a)%N) by (simpl in Hn; destruct (N.eq_dec c a); [subst; tauto | lia]).
      constructor; [constructor; assumption|].
      constructor; [assumption|].
      eapply Forall_impl; [|exact Hall]. intros b Hb. simpl in Hb. lia.
    + constructor; [apply IH; simpl in Hn; tauto|].
      apply Forall_forall. intros x Hx. apply insert_sorted_In in Hx.
      destruct Hx as [->|Hx]; [assumption|].
      rewrite Forall_forall in Hall. apply Hall. assumption.
Qed.

Lemma chars_In (text : list char) (c : char) : In c (chars text) <-> In c text.
Proof. unfold chars. rewrite sorted_In. apply nodup_In. Qed.

Lemma chars_NoDup (text : list char) : NoDup (chars text).
Proof. unfold chars. apply sorted_NoDup. apply NoDup_nodup. Qed.

Lemma chars_ascending (text : list char) : StronglySorted N.lt (chars text).
Proof.
  unfold chars. pose proof (NoDup_nodup N.eq_dec text) as Hnd.
  induction Hnd as [|a l Ha Hnd IH]; simpl.
  - constructor.
  - apply insert_sorted_ascending; [exact IH|]. fold (sorted l). rewrite sorted_In. exact Ha.
Qed.

(** ** The codec *)

Lemma combine_fst {A B : Type} (a : list A) (b : list B) :
  length a = length b -> map fst (combine a b) = a.
Proof.
  revert b. induction a as [|x a IH]; intros [|y b] H; simpl in *; try discriminate; auto.
  f_equal. apply IH. lia.
Qed.

Lemma combine_snd {A B : Type} (a : list A) (b : list B) :
  length a = length b -> map snd (combine a b) = b.
Proof.
  revert b. induction a as [|x a IH]; intros [|y b] H; simpl in *; try discriminate; auto.
  f_equal. apply IH. lia.
Qed.

Lemma enumerate_fst {A : Type} (l : list A) :
  map fst (enumerate l) = map Z.of_nat (seq 0 (length l)).
Proof. apply combine_fst. rewrite length_map, length_seq. reflexivity. Qed.

Lemma enumerate_snd {A : Type} (l : list A) : map snd (enumerate l) = l.
Proof. apply combine_snd. rewrite length_map, length_seq. reflexivity. Qed.

Lemma enumerate_In {A : Type} (l : list A) (k : nat) (a : A) :
  nth_error l k = Some a -> In (Z.of_nat k, a) (enumerate l).
Proof.
  unfold enumerate. intros H.
  assert (G : forall s, In (Z.of_nat (s + k), a) (combine (map Z.of_nat (seq s (length l))) l)).
  { revert k H. induction l as [|x l IH]; intros k H s.
    - destruct k; discriminate.
    - destruct k as [|k]; simpl in *.
      + inversion H; subst. left. rewrite Nat.add_0_r. reflexivity.
      + right. replace (s + S k) with (S s + k) by lia. apply IH. assumption. }
  apply (G 0).
Qed.

Lemma NoDup_map_inj {A B : Type} (f : A -> B) (l : list A) :
  (forall a b, f a = f b -> a = b) -> NoDup l -> NoDup (map f l).
Proof.
  intros Hinj. induction 1 as [|a l Ha Hnd IH]; simpl; constructor; [|exact IH].
  intros Hin. apply in_map_iff in Hin. destruct Hin as [b [Hb Hbl]].
  apply Hinj in Hb. subst b. contradiction.
Qed.

Lemma enumerate_keys_NoDup {A : Type} (l : list A) : NoDup (map fst (enumerate l)).
Proof.
  rewrite enumerate_fst. apply NoDup_map_inj; [|apply seq_NoDup].
  intros a b H. lia.
Qed.

Lemma stoi_get (text : list char) (k : nat) (c : char) :
  nth_error (chars text) k = Some c -> dict_get N.eqb c (stoi text) = Some (Z.of_nat k).
Proof.
  intros H. unfold stoi. apply (dict_of_pairs_get N.eqb N.eqb_eq).
  - rewrite map_map. simpl. rewrite enumerate_snd. apply chars_NoDup.
  - apply in_map_iff. exists (Z.of_nat k, c). split; [reflexivity|].
    apply enumerate_In. assumption.
Qed.

Lemma stoi_missing (text : list char) (c : char) :
  ~ In c text -> dict_get N.eqb c (stoi text) = None.
Proof.
  intros H. unfold stoi. apply (dict_of_pairs_missing N.eqb N.eqb_eq).
  rewrite map_map. simpl. rewrite enumerate_snd, chars_In. assumption.
Qed.

Lemma itos_get (text : list char) (k : nat) (c : char) :
  nth_error (chars text) k = Some c -> dict_get Z.eqb (Z.of_nat k) (itos text) = Some c.
Proof.
  intros H. unfold itos. apply (dict_of_pairs_get Z.eqb Z.eqb_eq).
  - apply enumerate_keys_NoDup.
  - apply enumerate_In. assumption.
Qed.

Lemma itos_missing (text : list char) (i : Z) :
  ~ (0 <= i < Z.of_nat (vocab_size_of text))%Z -> dict_get Z.eqb i (itos text) = None.
Proof.
  intros H. unfold itos. apply (dict_of_pairs_missing Z.eqb Z.eqb_eq).
  rewrite enumerate_fst. intros Hin. apply in_map_iff in Hin. destruct Hin as [k [<- Hk]].
  apply in_seq in Hk. unfold vocab_size_of in H. lia.
Qed.

(** One character and its code. *)
Lemma stoi_itos (text : list char) (c : char) :
  In c text ->
  exists k, nth_error (chars text) k = Some c /\ k < vocab_size_of text /\
            dict_get N.eqb c (stoi text) = Some (Z.of_nat k) /\
            dict_get Z.eqb (Z.of_nat k) (itos text) = Some c.
Proof.
  intros H. apply chars_In in H. apply In_nth_error in H. destruct H as [k Hk].
  exists k. split; [exact Hk|]. split.
  - unfold vocab_size_of. apply nth_error_Some. congruence.
  - split; [apply stoi_get | apply itos_get]; assumption.
Qed.

Lemma itos_stoi (text : list char) (i : Z) :
  (0 <= i < Z.of_nat (vocab_size_of text))%Z ->
  exists c, In c text /\ dict_get Z.eqb i (itos text) = Some c /\
            dict_get N.eqb c (stoi text) = Some i.
Proof.
  intros Hi. unfold vocab_size_of in Hi.
  destruct (nth_error (chars text) (Z.to_nat i)) as [c|] eqn:Hc.
  2: { apply nth_error_None in Hc. lia. }
  exists c. split; [apply chars_In; eapply nth_error_In; eauto|].
  pose proof (itos_get text _ c Hc) as Ei. pose proof (stoi_get text _ c Hc) as Es.
  rewrite Z2Nat.id in Ei, Es by lia. split; assumption.
Qed.

Lemma mapM_None_iff {A B : Type} (f : A -> option B) (l : list A) :
  mapM f l = None <-> exists a, In a l /\ f a = None.
Proof.
  split.
  - induction l as [|a l IH]; simpl; intros H; [discriminate|].
    destruct (f a) as [b|] eqn:Ea.
    + simpl in H. destruct (mapM f l) as [bs|]; [discriminate|].
      destruct (IH eq_refl) as [a' [Hin Hf]]. exists a'. auto.
    + exists a. auto.
  - intros [a [Hin Hf]]. apply (mapM_None f l a Hin Hf).
Qed.

Lemma encode_ok (text s : list char) :
  Forall (fun c => In c text) s ->
  exists l, encode text s = Some l /\
            Forall (fun i => (0 <= i < Z.of_nat (vocab_size_of text))%Z) l /\
            decode text l = Some s.
Proof.
  induction 1 as [|c s Hc Hs IH].
  - exists []. repeat split. constructor.
  - destruct IH as [l [El [Fl Dl]]].
    destruct (stoi_itos text c Hc) as [k [_ [Hk [Es Ei]]]].
    exists (Z.of_nat k :: l). unfold encode, decode in *. simpl.
    rewrite Es, El, Ei, Dl. simpl. repeat split. constructor; [lia | assumption].
Qed.

Lemma decode_ok (text : list char) (l : list Z) :
  Forall (fun i => (0 <= i < Z.of_nat (vocab_size_of text))%Z) l ->
  exists s, decode text l = Some s /\ Forall (fun c => In c text) s /\
            encode text s = Some l.
Proof.
  induction 1 as [|i l Hi Hl IH].
  - exists []. repeat split. constructor.
  - destruct IH as [s [Ds [Fs Es]]].
    destruct (itos_stoi text i Hi) as [c [Hc [Ei Ec]]].
    exists (c :: s). unfold encode, decode in *. simpl.
    rewrite Ei, Ds, Ec, Es. simpl. repeat split. constructor; assumption.
Qed.

(** X1.  [decode(encode(s)) == s] for every string made of characters of
    the text, and the codes of [encode(s)] lie in [0, vocab_size). *)
Theorem decode_encode_roundtrip (text s : list char) :
  Forall (fun c => In c text) s ->
  exists l, encode text s = Some l /\
            Forall (fun i => (0 <= i < Z.of_nat (vocab_size_of text))%Z) l /\
            decode text l = Some s.
Proof. apply encode_ok. Qed.

(** X2.  [encode(decode(l)) == l] for every list of codes in
    [0, vocab_size), and [decode(l)] is made of characters of the text. *)
Theorem encode_decode_roundtrip (text : list char) (l : list Z) :
  Forall (fun i => (0 <= i < Z.of_nat (vocab_size_of text))%Z) l ->
  exists s, decode text l = Some s /\ Forall (fun c => In c text) s /\
            encode text s = Some l.
Proof. apply decode_ok. Qed.

(** X3.  [encode] raises exactly when the string has a character that does
    not occur in the text, and [decode] raises exactly when the list has
    an integer outside [0, vocab_size), a negative one included. *)
Theorem codec_raises_exactly (text : list char) :
  (forall s, encode text s = None <-> exists c, In c s /\ ~ In c text) /\
  (forall l, decode text l = None <->
             exists i, In i l /\ ~ (0 <= i < Z.of_nat (vocab_size_of text))%Z).
Proof.
  split.
  - intros s. unfold encode. rewrite mapM_None_iff. split.
    + intros [c [Hin Hf]]. exists c. split; [assumption|]. intros Hc.
      destruct (stoi_itos text c Hc) as [k [_ [_ [Es _]]]]. congruence.
    + intros [c [Hin Hc]]. exists c. split; [assumption | apply stoi_missing; assumption].
  - intros l. unfold decode. rewrite mapM_None_iff. split.
    + intros [i [Hin Hf]]. exists i. split; [assumption|]. intros Hi.
      destruct (itos_stoi text i Hi) as [c [_ [Ei _]]]. congruence.
    + intros [i [Hin Hi]]. exists i. split; [assumption | apply itos_missing; assumption].
Qed.

Lemma insert_sorted_length (c : char) (l : list char) :
  length (insert_sorted c l) = S (length l).
Proof.
  induction l as [|a l IH]; simpl; [reflexivity|].
  destruct (c <=? a)%N; simpl; [reflexivity | rewrite IH; reflexivity].
Qed.

Lemma sorted_length (l : list char) : length (sorted l) = length l.
Proof.
  unfold sorted. induction l as [|a l IH]; simpl; [reflexivity|].
  rewrite insert_sorted_length. f_equal. exact IH.
Qed.

Lemma nodup_length_le (l : list char) : length (nodup N.eq_dec l) <= length l.
Proof.
  induction l as [|a l IH]; simpl; [lia|].
  destruct (in_dec N.eq_dec a l); simpl; lia.
Qed.

Lemma py_split_app {A : Type} (l : list A) (n : Z) :
  py_slice_to l n ++ py_slice_from l n = l.
Proof. unfold py_slice_to, py_slice_from. apply firstn_skipn. Qed.

(** X4.  The corpus always encodes: [encode(text)] raises for no text, it
    has one code in [0, vocab_size) per character, the vocabulary is not
    larger than the text and not empty unless the text is, and for every
    split point [n] the two splits [data[:n]] and [data[n:]] are made of
    such codes and put together give the data again. *)
Theorem corpus_encodes (text : list char) :
  vocab_size_of text <= length text /\
  (text <> [] -> 0 < vocab_size_of text) /\
  exists data,
    encode text text = Some data /\
    length data = length text /\
    Forall (fun i => (0 <= i < Z.of_nat (vocab_size_of text))%Z) data /\
    forall n,
      train_split data n ++ val_split data n = data /\
      length (train_split data n) + length (val_split data n) = length data /\
      Forall (fun i => (0 <= i < Z.of_nat (vocab_size_of text))%Z) (train_split data n) /\
      Forall (fun i => (0 <= i < Z.of_nat (vocab_size_of text))%Z) (val_split data n).
Proof.
  split; [|split].
  - unfold vocab_size_of, chars. rewrite sorted_length. apply nodup_length_le.
  - intros Hne. destruct text as [|c text]; [congruence|].
    assert (Hin : In c (chars (c :: text))) by (apply chars_In; left; reflexivity).
    unfold vocab_size_of. destruct (chars (c :: text)); [contradiction | simpl; lia].
  - destruct (encode_ok text text) as [data [Ed [Fd _]]].
    { apply Forall_forall. auto. }
    exists data. split; [exact Ed|]. split; [apply (mapM_length _ _ _ Ed)|].
    split; [exact Fd|]. intros n.
    pose proof (py_split_app data n) as Happ. unfold train_split, val_split.
    split; [exact Happ|]. split.
    + rewrite <- Happ at 3. rewrite length_app. reflexivity.
    + rewrite <- Happ in Fd. apply Forall_app in Fd. exact Fd.
Qed.

Lemma ascending_nth (l : list char) (k1 k2 : nat) (a b : char) :
  StronglySorted N.lt l -> nth_error l k1 = Some a -> nth_error l k2 = Some b ->
  k1 < k2 -> (a < b)%N.
Proof.
  intros Hs. revert k1 k2. induction Hs as [|x l Hs IH Hall]; intros k1 k2 H1 H2 Hlt.
  - destruct k1; discriminate.
  - destruct k2 as [|k2]; [lia|]. destruct k1 as [|k1]; simpl in *.
    + inversion H1; subst. rewrite Forall_forall in Hall. apply Hall.
      eapply nth_error_In; eauto.
    + apply (IH k1 k2); [assumption | assumption | lia].
Qed.

(** X5.  The codes follow the order of the characters: for two characters
    of the text, [stoi[c1] < stoi[c2]] exactly when [c1] has the smaller
    code point; in particular different characters get different codes. *)
Theorem stoi_is_monotone (text : list char) (c1 c2 : char) :
  In c1 text -> In c2 text ->
  exists i1 i2,
    dict_get N.eqb c1 (stoi text) = Some i1 /\
    dict_get N.eqb c2 (stoi text) = Some i2 /\
    ((i1 < i2)%Z <-> (c1 < c2)%N) /\
    (i1 = i2 <-> c1 = c2).
Proof.
  intros H1 H2.
  destruct (stoi_itos text c1 H1) as [k1 [N1 [_ [E1 _]]]].
  destruct (stoi_itos text c2 H2) as [k2 [N2 [_ [E2 _]]]].
  exists (Z.of_nat k1), (Z.of_nat k2). split; [exact E1|]. split; [exact E2|].
  pose proof (chars_ascending text) as Hs.
  assert (Hlt : forall ka kb a b, nth_error (chars text) ka = Some a ->
                nth_error (chars text) kb = Some b -> ka < kb -> (a < b)%N)
    by (intros; eapply ascending_nth; eauto).
  destruct (Nat.lt_trichotomy k1 k2) as [Hk|[Hk|Hk]].
  - pose proof (Hlt _ _ _ _ N1 N2 Hk). split; split; intros; try lia.
  - subst k2. assert (c1 = c2) by congruence. subst c2. split; split; intros; try lia; auto.
  - pose proof (Hlt _ _ _ _ N2 N1 Hk). split; split; intros; try lia.
Qed.

(** ** Position-wise layers *)

Lemma FeedForward_forward_pure (cfg : Config) (f : FeedForward) (B T : nat) (x : tensor3) :
  wf_FeedForward cfg f -> shape3 B T (n_embd cfg) x ->
  FeedForward_forward f x = Some (map (map (FeedForward_apply f)) x).
Proof.
  intros [H0 H2] Hx. unfold FeedForward_forward.
  destruct (Linear_forward_ok _ _ _ _ _ _ H0 Hx) as [E0 S0]. rewrite E0. cbn [bind].
  apply relu_shape in S0.
  destruct (Linear_forward_ok _ _ _ _ _ _ H2 S0) as [E2 _]. rewrite E2. f_equal.
  unfold relu, FeedForward_apply. rewrite !map_map. apply map_ext. intros xb.
  rewrite !map_map. reflexivity.
Qed.

(** X6.  The feed-forward block is position-wise: on an input of shape
    (B, T, D) it returns, at every position, the same function
    [Linear(ReLU(Linear(v)))] of the input vector at that position alone,
    so two inputs that agree at a position give the same output there, and
    the output has shape (B, T, D); a non-empty input of another width
    raises. *)
Theorem feed_forward_is_position_wise
        (cfg : Config) (f : FeedForward) (B T : nat) (x : tensor3) :
  wf_FeedForward cfg f ->
  (shape3 B T (n_embd cfg) x ->
   exists y, FeedForward_forward f x = Some y /\ shape3 B T (n_embd cfg) y /\
     (forall b t, b < B -> t < T ->
        nth t (nth b y []) [] = FeedForward_apply f (nth t (nth b x []) [])) /\
     (forall x' y', shape3 B T (n_embd cfg) x' -> FeedForward_forward f x' = Some y' ->
        forall b t, b < B -> t < T ->
          nth t (nth b x []) [] = nth t (nth b x' []) [] ->
          nth t (nth b y []) [] = nth t (nth b y' []) [])) /\
  (forall D', shape3 B T D' x -> 0 < B -> 0 < T -> D' <> n_embd cfg ->
     FeedForward_forward f x = None).
Proof.
  intros Hwf. split.
  - intros Hx. pose proof (FeedForward_forward_pure cfg f B T x Hwf Hx) as E.
    destruct (FeedForward_forward_ok cfg f B T x Hwf Hx) as [y [Ey Sy]].
    exists y. split; [exact Ey|]. split; [exact Sy|].
    assert (Hy : y = map (map (FeedForward_apply f)) x) by congruence.
    assert (Hpos : forall z, shape3 B T (n_embd cfg) z -> forall b t, b < B -> t < T ->
              nth t (nth b (map (map (FeedForward_apply f)) z) []) []
              = FeedForward_apply f (nth t (nth b z []) [])).
    { intros z Hz b t Hb Ht. destruct (shape3_nth B T _ z b Hz Hb) as [HT _].
      destruct Hz as [HB _].
      rewrite (nth_map_default (map (FeedForward_apply f)) z b [] []) by lia.
      rewrite (nth_map_default (FeedForward_apply f) _ t [] []) by lia. reflexivity. }
    split.
    + intros b t Hb Ht. rewrite Hy. apply Hpos; assumption.
    + intros x' y' Hx' Ey' b t Hb Ht Heq.
      rewrite (FeedForward_forward_pure cfg f B T x' Hwf Hx') in Ey'.
      inversion Ey'; subst y'. rewrite Hy, !Hpos by assumption. rewrite Heq. reflexivity.
  - intros D' Hx HB HT HD. unfold FeedForward_forward.
    rewrite (Linear_forward_width (net0 f) B T D' x Hx HB HT); [reflexivity|].
    destruct Hwf as [[Hin _] _]. rewrite Hin. exact HD.
Qed.

(** ** More on one attention head *)

Lemma sliced_mask_length (bs T : nat) :
  length (eq_zero (slice2 T T (torch_tril (torch_ones bs bs)))) = Nat.min T bs.
Proof.
  unfold eq_zero, slice2. rewrite !length_map, length_firstn.
  unfold torch_tril. rewrite mapi_length. unfold torch_ones. rewrite repeat_length. reflexivity.
Qed.

(** X8.  A head raises on every non-empty batch whose inputs are longer
    than [block_size], unless [block_size] is 1: the sliced mask keeps
    [block_size] rows and cannot be broadcast to the T x T scores. *)
Theorem head_rejects_long_input
        (cfg : Config) (head_size : nat) (h : Head) (B T : nat) (x : tensor3) :
  wf_Head cfg head_size h ->
  shape3 B T (n_embd cfg) x -> 0 < B ->
  block_size cfg < T -> block_size cfg <> 1 ->
  Head_forward h x = None.
Proof.
  intros [Hk [Hq [_ Htril]]] [HB Hx] HB0 HT Hbs.
  destruct x as [|xb x']; [simpl in HB; lia|].
  inversion Hx as [|? ? Hxb _]; subst.
  apply mapM_None with (a := xb); [left; reflexivity|].
  unfold Head_mat, Head_weights.
  destruct (Linear_mat_ok _ _ _ _ _ Hk Hxb) as [Ek _]. rewrite Ek.
  destruct (Linear_mat_ok _ _ _ _ _ Hq Hxb) as [Eq _]. rewrite Eq.
  cbn [bind]. destruct (pow_neg_half (out_features (key h))); [|reflexivity].
  cbn [bind]. unfold masked_fill.
  pose proof (sliced_mask_length (block_size cfg) (length xb)) as Hlen.
  rewrite <- Htril in Hlen. destruct Hxb as [HxT _].
  set (mask := eq_zero (slice2 (length xb) (length xb) (tril h))) in *.
  unfold expand at 1. rewrite !length_map.
  destruct (Nat.eqb_spec (length mask) (length xb)) as [He|_]; [lia|].
  destruct mask as [|a [|a' mask']]; [reflexivity | simpl in Hlen; lia | reflexivity].
Qed.

Lemma expand_one {A : Type} (n : nat) (a : A) : expand n [a] = Some (repeat a n).
Proof. unfold expand. simpl. destruct n as [|[|n]]; reflexivity. Qed.

(** ** Inputs the model rejects *)

Lemma Embedding_lookup_outside (n d : nat) (e : Embedding) (i : Z) :
  wf_Embedding n d e -> ~ (0 <= i < Z.of_nat n)%Z -> Embedding_lookup e i = None.
Proof.
  intros [Hn _] Hi. unfold Embedding_lookup. rewrite Hn.
  destruct (Z.leb_spec 0 i); destruct (Z.ltb_spec i (Z.of_nat n)); simpl; try reflexivity. lia.
Qed.

(** X10.  The forward pass raises, with or without targets, on every
    non-empty batch of sequences longer than [block_size]: the position
    table has no row for position [block_size]. *)
Theorem forward_rejects_long_context
        (cfg : Config) (m : BigramLanguageModel) (B T : nat) (idx : list (list Z))
        (targets : option (list (list Z))) :
  wf_BigramLanguageModel cfg m ->
  zshape2 B T idx -> 0 < B -> block_size cfg < T ->
  forward m idx targets = None.
Proof.
  intros [_ [Hpos _]] [HB Hrows] HB0 HT. unfold forward.
  destruct (mapM (mapM (Embedding_lookup (token_embedding_table m))) idx); [|reflexivity].
  cbn [bind]. rewrite (dim1_shape B T idx HB Hrows HB0).
  rewrite mapM_None with (a := Z.of_nat (block_size cfg)); [reflexivity | |].
  - unfold arange. apply in_map. apply in_seq. lia.
  - apply (Embedding_lookup_outside _ _ _ _ Hpos). lia.
Qed.

(** X11.  The forward pass raises, with or without targets, as soon as one
    entry of the input is not a code in [0, vocab_size): the token table has
    no such row. *)
Theorem forward_rejects_unknown_token
        (cfg : Config) (m : BigramLanguageModel) (idx : list (list Z))
        (targets : option (list (list Z))) (row : list Z) (i : Z) :
  wf_BigramLanguageModel cfg m ->
  In row idx -> In i row -> ~ (0 <= i < Z.of_nat (vocab_size cfg))%Z ->
  forward m idx targets = None.
Proof.
  intros [Htok _] Hrow Hi Hout. unfold forward.
  rewrite mapM_None with (a := row); [reflexivity | exact Hrow |].
  apply mapM_None with (a := i); [exact Hi|].
  apply (Embedding_lookup_outside _ _ _ _ Htok Hout).
Qed.

(** ** Prefixes in time *)

Lemma mapM_firstn {A B : Type} (f : A -> option B) (k : nat) (l : list A) (r : list B) :
  mapM f l = Some r -> mapM f (firstn k l) = Some (firstn k r).
Proof.
  revert k r. induction l as [|a l IH]; intros k r H; simpl in H.
  - inversion H; subst. rewrite !firstn_nil. reflexivity.
  - inv_bind H. inv_bind H. inversion H; subst. destruct k as [|k]; simpl.
    + reflexivity.
    + rewrite Ha. cbn [bind]. rewrite (IH k _ Ha0). reflexivity.
Qed.

Lemma mapM_map {A A' B B' : Type} (f : A -> option B) (f' : A' -> option B')
      (g : A -> A') (g' : B -> B') (l : list A) (r : list B) :
  (forall a b, f a = Some b -> f' (g a) = Some (g' b)) ->
  mapM f l = Some r -> mapM f' (map g l) = Some (map g' r).
Proof.
  intros Hfg. revert r. induction l as [|a l IH]; intros r H; simpl in H.
  - inversion H; subst. reflexivity.
  - inv_bind H. inv_bind H. inversion H; subst. simpl.
    rewrite (Hfg _ _ Ha). cbn [bind]. rewrite (IH _ Ha0). reflexivity.
Qed.

Lemma mapM2_prefix {A B : Type} (f : A -> option B) (k : nat)
      (x : list (list A)) (y : list (list B)) :
  mapM (mapM f) x = Some y -> mapM (mapM f) (time_prefix k x) = Some (time_prefix k y).
Proof.
  apply mapM_map. intros a b. apply mapM_firstn.
Qed.

Lemma zipM_firstn {A B C : Type} (f : A -> B -> option C) (k : nat)
      (a : list A) (b : list B) (c : list C) :
  zipM f a b = Some c -> zipM f (firstn k a) (firstn k b) = Some (firstn k c).
Proof.
  revert k b c. induction a as [|x a IH]; intros k [|y b] c H; simpl in H; try discriminate.
  - inversion H; subst. rewrite !firstn_nil. reflexivity.
  - inv_bind H. inv_bind H. inversion H; subst. destruct k as [|k]; simpl.
    + reflexivity.
    + rewrite Ha. cbn [bind]. rewrite (IH k _ _ Ha0). reflexivity.
Qed.

Lemma zipM_map {A B C : Type} (f : A -> B -> option C)
      (g : A -> A) (g' : B -> B) (g'' : C -> C) (a : list A) (b : list B) (c : list C) :
  (forall x y z, f x y = Some z -> f (g x) (g' y) = Some (g'' z)) ->
  zipM f a b = Some c -> zipM f (map g a) (map g' b) = Some (map g'' c).
Proof.
  intros Hf. revert b c. induction a as [|x a IH]; intros [|y b] c H; simpl in H; try discriminate.
  - inversion H; subst. reflexivity.
  - inv_bind H. inv_bind H. inversion H; subst. simpl.
    rewrite (Hf _ _ _ Ha). cbn [bind]. rewrite (IH _ _ Ha0). reflexivity.
Qed.

Lemma map2_map_both {A B : Type} (f : A -> A -> A) (g : A -> B) (f' : B -> B -> B)
      (l1 l2 : list A) :
  (forall x y, f' (g x) (g y) = g (f x y)) ->
  map2 f' (map g l1) (map g l2) = map g (map2 f l1 l2).
Proof.
  intros H. revert l2. induction l1 as [|a l1 IH]; intros [|b l2]; simpl; auto.
  rewrite H, IH. reflexivity.
Qed.

Lemma mapM_post {A B : Type} (f f' : A -> option B) (g : B -> B) (l : list A) (r : list B) :
  (forall a b, In a l -> f a = Some b -> f' a = Some (g b)) ->
  mapM f l = Some r -> mapM f' l = Some (map g r).
Proof.
  revert r. induction l as [|a l IH]; intros r Hfg H; simpl in H.
  - inversion H; subst. reflexivity.
  - inv_bind H. inv_bind H. inversion H; subst. simpl.
    rewrite (Hfg a _ (or_introl eq_refl) Ha). cbn [bind].
    rewrite (IH _ (fun a' b' Hin => Hfg a' b' (or_intror Hin)) Ha0). reflexivity.
Qed.

Lemma arange_firstn (k T : nat) : firstn k (arange T) = arange (Nat.min k T).
Proof.
  unfold arange. change (map Z.of_nat (seq 0 T)) with (tabulate T Z.of_nat).
  change (map Z.of_nat (seq 0 (Nat.min k T))) with (tabulate (Nat.min k T) Z.of_nat).
  destruct (Nat.le_ge_cases k T) as [H|H].
  - rewrite firstn_tabulate by assumption. rewrite Nat.min_l by assumption. reflexivity.
  - rewrite firstn_all2 by (rewrite tabulate_length; assumption).
    rewrite Nat.min_r by assumption. reflexivity.
Qed.

(** The embedded input of a forward pass. *)
Lemma embed_ok (cfg : Config) (m : BigramLanguageModel) (B T : nat) (idx : list (list Z)) :
  wf_BigramLanguageModel cfg m ->
  zshape2 B T idx -> codes_in (vocab_size cfg) idx -> T <= block_size cfg ->
  exists tok pos,
    mapM (mapM (Embedding_lookup (token_embedding_table m))) idx = Some tok /\
    mapM (Embedding_lookup (position_embedding_table m)) (arange (dim1 idx)) = Some pos /\
    shape3 B T (n_embd cfg) (map (fun te => madd te pos) tok).
Proof.
  intros [Htok [Hpos _]] [HB Hrows] Hcodes HT.
  destruct (mapM_total (mapM (Embedding_lookup (token_embedding_table m)))
                       (shape2 T (n_embd cfg)) idx) as [tok [Etok [Ltok Stok]]].
  { intros r Hr. rewrite Forall_forall in Hrows. unfold codes_in in Hcodes.
    rewrite Forall_forall in Hcodes. specialize (Hcodes r Hr).
    destruct (mapM_total (Embedding_lookup (token_embedding_table m))
                         (shape1 (n_embd cfg)) r) as [te [Ete [Lte Ste]]].
    { intros i Hi. rewrite Forall_forall in Hcodes.
      apply (Embedding_lookup_ok _ _ _ i Htok (Hcodes i Hi)). }
    exists te. split; [exact Ete|]. split; [rewrite Lte; apply Hrows; assumption | exact Ste]. }
  assert (Hdim : dim1 idx <= block_size cfg).
  { destruct idx as [|r idx']; simpl; [lia|]. inversion Hrows; subst. assumption. }
  destruct (mapM_total (Embedding_lookup (position_embedding_table m))
                       (shape1 (n_embd cfg)) (arange (dim1 idx))) as [pos [Epos [Lpos Spos]]].
  { intros i Hi. pose proof (arange_codes (dim1 idx) (block_size cfg) Hdim) as HF.
    rewrite Forall_forall in HF. apply (Embedding_lookup_ok _ _ _ i Hpos (HF i Hi)). }
  exists tok, pos. split; [exact Etok|]. split; [exact Epos|].
  split; [rewrite length_map; lia|].
  apply Forall_forall. intros y Hy. apply in_map_iff in Hy. destruct Hy as [te [<- Hte]].
  rewrite Forall_forall in Stok. apply madd_shape; [apply Stok; assumption|].
  split; [|exact Spos]. rewrite Lpos. unfold arange. rewrite length_map, length_seq.
  apply (dim1_shape B T idx HB Hrows).
  destruct tok; [contradiction | simpl in Ltok; lia].
Qed.

Lemma nth_time_prefix {A : Type} (k t b : nat) (x : list (list (list A))) :
  t < k -> nth t (nth b (time_prefix k x) []) [] = nth t (nth b x []) [].
Proof.
  intros Ht. unfold time_prefix.
  rewrite (nth_map_nil (firstn k)) by apply firstn_nil.
  rewrite nth_firstn. destruct (Nat.ltb_spec t k); [reflexivity | lia].
Qed.

(** ** More on generation *)

(** X13.  Generation needs a context: on a non-empty batch of sequences
    with no time step, a request for at least one new symbol raises (there
    is no last time step to read the logits from). *)
Theorem generate_rejects_empty_context
        (cfg : Config) (E : RandomEngine) (m : BigramLanguageModel)
        (B : nat) (idx : list (list Z)) (max_new_tokens : Z) (g : RNG) :
  wf_BigramLanguageModel cfg m -> 0 < n_embd cfg -> n_embd cfg mod 4 = 0 ->
  zshape2 B 0 idx -> 0 < B -> (1 <= max_new_tokens)%Z ->
  generate cfg m idx max_new_tokens g = None.
Proof.
  intros Hwf HD Hmod [HB Hrows] HB0 Hn. unfold generate.
  destruct (Z.to_nat max_new_tokens) as [|n] eqn:En; [lia|].
  cbn [generate_loop]. unfold generate_step.
  assert (Econd : map (fun r => py_slice_from r (- Z.of_nat (block_size cfg))) idx = idx).
  { rewrite <- (map_id idx) at 2. apply map_ext_in. intros r Hr.
    rewrite Forall_forall in Hrows. specialize (Hrows r Hr).
    destruct r; [|discriminate]. unfold py_slice_from. apply skipn_nil. }
  rewrite Econd.
  assert (Hc : codes_in (vocab_size cfg) idx).
  { apply Forall_forall. intros r Hr. rewrite Forall_forall in Hrows. specialize (Hrows r Hr).
    destruct r; [constructor | discriminate]. }
  destruct (forward_ok cfg m B 0 idx Hwf HD Hmod (conj HB Hrows) Hc (Nat.le_0_l _))
    as [logits [[LB Sl] Hf]].
  rewrite (Hf None). cbn [bind last_step].
  destruct logits as [|rows logits]; [simpl in LB; lia|].
  inversion Sl as [|? ? [HT _] _]; subst.
  destruct rows; [|discriminate]. reflexivity.
Qed.

Lemma generate_loop_add (cfg : Config) (E : RandomEngine) (m : BigramLanguageModel)
      (n1 n2 : nat) (idx : list (list Z)) (g : RNG) :
  generate_loop cfg m (n1 + n2) idx g =
  ('(idx1, g1) <- generate_loop cfg m n1 idx g ;; generate_loop cfg m n2 idx1 g1).
Proof.
  revert idx g. induction n1 as [|n1 IH]; intros idx g; simpl.
  - reflexivity.
  - destruct (generate_step cfg m idx g) as [[idx' g']|]; [|reflexivity].
    cbn [bind]. apply IH.
Qed.

(** X14.  Generation can be resumed: asking for [n1 + n2] symbols is asking
    for [n1] and then, from the sequence and the generator state reached,
    for [n2] more; a count of zero or less returns the seed itself and
    leaves the generator untouched. *)
Theorem generate_composes
        (cfg : Config) (E : RandomEngine) (m : BigramLanguageModel)
        (idx : list (list Z)) (g : RNG) :
  (forall n1 n2, (0 <= n1)%Z -> (0 <= n2)%Z ->
     generate cfg m idx (n1 + n2) g =
     ('(idx1, g1) <- generate cfg m idx n1 g ;; generate cfg m idx1 n2 g1)) /\
  (forall n, (n <= 0)%Z -> generate cfg m idx n g = Some (idx, g)).
Proof.
  split.
  - intros n1 n2 H1 H2. unfold generate. rewrite Z2Nat.inj_add by assumption.
    apply generate_loop_add.
  - intros n Hn. unfold generate. replace (Z.to_nat n) with 0 by lia. reflexivity.
Qed.


(** ** More on batches and training *)

(** X16.  In every batch the targets are the inputs moved one step to the
    left: [y[b][t] = x[b][t+1]] for t + 1 < block_size, so the target at a
    position is the input the model sees at the next one. *)
Theorem get_batch_targets_are_shifted_inputs
        (cfg : Config) (E : RandomEngine) (train_data val_data : list Z)
        (split : string) (g : RNG) :
  RandomEngineLaws E ->
  block_size cfg < length (selected train_data val_data split) -> 0 < batch_size cfg ->
  exists x y g',
    get_batch cfg train_data val_data split g = Some (x, y, g') /\
    forall b t, b < batch_size cfg -> t + 1 < block_size cfg ->
      nth t (nth b y []) 0%Z = nth (t + 1) (nth b x []) 0%Z.
Proof.
  intros Hlaws Hlong HB.
  destruct (get_batch_ok cfg Hlaws train_data val_data split g Hlong HB)
    as [ix [g' [_ [Hlen [_ Eg]]]]].
  eexists _, _, g'. split; [exact Eg|]. intros b t Hb Ht.
  rewrite (nth_map_default _ ix b 0%Z []) by lia.
  rewrite (nth_map_default _ ix b 0%Z []) by lia.
  rewrite !nth_window by lia. f_equal. lia.
Qed.

(** X17.  A split that is not longer than a window stops the training in
    its first iteration: with [max_iters >= 1] the loop raises when the
    training split has at most [block_size] symbols, and also when the
    validation split has and at least one evaluation batch is asked for. *)
Theorem train_rejects_short_splits
        (cfg : Config) (E : RandomEngine) (Optim : Optimizer)
        (train_data val_data : list Z) (s : State) :
  RandomEngineLaws E -> 0 < max_iters cfg ->
  length train_data <= block_size cfg \/
  (length val_data <= block_size cfg /\ 0 < eval_iters cfg) ->
  train cfg train_data val_data s = None.
Proof.
  intros Hlaws Hmax Hshort. unfold train.
  destruct (max_iters cfg) as [|n]; [lia|]. cbn [seq train_loop].
  assert (Hiter : train_iter cfg train_data val_data 0 s = None); [|rewrite Hiter; reflexivity].
  unfold train_iter.
  assert (Htrain : forall g, length train_data <= block_size cfg ->
                             get_batch cfg train_data val_data "train" g = None).
  { intros g H. apply (get_batch_short cfg Hlaws). exact H. }
  assert (Hval : forall g, length val_data <= block_size cfg ->
                           get_batch cfg train_data val_data "val" g = None).
  { intros g H. apply (get_batch_short cfg Hlaws). exact H. }
  destruct (eval_interval cfg =? 0)%nat; [reflexivity|].
  rewrite Nat.Div0.mod_0_l. cbn [Nat.eqb].
  rewrite estimate_loss_eq.
  destruct Hshort as [Ht|[Hv Hei]].
  - destruct (batch_losses cfg train_data val_data (model s) "train" (eval_iters cfg) (rng s))
      as [[lt g1]|]; [|reflexivity]. cbn [bind].
    destruct (batch_losses cfg train_data val_data (model s) "val" (eval_iters cfg) g1)
      as [[lv g2]|]; [|reflexivity]. cbn.
    unfold get_batch_st. cbn. rewrite (Htrain g2 Ht). reflexivity.
  - destruct (batch_losses cfg train_data val_data (model s) "train" (eval_iters cfg) (rng s))
      as [[lt g1]|]; [|reflexivity]. cbn [bind].
    destruct (eval_iters cfg) as [|k]; [lia|]. cbn [batch_losses].
    rewrite (Hval g1 Hv). reflexivity.
Qed.

Lemma evaluations_step (n e : nat) :
  0 < e ->
  if (n mod e =? 0)%nat
  then evaluations (S n) e = S (evaluations n e) /\ n = evaluations n e * e
  else evaluations (S n) e = evaluations n e.
Proof.
  intros He. unfold evaluations.
  pose proof (Nat.div_mod_eq n e) as Hdm.
  pose proof (Nat.mod_upper_bound n e ltac:(lia)) as Hr.
  set (q := n / e) in *. set (r := n mod e) in *.
  assert (HS : (S n + e - 1) / e = S q).
  { symmetry. apply (Nat.div_unique _ _ _ r); [lia | nia]. }
  destruct (Nat.eqb_spec r 0) as [Hz|Hnz].
  - assert (Hn : (n + e - 1) / e = q).
    { symmetry. apply (Nat.div_unique _ _ _ (e - 1)); [lia | nia]. }
    rewrite HS, Hn. split; [reflexivity | nia].
  - assert (Hn : (n + e - 1) / e = S q).
    { symmetry. apply (Nat.div_unique _ _ _ (r - 1)); [lia | nia]. }
    rewrite HS, Hn. reflexivity.
Qed.

Lemma filter_multiples (n e : nat) :
  0 < e ->
  filter (fun i => (i mod e =? 0)%nat) (seq 0 n) = map (fun j => j * e) (seq 0 (evaluations n e)).
Proof.
  intros He. induction n as [|n IH].
  - unfold evaluations. rewrite Nat.div_small by lia. reflexivity.
  - rewrite seq_S, filter_app, IH. cbn [filter Nat.add].
    pose proof (evaluations_step n e He) as Hs.
    destruct (n mod e =? 0)%nat.
    + destruct Hs as [HS Hn]. rewrite HS, seq_S, map_app. cbn [map Nat.add].
      rewrite <- Hn. reflexivity.
    + rewrite Hs, app_nil_r. reflexivity.
Qed.

Lemma filter_repeat_true {A : Type} (f : A -> bool) (a : A) (n : nat) :
  f a = true -> filter f (repeat a n) = repeat a n.
Proof. intros H. induction n as [|n IH]; simpl; [reflexivity | rewrite H, IH; reflexivity]. Qed.

Lemma filter_repeat_false {A : Type} (f : A -> bool) (a : A) (n : nat) :
  f a = false -> filter f (repeat a n) = [].
Proof. intros H. induction n as [|n IH]; simpl; [reflexivity | rewrite H, IH; reflexivity]. Qed.

Lemma count_steps (cfg : Config) (iters : list nat) :
  length (filter is_optimizer_step (flat_map (iter_events cfg) iters)) = length iters.
Proof.
  induction iters as [|i iters IH]; [reflexivity|].
  cbn [flat_map]. rewrite filter_app, length_app, IH. unfold iter_events.
  rewrite filter_app. destruct (i mod eval_interval cfg =? 0)%nat.
  - rewrite filter_repeat_false by reflexivity. reflexivity.
  - reflexivity.
Qed.

Lemma count_eval_forwards (cfg : Config) (iters : list nat) :
  length (filter is_eval_forward (flat_map (iter_events cfg) iters)) =
  2 * eval_iters cfg * length (filter (fun i => (i mod eval_interval cfg =? 0)%nat) iters).
Proof.
  induction iters as [|i iters IH]; [simpl; lia|].
  cbn [flat_map filter]. rewrite filter_app, length_app, IH. unfold iter_events.
  rewrite filter_app. destruct (i mod eval_interval cfg =? 0)%nat.
  - rewrite filter_repeat_true by reflexivity. rewrite length_app, repeat_length.
    cbn [filter is_eval_forward length]. lia.
  - cbn. lia.
Qed.

(** X18.  The schedule of a training run that completes, with
    [eval_interval >= 1]: one optimiser step in each of the [max_iters]
    iterations; a report at the iterations 0, eval_interval,
    2*eval_interval, ... below [max_iters], that is
    ceil(max_iters / eval_interval) reports; and 2*eval_iters
    evaluation-mode forward passes for each report. *)
Theorem training_schedule
        (cfg : Config) (E : RandomEngine) (Optim : Optimizer)
        (train_data val_data : list Z) (s s' : State) :
  train cfg train_data val_data s = Some s' ->
  training s = true -> grad_enabled s = true -> 0 < eval_interval cfg ->
  map rep_iter (stdout s') =
    map rep_iter (stdout s)
    ++ map (fun j => j * eval_interval cfg)
           (seq 0 (evaluations (max_iters cfg) (eval_interval cfg))) /\
  length (stdout s') =
    length (stdout s) + evaluations (max_iters cfg) (eval_interval cfg) /\
  length (filter is_optimizer_step (history s')) =
    length (filter is_optimizer_step (history s)) + max_iters cfg /\
  length (filter is_eval_forward (history s')) =
    length (filter is_eval_forward (history s))
    + 2 * eval_iters cfg * evaluations (max_iters cfg) (eval_interval cfg).
Proof.
  intros H Ht Hg He.
  destruct (train_loop_sound cfg train_data val_data _ s s' H Ht Hg) as [_ [_ [Hh Hout]]].
  rewrite (filter_multiples _ _ He) in Hout.
  split; [exact Hout|]. split; [|split].
  - apply (f_equal (@length nat)) in Hout.
    rewrite length_app, !length_map, length_seq in Hout. exact Hout.
  - rewrite Hh, filter_app, length_app, count_steps, length_seq. reflexivity.
  - rewrite Hh, filter_app, length_app, count_eval_forwards.
    rewrite (filter_multiples _ _ He), length_map, length_seq. reflexivity.
Qed.

(** ** The whole script *)

Lemma train_loop_total_wf
      (cfg : Config) (E : RandomEngine) (Optim : Optimizer) (train_data val_data : list Z) :
  RandomEngineLaws E -> valid_config cfg -> OptimizerLaws cfg Optim ->
  block_size cfg < length train_data -> block_size cfg < length val_data ->
  Forall (fun i => (0 <= i < Z.of_nat (vocab_size cfg))%Z) train_data ->
  Forall (fun i => (0 <= i < Z.of_nat (vocab_size cfg))%Z) val_data ->
  forall iters s,
    wf_BigramLanguageModel cfg (model s) -> training s = true -> grad_enabled s = true ->
    exists s', train_loop cfg train_data val_data iters s = Some s' /\
               wf_BigramLanguageModel cfg (model s').
Proof.
  intros Hlaws Hcfg Hopt Htl Hvl Htc Hvc iters.
  induction iters as [|i iters IH]; intros s Hwf Ht Hg; simpl.
  - eauto.
  - destruct (train_iter_total cfg train_data val_data Hlaws Hcfg Htl Hvl Htc Hvc Hopt i s Hwf Hg)
      as [s1 [E1 Hwf1]].
    rewrite E1. cbn [bind].
    destruct (train_iter_sound cfg train_data val_data i s s1 E1 Ht Hg) as [Ht1 [Hg1 _]].
    apply IH; assumption.
Qed.


(** ** One row of a batch *)

Lemma mapM_row {A B : Type} (f : list A -> option (list B)) (b : nat)
      (x : list (list A)) (y : list (list B)) :
  mapM f x = Some y -> b < length x -> mapM f (batch_row b x) = Some (batch_row b y).
Proof.
  intros H Hb. unfold batch_row.
  destruct (mapM_nth_error f x y b (nth b x []) H (nth_error_nth' x [] Hb)) as [yb [Hy Hf]].
  simpl. rewrite Hf. cbn [bind]. rewrite (nth_error_nth y b [] Hy). reflexivity.
Qed.

Lemma zipM_row {A : Type} (f : list A -> list A -> option (list A)) (b : nat)
      (x y z : list (list A)) :
  zipM f x y = Some z -> b < length x ->
  zipM f (batch_row b x) (batch_row b y) = Some (batch_row b z).
Proof.
  unfold batch_row. revert b y z. induction x as [|a x IH]; intros b [|c y] z H Hb;
    simpl in H; try discriminate; simpl in Hb; [lia|].
  inv_bind H. inv_bind H. inversion H; subst. destruct b as [|b].
  - simpl. rewrite Ha. reflexivity.
  - cbn [nth]. apply IH; [exact Ha0 | lia].
Qed.

Lemma cat_last_row (b : nat) (ts : list tensor3) (c : tensor3) :
  cat_last ts = Some c -> b < length c ->
  cat_last (map (batch_row b) ts) = Some (batch_row b c).
Proof.
  revert c. induction ts as [|t ts IH]; intros c H Hb; [discriminate|].
  destruct ts as [|t' ts'].
  - simpl in *. inversion H; subst. reflexivity.
  - change (cat_last (t :: t' :: ts')) with (bind (cat_last (t' :: ts')) (fun r => cat_tensor3 t r)) in H.
    inv_bind H. rename a into r.
    destruct (zipM_length _ _ _ _ H) as [Ltr Lc].
    change (cat_last (map (batch_row b) (t :: t' :: ts')))
      with (bind (cat_last (map (batch_row b) (t' :: ts')))
                 (fun r => cat_tensor3 (batch_row b t) r)).
    rewrite (IH r Ha) by lia. cbn [bind].
    apply (zipM_row (@cat_mat R) b t r c H). lia.
Qed.

Lemma tadd_row (b : nat) (x a : tensor3) :
  b < length x -> b < length a ->
  tadd (batch_row b x) (batch_row b a) = batch_row b (tadd x a).
Proof.
  intros Hx Ha. unfold batch_row, tadd. simpl. f_equal. symmetry.
  apply map2_nth; assumption.
Qed.

Lemma relu_row (b : nat) (x : tensor3) : relu (batch_row b x) = batch_row b (relu x).
Proof.
  unfold batch_row, relu. simpl. f_equal. symmetry.
  apply (nth_map_nil (map (map (Rmax 0)))). reflexivity.
Qed.

Lemma Block_forward_row (cfg : Config) (n_head : nat) (blk : Block)
      (B T b : nat) (x y : tensor3) :
  wf_Block cfg n_head blk ->
  0 < n_head -> 0 < n_embd cfg -> n_embd cfg mod n_head = 0 ->
  shape3 B T (n_embd cfg) x -> T <= block_size cfg -> b < B ->
  Block_forward blk x = Some y ->
  Block_forward blk (batch_row b x) = Some (batch_row b y).
Proof.
  intros Hwf Hnh HD Hmod Hx HT Hb H.
  destruct (Block_forward_ok cfg n_head blk B T x Hwf Hnh HD Hmod Hx HT)
    as [n1 [a [n2 [f [E1 [Ea [Sa [E2 [Ef [Sf [E _]]]]]]]]]]].
  rewrite E in H. inversion H; subst y. clear H E.
  pose proof Hx as [LB _]. pose proof Sa as [LA _]. pose proof Sf as [LF _].
  unfold Block_forward.
  unfold LayerNorm_forward in *.
  rewrite (mapM_row _ b _ _ E1) by lia. cbn [bind].
  assert (L1 : length n1 = B) by (rewrite (mapM_length _ _ _ E1); exact LB).
  assert (Ema : MultiHeadAttention_forward (sa blk) (batch_row b n1) = Some (batch_row b a)).
  { unfold MultiHeadAttention_forward in *. inv_bind Ea. rename a0 into outs.
    inv_bind Ea. rename a0 into c.
    assert (Lc : length c = B).
    { unfold Linear_forward in Ea. rewrite <- (mapM_length _ _ _ Ea). exact LA. }
    rewrite (mapM_post (fun h => Head_forward h n1) (fun h => Head_forward h (batch_row b n1))
                       (batch_row b) (heads (sa blk)) outs).
    - cbn [bind]. rewrite (cat_last_row b outs c Ha0) by lia. cbn [bind].
      unfold Linear_forward in *. apply mapM_row; [exact Ea | lia].
    - intros h o _ Ho. unfold Head_forward in *. apply mapM_row; [exact Ho | lia].
    - exact Ha. }
  rewrite Ema. cbn [bind]. rewrite tadd_row by lia.
  assert (Lxa : length (tadd x a) = B) by (unfold tadd; rewrite map2_length; lia).
  rewrite (mapM_row _ b _ _ E2) by lia. cbn [bind].
  assert (L2 : length n2 = B) by (rewrite (mapM_length _ _ _ E2); exact Lxa).
  assert (Eff : FeedForward_forward (ffwd blk) (batch_row b n2) = Some (batch_row b f)).
  { unfold FeedForward_forward in *. inv_bind Ef. rename a0 into hdn.
    unfold Linear_forward in *.
    rewrite (mapM_row _ b _ _ Ha) by lia. cbn [bind]. rewrite relu_row.
    apply mapM_row; [exact Ef|]. unfold relu. rewrite length_map.
    rewrite (mapM_length _ _ _ Ha). lia. }
  rewrite Eff. cbn [bind]. rewrite tadd_row by lia. reflexivity.
Qed.

Lemma row_shape3 (B T D b : nat) (x : tensor3) :
  shape3 B T D x -> b < B -> shape3 1 T D (batch_row b x).
Proof.
  intros Hx Hb. split; [reflexivity|]. constructor; [|constructor].
  apply (shape3_nth B T D x b Hx Hb).
Qed.

Lemma blocks_forward_row (cfg : Config) (bs : list Block) (B T b : nat) (x y : tensor3) :
  Forall (wf_Block cfg 4) bs -> 0 < n_embd cfg -> n_embd cfg mod 4 = 0 ->
  shape3 B T (n_embd cfg) x -> T <= block_size cfg -> b < B ->
  blocks_forward bs x = Some y ->
  blocks_forward bs (batch_row b x) = Some (batch_row b y).
Proof.
  intros Hbs HD Hmod. revert x.
  induction Hbs as [|blk bs Hblk Hbs IH]; intros x Hx HT Hb H; simpl in *.
  - inversion H; subst. reflexivity.
  - inv_bind H. rename a into x1.
    rewrite (Block_forward_row cfg 4 blk B T b x x1 Hblk (Nat.lt_0_succ 3) HD Hmod Hx HT Hb Ha).
    cbn [bind]. apply IH; [|exact HT | exact Hb | exact H].
    destruct (Block_forward_ok cfg 4 blk B T x Hblk (Nat.lt_0_succ 3) HD Hmod Hx HT)
      as [n1 [a [n2 [f [_ [_ [_ [_ [_ [_ [E S]]]]]]]]]]].
    rewrite E in Ha. inversion Ha; subst x1. exact S.
Qed.

(** X21.  The rows of a batch do not interact in the forward pass: on an
    input of shape (B, T) with T <= block_size, the logits of row [b] are
    the logits the model returns for row [b] alone, so they do not change
    when the other rows do. *)
Theorem logits_of_a_row_ignore_the_batch
        (cfg : Config) (m : BigramLanguageModel) (B T : nat) (idx : list (list Z)) :
  wf_BigramLanguageModel cfg m -> 0 < n_embd cfg -> n_embd cfg mod 4 = 0 ->
  zshape2 B T idx -> codes_in (vocab_size cfg) idx -> T <= block_size cfg ->
  exists lg,
    forward m idx None = Some (Logits3 lg, None) /\
    forall b, b < B ->
      forward m (batch_row b idx) None = Some (Logits3 (batch_row b lg), None).
Proof.
  intros Hwf HD Hmod Hidx Hcodes HT.
  destruct (forward_ok cfg m B T idx Hwf HD Hmod Hidx Hcodes HT) as [lg [_ Hf]].
  exists lg. split; [exact (Hf None)|]. intros b Hb.
  pose proof (Hf None) as H.
  destruct (embed_ok cfg m B T idx Hwf Hidx Hcodes HT) as [tok [pos [Etok [Epos Sx]]]].
  destruct Hwf as [_ [_ [Hblocks _]]]. destruct Hidx as [LB Hrows].
  unfold forward in *. rewrite Etok, Epos in H. cbn [bind] in H.
  inv_bind H. rename a into x1. inv_bind H. rename a into x2. inv_bind H.
  inversion H; subst lg.
  rewrite (mapM_row _ b _ _ Etok) by lia. cbn [bind].
  assert (Ed : dim1 (batch_row b idx) = dim1 idx).
  { rewrite (dim1_shape B T idx LB Hrows) by lia. unfold batch_row, dim1.
    rewrite Forall_forall in Hrows. apply Hrows. apply nth_In. lia. }
  rewrite Ed, Epos. cbn [bind].
  assert (Ltok : length tok = B) by (rewrite (mapM_length _ _ _ Etok); exact LB).
  assert (Ex : map (fun te => madd te pos) (batch_row b tok)
               = batch_row b (map (fun te => madd te pos) tok)).
  { unfold batch_row. simpl. f_equal. symmetry.
    apply (nth_map_default (fun te => madd te pos) tok b [] []). lia. }
  rewrite Ex.
  rewrite (blocks_forward_row cfg _ B T b _ x1 Hblocks HD Hmod Sx HT Hb Ha). cbn [bind].
  assert (L1 : length x1 = B).
  { destruct (blocks_forward_ok cfg _ B T _ Hblocks HD Hmod Sx HT) as [y [Ey [Ly _]]].
    congruence. }
  unfold LayerNorm_forward, Linear_forward in *.
  rewrite (mapM_row _ b _ _ Ha0) by lia. cbn [bind].
  rewrite (mapM_row _ b _ _ Ha1) by (rewrite (mapM_length _ _ _ Ha0); lia). reflexivity.
Qed.

(** ** The further properties at the small instances *)

Lemma tiny_x3_shape : shape3 1 3 4 tiny_x3.
Proof. repeat (split || constructor). Qed.

Lemma decode_encode_roundtrip_witness :
  exists l, encode tiny_text [98; 97]%N = Some l /\
            Forall (fun i => (0 <= i < Z.of_nat (vocab_size_of tiny_text))%Z) l /\
            decode tiny_text l = Some [98; 97]%N.
Proof.
  apply (decode_encode_roundtrip tiny_text [98; 97]%N).
  constructor; [simpl; tauto|]. constructor; [simpl; tauto | constructor].
Defined.

Lemma encode_decode_roundtrip_witness :
  exists s, decode tiny_text [1; 0; 1]%Z = Some s /\ Forall (fun c => In c tiny_text) s /\
            encode tiny_text s = Some [1; 0; 1]%Z.
Proof.
  apply (encode_decode_roundtrip tiny_text [1; 0; 1]%Z).
  repeat constructor; vm_compute; congruence.
Defined.

Lemma stoi_is_monotone_witness :
  exists i1 i2,
    dict_get N.eqb 97%N (stoi tiny_text) = Some i1 /\
    dict_get N.eqb 98%N (stoi tiny_text) = Some i2 /\
    ((i1 < i2)%Z <-> (97 < 98)%N) /\ (i1 = i2 <-> 97%N = 98%N).
Proof.
  apply (stoi_is_monotone tiny_text 97%N 98%N); simpl; tauto.
Defined.

Lemma feed_forward_is_position_wise_witness :
  exists y, FeedForward_forward tiny_ffwd tiny_x = Some y /\ shape3 1 2 4 y.
Proof.
  destruct (feed_forward_is_position_wise tiny_config tiny_ffwd 1 2 tiny_x
              (FeedForward_init_wf tiny_config (const_init 1))) as [H _].
  destruct (H tiny_x_shape) as [y [Ey [Sy _]]]. exists y. split; assumption.
Defined.

Lemma head_rejects_long_input_witness : Head_forward tiny_head tiny_x3 = None.
Proof.
  apply (head_rejects_long_input tiny_config 1 tiny_head 1 3 tiny_x3
           tiny_head_wf tiny_x3_shape (Nat.lt_0_succ 0)).
  - simpl. lia.
  - simpl. lia.
Defined.

Lemma forward_rejects_long_context_witness :
  forward tiny_model [[0; 1; 0]]%Z None = None.
Proof.
  apply (forward_rejects_long_context tiny_config tiny_model 1 3 [[0; 1; 0]]%Z None
           tiny_model_wf).
  - repeat (split || constructor).
  - lia.
  - simpl. lia.
Defined.

Lemma forward_rejects_unknown_token_witness :
  forward tiny_model [[0; 5]]%Z None = None.
Proof.
  apply (forward_rejects_unknown_token tiny_config tiny_model [[0; 5]]%Z None [0; 5]%Z 5%Z
           tiny_model_wf).
  - left. reflexivity.
  - right. left. reflexivity.
  - simpl. lia.
Defined.

Lemma generate_rejects_empty_context_witness :
  generate tiny_config (E := counter_engine) tiny_model [[]] 1 (0 : @RNG counter_engine) = None.
Proof.
  apply (generate_rejects_empty_context tiny_config counter_engine tiny_model 1 [[]] 1
           (0 : @RNG counter_engine) tiny_model_wf (Nat.lt_0_succ 3) eq_refl).
  - repeat (split || constructor).
  - lia.
  - lia.
Defined.


Lemma get_batch_targets_are_shifted_inputs_witness :
  exists x y g',
    get_batch tiny_config (E := counter_engine) tiny_data tiny_data "train"
              (0 : @RNG counter_engine) = Some (x, y, g') /\
    forall b t, b < 2 -> t + 1 < 2 -> nth t (nth b y []) 0%Z = nth (t + 1) (nth b x []) 0%Z.
Proof.
  apply (get_batch_targets_are_shifted_inputs tiny_config counter_engine tiny_data tiny_data
           "train" (0 : @RNG counter_engine) counter_engine_laws).
  - simpl. lia.
  - simpl. lia.
Defined.

Lemma train_rejects_short_splits_witness :
  train tiny_config [0; 1]%Z tiny_data tiny_state = None.
Proof.
  apply (train_rejects_short_splits tiny_config counter_engine null_optimizer
           [0; 1]%Z tiny_data tiny_state counter_engine_laws).
  - simpl. lia.
  - left. simpl. lia.
Defined.

Lemma training_schedule_witness :
  exists s', train tiny_config tiny_data tiny_data tiny_state = Some s' /\
             length (stdout s') = 1 /\
             length (filter is_optimizer_step (history s')) = 2.
Proof.
  destruct (train_loop_total_wf tiny_config counter_engine null_optimizer tiny_data tiny_data
              counter_engine_laws tiny_config_valid (null_optimizer_laws tiny_config))
    with (iters := seq 0 (max_iters tiny_config)) (s := tiny_state) as [s' [Et _]].
  - simpl. lia.
  - simpl. lia.
  - exact tiny_data_codes.
  - exact tiny_data_codes.
  - exact tiny_model_wf.
  - reflexivity.
  - reflexivity.
  - exists s'. split; [exact Et|].
    destruct (training_schedule tiny_config counter_engine null_optimizer tiny_data tiny_data
                tiny_state s' Et eq_refl eq_refl (Nat.lt_0_succ 1)) as [_ [Hr [Hs _]]].
    split; [exact Hr | exact Hs].
Defined.


Lemma logits_of_a_row_ignore_the_batch_witness :
  exists lg,
    forward tiny_model [[0; 1]; [1; 1]]%Z None = Some (Logits3 lg, None) /\
    forward tiny_model [[1; 1]]%Z None = Some (Logits3 [nth 1 lg []], None).
Proof.
  destruct (logits_of_a_row_ignore_the_batch tiny_config tiny_model 2 2 [[0; 1]; [1; 1]]%Z
              tiny_model_wf (Nat.lt_0_succ 3) eq_refl) as [lg [E H]].
  - repeat (split || constructor).
  - repeat constructor; simpl; lia.
  - apply Nat.le_refl.
  - exists lg. split; [exact E|]. apply (H 1). lia.
Defined.

(** * The attention head in floating point *)

Section Float32Facts.

Import Float32.

(** ** Range and special values *)

Lemma float_max_ge_1 : (1 <= float_max)%R.
Proof. unfold float_max. lra. Qed.

Lemma to_range_in (r : R) :
  (- float_max <= r <= float_max)%R -> to_range r = Finite r.
Proof.
  intros [L U]. unfold to_range.
  destruct (Rlt_dec float_max r); [lra|].
  destruct (Rlt_dec r (- float_max)); [lra | reflexivity].
Qed.

Lemma to_range_above (r : R) : (float_max < r)%R -> to_range r = Infinity false.
Proof.
  intros H. unfold to_range. destruct (Rlt_dec float_max r); [reflexivity | lra].
Qed.

Lemma to_range_in_range (r : R) : in_range (to_range r).
Proof.
  unfold to_range.
  destruct (Rlt_dec float_max r); [exact I|].
  destruct (Rlt_dec r (- float_max)); [exact I|]. simpl. lra.
Qed.

Lemma fadd_in_range (a b : float32) : in_range (fadd a b).
Proof.
  destruct a as [x|s|], b as [y|s'|]; simpl; try exact I.
  - apply to_range_in_range.
  - destruct (Bool.eqb s s'); exact I.
Qed.

Lemma fadd_zero_r (a : float32) : in_range a -> fadd a (Finite 0) = a.
Proof.
  destruct a as [x|s|]; simpl; intros H; try reflexivity.
  rewrite to_range_in by lra. f_equal. lra.
Qed.

Lemma fadd_zero_l (a : float32) : in_range a -> fadd (Finite 0) a = a.
Proof.
  destruct a as [x|s|]; simpl; intros H; try reflexivity.
  rewrite to_range_in by lra. f_equal. lra.
Qed.

Lemma fmul_zero_l (a : float32) : is_finite a -> fmul (Finite 0) a = Finite 0.
Proof.
  destruct a as [x|s|]; simpl; intros H; try contradiction.
  pose proof float_max_ge_1. rewrite to_range_in by lra. f_equal. lra.
Qed.

Lemma fmul_one_l (a : float32) : in_range a -> fmul (Finite 1) a = a.
Proof.
  destruct a as [x|s|]; simpl; intros H; try reflexivity.
  - rewrite to_range_in by lra. f_equal. lra.
  - destruct (Req_dec_T 1 0); [lra|]. destruct (Rlt_dec 1 0); [lra | reflexivity].
Qed.

Lemma fadd_nan_r (a : float32) : fadd a NaN = NaN.
Proof. destruct a; reflexivity. Qed.

Lemma fdiv_nan_r (a : float32) : fdiv a NaN = NaN.
Proof. destruct a; reflexivity. Qed.

Lemma fsum_from_nan (l : vec) : fold_left fadd l NaN = NaN.
Proof. induction l as [|a l IH]; simpl; [reflexivity | exact IH]. Qed.

Lemma fsum_with_nan (l : vec) (a : float32) : In NaN l -> fold_left fadd l a = NaN.
Proof.
  revert a. induction l as [|b l IH]; intros a Hin; simpl in *; [contradiction|].
  destruct Hin as [->|Hin].
  - rewrite fadd_nan_r. apply fsum_from_nan.
  - apply IH. exact Hin.
Qed.

Lemma fold_fadd_in_range (l : vec) (a : float32) :
  in_range a -> in_range (fold_left fadd l a).
Proof.
  revert a. induction l as [|b l IH]; intros a Ha; simpl; [exact Ha|].
  apply IH. apply fadd_in_range.
Qed.

Lemma dot_in_range (u v : vec) : in_range (dot u v).
Proof.
  unfold dot, fsum. apply fold_fadd_in_range. pose proof float_max_ge_1. simpl. lra.
Qed.

(** ** Linear layers *)

Lemma Linear_apply_length_f32 (i o : nat) (l : Linear) (x : vec) :
  wf_Linear i o l -> length (Linear_apply l x) = o.
Proof.
  intros [_ [_ [[Hw _] Hb]]]. unfold Linear_apply.
  destruct (bias l) as [b|].
  - unfold vadd. rewrite map2_length, length_map, Hw. unfold shape1 in Hb. lia.
  - rewrite length_map. exact Hw.
Qed.

Lemma Linear_apply_in_range (l : Linear) (x : vec) : Forall in_range (Linear_apply l x).
Proof.
  unfold Linear_apply. destruct (bias l) as [b|].
  - apply Forall_forall. intros a Ha. apply In_nth_error in Ha. destruct Ha as [n Hn].
    unfold vadd in Hn. rewrite map2_nth_error in Hn.
    destruct (nth_error _ n); [|discriminate]. destruct (nth_error b n); [|discriminate].
    inversion Hn. apply fadd_in_range.
  - apply Forall_forall. intros a Ha. apply in_map_iff in Ha. destruct Ha as [w [<- _]].
    apply dot_in_range.
Qed.

Lemma Linear_vec_ok_f32 (i o : nat) (l : Linear) (x : vec) :
  wf_Linear i o l -> length x = i -> Linear_vec l x = Some (Linear_apply l x).
Proof.
  intros [Hi _] Hx. unfold Linear_vec. rewrite Hx, Hi, Nat.eqb_refl. reflexivity.
Qed.

Lemma Linear_mat_ok_f32 (i o n : nat) (l : Linear) (x : mat) :
  wf_Linear i o l -> shape2 n i x ->
  Linear_mat l x = Some (map (Linear_apply l) x) /\ shape2 n o (map (Linear_apply l) x).
Proof.
  intros Hwf [Hn Hrows]. split.
  - apply mapM_pure. intros a Ha. rewrite Forall_forall in Hrows.
    apply (Linear_vec_ok_f32 _ _ _ _ Hwf). apply Hrows. assumption.
  - split; [rewrite length_map; assumption|].
    apply Forall_forall. intros y Hy. apply in_map_iff in Hy. destruct Hy as [a [<- _]].
    apply (Linear_apply_length_f32 _ _ _ a Hwf).
Qed.

Lemma Linear_forward_ok_f32 (i o b n : nat) (l : Linear) (x : tensor3) :
  wf_Linear i o l -> shape3 b n i x ->
  Linear_forward l x = Some (map (map (Linear_apply l)) x) /\
  shape3 b n o (map (map (Linear_apply l)) x).
Proof.
  intros Hwf [Hb Hmats]. split.
  - apply mapM_pure. intros a Ha. rewrite Forall_forall in Hmats.
    apply (Linear_mat_ok_f32 _ _ _ _ _ Hwf (Hmats a Ha)).
  - split; [rewrite length_map; assumption|].
    apply Forall_forall. intros y Hy. apply in_map_iff in Hy. destruct Hy as [a [<- Ha]].
    rewrite Forall_forall in Hmats. apply (Linear_mat_ok_f32 _ _ _ _ _ Hwf (Hmats a Ha)).
Qed.

Lemma Linear_init_wf_f32 (i o : nat) (wb : bool) (init : nat -> nat -> float32) :
  wf_Linear i o (Linear_init i o wb init).
Proof.
  unfold wf_Linear, Linear_init; simpl. repeat split.
  - apply tabulate_length.
  - apply Forall_forall. intros r Hr. unfold tabulate in Hr. apply in_map_iff in Hr.
    destruct Hr as [k [<- _]]. apply tabulate_length.
  - destruct wb; [apply tabulate_length | exact I].
Qed.

Lemma Head_init_wf_f32 (cfg : Config) (head_size : nat) (init : Init) :
  wf_Head cfg head_size (Head_init cfg head_size init).
Proof.
  unfold wf_Head, Head_init; simpl.
  repeat split; try apply Linear_init_wf_f32.
Qed.

(** ** The causal mask *)

Lemma tril_ones_f32 (r c : nat) :
  torch_tril (torch_ones r c) =
  tabulate r (fun i => tabulate c (fun j => if (j <=? i)%nat then Finite 1 else Finite 0)).
Proof.
  unfold torch_tril, torch_ones. apply nth_error_ext. intros i.
  rewrite mapi_nth_error, nth_error_repeat', nth_error_tabulate.
  destruct (i <? r)%nat; simpl; [|reflexivity]. f_equal.
  apply nth_error_ext. intros j.
  rewrite mapi_nth_error, nth_error_repeat', nth_error_tabulate.
  destruct (j <? c)%nat; reflexivity.
Qed.

Lemma sliced_mask_f32 (bs T : nat) :
  T <= bs ->
  eq_zero (slice2 T T (torch_tril (torch_ones bs bs))) = causal_mask T.
Proof.
  intros HT. rewrite tril_ones_f32. unfold slice2, eq_zero, causal_mask.
  rewrite firstn_tabulate by assumption. rewrite !map_tabulate.
  apply tabulate_ext. intros i Hi.
  rewrite firstn_tabulate by assumption. rewrite map_tabulate.
  apply tabulate_ext. intros j Hj.
  destruct (Nat.leb_spec j i), (Nat.ltb_spec i j); try lia;
    destruct (Req_dec_T _ _); try reflexivity; lra.
Qed.

Lemma masked_fill_causal_f32 (T : nat) (wei : mat) :
  shape2 T T wei ->
  masked_fill wei (causal_mask T) =
  Some (mapi (fun i w => mapi (fun j a => if (i <? j)%nat then Infinity true else a) w) wei).
Proof.
  intros [Hlen Hrows]. unfold masked_fill.
  rewrite expand_same by (unfold causal_mask; rewrite tabulate_length; auto). simpl.
  rewrite zipM_pure with
    (g := fun w m => map2 (fun a (b : bool) => if b then Infinity true else a) w m).
  - f_equal. unfold causal_mask. rewrite map2_tabulate_r by assumption.
    apply mapi_ext. intros i w Hw.
    apply map2_tabulate_r. apply (Forall_nth_error _ _ _ _ Hrows Hw).
  - unfold causal_mask. rewrite tabulate_length. assumption.
  - intros i w m Hw Hm. unfold causal_mask in Hm. rewrite nth_error_tabulate in Hm.
    destruct (i <? T)%nat; [|discriminate]. inversion Hm; subst.
    rewrite expand_same; [reflexivity|].
    rewrite tabulate_length. symmetry. apply (Forall_nth_error _ _ _ _ Hrows Hw).
Qed.

Lemma masked_row_split_f32 (i : nat) (w : vec) :
  mapi (fun j a => if (i <? j)%nat then Infinity true else a) w =
  firstn (S i) w ++ repeat (Infinity true) (length w - S i).
Proof.
  apply nth_error_ext. intros j.
  rewrite mapi_nth_error, nth_error_app, length_firstn.
  destruct (Nat.ltb_spec j (Nat.min (S i) (length w))) as [Hlt|Hge].
  - rewrite nth_error_firstn.
    destruct (Nat.ltb_spec j (S i)); [|lia].
    destruct (nth_error w j); simpl; [|reflexivity].
    destruct (Nat.ltb_spec i j); [lia | reflexivity].
  - rewrite nth_error_repeat'.
    destruct (nth_error w j) as [a|] eqn:Hj; cbn [option_map].
    + assert (j < length w) by (apply nth_error_Some; congruence).
      destruct (Nat.ltb_spec i j); [|lia].
      destruct (Nat.ltb_spec (j - Nat.min (S i) (length w)) (length w - S i)); [reflexivity | lia].
    + apply nth_error_None in Hj.
      destruct (Nat.ltb_spec (j - Nat.min (S i) (length w)) (length w - S i)); [lia | reflexivity].
Qed.

(** ** The row maximum *)

Lemma row_max_app_masked (p : vec) (k : nat) :
  row_max (p ++ repeat (Infinity true) k) = row_max p.
Proof.
  unfold row_max. rewrite fold_right_app. f_equal.
  induction k as [|k IH]; simpl; [reflexivity | rewrite IH; reflexivity].
Qed.

Lemma row_max_nan (row : vec) : row_max row = NaN -> In NaN row.
Proof.
  induction row as [|a row IH]; unfold row_max in *; simpl; [discriminate|].
  destruct a as [x|[|]|]; destruct (fold_right fmax2 (Infinity true) row) as [y|[|]|];
    simpl; intros H; try discriminate; auto.
Qed.

Lemma row_max_pos_inf (row : vec) : row_max row = Infinity false -> In (Infinity false) row.
Proof.
  induction row as [|a row IH]; unfold row_max in *; simpl; [discriminate|].
  destruct a as [x|[|]|]; destruct (fold_right fmax2 (Infinity true) row) as [y|[|]|];
    simpl; intros H; try discriminate; auto.
Qed.

Lemma row_max_neg_inf (row : vec) :
  row_max row = Infinity true -> forall s, In s row -> s = Infinity true.
Proof.
  induction row as [|a row IH]; unfold row_max in *; simpl; [contradiction|].
  destruct a as [x|[|]|]; destruct (fold_right fmax2 (Infinity true) row) as [y|[|]|];
    simpl; intros H; try discriminate.
  intros s [<-|Hs]; [reflexivity | auto].
Qed.

(** A finite row maximum is attained, and bounds every entry of the row
    that is not minus infinity. *)
Lemma row_max_finite (row : vec) (m : R) :
  row_max row = Finite m ->
  In (Finite m) row /\
  forall s, In s row -> s = Infinity true \/ exists r, s = Finite r /\ (r <= m)%R.
Proof.
  revert m. induction row as [|a row IH]; unfold row_max in *; simpl; [discriminate|].
  intros m.
  destruct a as [x|[|]|]; destruct (fold_right fmax2 (Infinity true) row) as [y|[|]|] eqn:E;
    simpl; intros H; try discriminate; inversion H; subst; clear H.
  - destruct (IH y eq_refl) as [Hin Hall]. split.
    + unfold Rmax. destruct (Rle_dec x y); [right; exact Hin | left; reflexivity].
    + intros s [<-|Hs].
      * right. exists x. split; [reflexivity | apply Rmax_l].
      * destruct (Hall s Hs) as [->|[r [-> Hr]]]; [left; reflexivity|].
        right. exists r. split; [reflexivity|]. pose proof (Rmax_r x y). lra.
  - split; [left; reflexivity|].
    intros s [<-|Hs]; [right; exists m; split; [reflexivity | lra]|].
    left. apply (row_max_neg_inf row E s Hs).
  - destruct (IH m eq_refl) as [Hin Hall]. split; [right; exact Hin|].
    intros s [<-|Hs]; [left; reflexivity | apply Hall; exact Hs].
Qed.

(** ** Softmax *)

Lemma softmax_length_f32 (row : vec) : length (softmax row) = length row.
Proof. unfold softmax. rewrite !length_map. reflexivity. Qed.

(** A row whose maximum is not finite (an entry is NaN or plus infinity,
    or every entry is minus infinity) is mapped to NaN throughout. *)
Lemma softmax_nan (row : vec) :
  row <> [] -> ~ is_finite (row_max row) -> softmax row = repeat NaN (length row).
Proof.
  intros Hne Hmax.
  assert (Hin : In NaN (map (fun s => fexp (fsub s (row_max row))) row)).
  { apply in_map_iff. destruct (row_max row) as [m|[|]|] eqn:E.
    - exfalso. apply Hmax. exact I.
    - destruct row as [|s row']; [congruence|]. exists s. split; [|left; reflexivity].
      rewrite (row_max_neg_inf _ E s) by (left; reflexivity). reflexivity.
    - exists (Infinity false). split; [reflexivity | apply row_max_pos_inf; exact E].
    - exists NaN. split; [reflexivity | apply row_max_nan; exact E]. }
  unfold softmax. unfold fsum. rewrite (fsum_with_nan _ _ Hin).
  rewrite (map_ext _ (fun _ => NaN)) by (intros a; apply fdiv_nan_r).
  rewrite map_const, length_map. reflexivity.
Qed.

Lemma exp_gap_spec (m : R) (s : float32) :
  s = Infinity true \/ (exists r, s = Finite r /\ (r <= m)%R) ->
  fexp (fsub s (Finite m)) = Finite (exp_gap m s) /\
  (0 <= exp_gap m s <= 1)%R /\
  (s = Infinity true -> exp_gap m s = 0%R) /\
  (s = Finite m -> exp_gap m s = 1%R).
Proof.
  pose proof float_max_ge_1 as Hmax.
  intros [->|[r [-> Hr]]].
  - unfold exp_gap. simpl. repeat split; try lra. discriminate.
  - unfold exp_gap, fsub. cbn [fneg fadd].
    destruct (Rlt_dec (r + - m) (- float_max)) as [Hlow|Hlow].
    + assert (E : to_range (r + - m) = Infinity true).
      { unfold to_range. destruct (Rlt_dec float_max (r + - m)); [lra|].
        destruct (Rlt_dec (r + - m) (- float_max)); [reflexivity | lra]. }
      rewrite E. simpl. repeat split; try lra; try discriminate.
      intros H. inversion H. lra.
    + rewrite to_range_in by lra. cbn [fexp].
      assert (He : (0 < exp (r + - m) <= 1)%R).
      { split; [apply exp_pos|]. rewrite <- exp_0.
        destruct (Req_dec (r + - m) 0) as [->|Hne]; [lra|].
        left. apply exp_increasing. lra. }
      rewrite to_range_in by lra. repeat split; try lra; try discriminate.
      intros H. inversion H. replace (m + - m)%R with 0%R by lra. apply exp_0.
Qed.

Lemma fold_fadd_from_pos_inf (es : list R) :
  fold_left fadd (map Finite es) (Infinity false) = Infinity false.
Proof. induction es as [|e es IH]; simpl; [reflexivity | exact IH]. Qed.

(** Adding non-negative numbers: the exact sum, or plus infinity once it
    leaves the range. *)
Lemma fold_fadd_nonneg (es : list R) (a : R) :
  Forall (fun e => (0 <= e)%R) es -> (0 <= a <= float_max)%R ->
  fold_left fadd (map Finite es) (Finite a) =
  if Rlt_dec float_max (a + Rsum es) then Infinity false else Finite (a + Rsum es).
Proof.
  pose proof float_max_ge_1 as Hmax.
  intros HF. revert a. induction HF as [|e es He HF IH]; intros a Ha; simpl.
  - unfold Rsum. simpl. rewrite Rplus_0_r.
    destruct (Rlt_dec float_max a) as [H|H]; [lra | reflexivity].
  - pose proof (Rsum_nonneg es HF) as Hs. unfold Rsum in *. simpl.
    unfold to_range.
    destruct (Rlt_dec float_max (a + e)) as [H|H].
    + rewrite fold_fadd_from_pos_inf.
      destruct (Rlt_dec float_max (a + (e + fold_right Rplus 0%R es))); [reflexivity | lra].
    + destruct (Rlt_dec (a + e) (- float_max)); [lra|].
      rewrite IH by lra. rewrite Rplus_assoc. reflexivity.
Qed.

Lemma Rsum_ge_member (es : list R) (a : R) :
  Forall (fun e => (0 <= e)%R) es -> In a es -> (a <= Rsum es)%R.
Proof.
  intros HF. induction HF as [|e es He HF IH]; simpl; [contradiction|].
  pose proof (Rsum_nonneg es HF) as Hs. unfold Rsum in *. simpl.
  intros [->|Hin]; [lra|]. specialize (IH Hin). lra.
Qed.

Lemma Rsum_le_length (es : list R) :
  Forall (fun e => (e <= 1)%R) es -> (Rsum es <= INR (length es))%R.
Proof.
  intros HF. induction HF as [|e es He HF IH].
  - simpl. unfold Rsum. simpl. lra.
  - cbn [length]. rewrite S_INR. unfold Rsum in *. simpl. lra.
Qed.

(** The softmax of a row with a finite maximum [m], through the real
    exponentials of the gaps to [m]. *)
Lemma softmax_finite_max (row : vec) (m : R) :
  row_max row = Finite m ->
  softmax row =
    map (fun e => fdiv (Finite e) (fsum (map Finite (map (exp_gap m) row))))
        (map (exp_gap m) row) /\
  Forall (fun e => (0 <= e <= 1)%R) (map (exp_gap m) row) /\
  In 1%R (map (exp_gap m) row).
Proof.
  intros Hm. destruct (row_max_finite row m Hm) as [Hin Hall].
  assert (Hes : map (fun s => fexp (fsub s (Finite m))) row = map Finite (map (exp_gap m) row)).
  { rewrite map_map. apply map_ext_in. intros s Hs. apply exp_gap_spec. apply Hall. exact Hs. }
  split; [|split].
  - unfold softmax. rewrite Hm, Hes. rewrite map_map. reflexivity.
  - apply Forall_forall. intros e He. apply in_map_iff in He. destruct He as [s [<- Hs]].
    apply exp_gap_spec. apply Hall. exact Hs.
  - apply in_map_iff. exists (Finite m). split; [|exact Hin].
    apply exp_gap_spec; [|reflexivity]. right. exists m. split; [reflexivity | lra].
Qed.

Lemma Forall_and_l {A : Type} (P Q : A -> Prop) (l : list A) :
  Forall (fun a => P a /\ Q a) l -> Forall P l.
Proof. intros H. eapply Forall_impl; [|exact H]. intros a [Ha _]. exact Ha. Qed.

Lemma Forall_and_r {A : Type} (P Q : A -> Prop) (l : list A) :
  Forall (fun a => P a /\ Q a) l -> Forall Q l.
Proof. intros H. eapply Forall_impl; [|exact H]. intros a [_ Ha]. exact Ha. Qed.

(** The denominator of such a row: at least 1, or plus infinity. *)
Lemma softmax_total (row : vec) (m : R) :
  row_max row = Finite m ->
  (1 <= Rsum (map (exp_gap m) row))%R /\
  fsum (map Finite (map (exp_gap m) row)) =
    if Rlt_dec float_max (Rsum (map (exp_gap m) row)) then Infinity false
    else Finite (Rsum (map (exp_gap m) row)).
Proof.
  intros Hm. destruct (softmax_finite_max row m Hm) as [_ [Hes H1]].
  pose proof float_max_ge_1 as Hmax.
  pose proof (Forall_and_l _ _ _ Hes) as Hnn. split.
  - apply Rsum_ge_member; assumption.
  - unfold fsum. rewrite fold_fadd_nonneg by (try assumption; lra).
    rewrite Rplus_0_l. reflexivity.
Qed.

(** An entry at minus infinity receives the weight zero. *)
Lemma softmax_masked_zero (row : vec) (m : R) (j : nat) :
  row_max row = Finite m ->
  nth_error row j = Some (Infinity true) ->
  nth_error (softmax row) j = Some (Finite 0).
Proof.
  intros Hm Hj. destruct (softmax_finite_max row m Hm) as [E _].
  destruct (softmax_total row m Hm) as [Hge Et].
  rewrite E, Et. rewrite nth_error_map, nth_error_map, Hj. cbn [option_map].
  f_equal.
  assert (E0 : exp_gap m (Infinity true) = 0%R) by (apply exp_gap_spec; auto).
  rewrite E0.
  destruct (Rlt_dec float_max (Rsum (map (exp_gap m) row))); [reflexivity|].
  cbn [fdiv]. destruct (Req_dec_T (Rsum (map (exp_gap m) row)) 0); [lra|].
  pose proof float_max_ge_1.
  rewrite to_range_in by (unfold Rdiv; rewrite Rmult_0_l; lra).
  f_equal. unfold Rdiv. apply Rmult_0_l.
Qed.

(** With fewer entries than the range can count, such a row is mapped to
    a probability vector; an entry at the maximum gets at least the
    share 1/T. *)
Lemma softmax_distribution (row : vec) (m : R) :
  row_max row = Finite m -> (INR (length row) <= float_max)%R ->
  exists ws,
    softmax row = map Finite ws /\
    Forall (fun a => (0 <= a)%R) ws /\ Rsum ws = 1%R /\
    fsum (softmax row) = Finite 1 /\
    forall j, nth_error row j = Some (Finite m) ->
      exists w, nth_error ws j = Some w /\ (/ INR (length row) <= w)%R.
Proof.
  intros Hm HT. destruct (softmax_finite_max row m Hm) as [E [Hes H1]].
  destruct (softmax_total row m Hm) as [Hge Et].
  pose proof float_max_ge_1 as Hmax.
  set (es := map (exp_gap m) row) in *.
  assert (HS : (Rsum es <= INR (length row))%R).
  { replace (length row) with (length es) by (unfold es; apply length_map).
    apply Rsum_le_length. apply (Forall_and_r _ _ _ Hes). }
  destruct (Rlt_dec float_max (Rsum es)) as [Hov|_]; [lra|].
  assert (Hw : forall e, (0 <= e <= 1)%R ->
                 fdiv (Finite e) (Finite (Rsum es)) = Finite (e / Rsum es)
                 /\ (0 <= e / Rsum es <= 1)%R).
  { intros e He. cbn [fdiv]. destruct (Req_dec_T (Rsum es) 0); [lra|].
    assert (Hq : (0 <= e / Rsum es <= 1)%R).
    { split.
      - apply Rmult_le_pos; [lra|]. left. apply Rinv_0_lt_compat. lra.
      - apply Rmult_le_reg_r with (r := Rsum es); [lra|].
        unfold Rdiv. rewrite Rmult_assoc, Rinv_l by lra. lra. }
    split; [apply to_range_in; lra | exact Hq]. }
  assert (Ews : softmax row = map Finite (map (fun e => (e / Rsum es)%R) es)).
  { rewrite E, Et, map_map. apply map_ext_in. intros e He.
    rewrite Forall_forall in Hes. apply Hw. apply Hes. exact He. }
  assert (Hnn : Forall (fun a => (0 <= a)%R) (map (fun e => (e / Rsum es)%R) es)).
  { apply Forall_forall. intros a Ha. apply in_map_iff in Ha. destruct Ha as [e [<- He]].
    rewrite Forall_forall in Hes. apply Hw. apply Hes. exact He. }
  assert (Hsum : Rsum (map (fun e => (e / Rsum es)%R) es) = 1%R).
  { rewrite Rsum_map_div. field. lra. }
  exists (map (fun e => (e / Rsum es)%R) es). split; [exact Ews|].
  split; [exact Hnn|]. split; [exact Hsum|]. split.
  - rewrite Ews. unfold fsum. rewrite fold_fadd_nonneg by (try assumption; lra).
    rewrite Hsum, Rplus_0_l. destruct (Rlt_dec float_max 1); [lra | reflexivity].
  - intros j Hj. exists (1 / Rsum es)%R. split.
    + rewrite nth_error_map. unfold es. rewrite nth_error_map, Hj. cbn [option_map].
      f_equal. f_equal. f_equal. apply exp_gap_spec; [|reflexivity].
      right. exists m. split; [reflexivity | lra].
    + unfold Rdiv. rewrite Rmult_1_l. apply Rinv_le_contravar; lra.
Qed.

(** A row with one finite score, then minus infinity: all the weight goes
    to the finite score. *)
Lemma softmax_one_hot (s : R) (k : nat) :
  softmax (Finite s :: repeat (Infinity true) k) = Finite 1 :: repeat (Finite 0) k.
Proof.
  pose proof float_max_ge_1 as Hmax.
  assert (Hm : row_max (Finite s :: repeat (Infinity true) k) = Finite s).
  { change (Finite s :: repeat (Infinity true) k) with ([Finite s] ++ repeat (Infinity true) k).
    rewrite row_max_app_masked. reflexivity. }
  destruct (softmax_finite_max _ _ Hm) as [E _].
  destruct (softmax_total _ _ Hm) as [_ Et]. rewrite E, Et. clear E Et.
  assert (E1 : exp_gap s (Finite s) = 1%R).
  { apply exp_gap_spec; [|reflexivity]. right. exists s. split; [reflexivity | lra]. }
  assert (E0 : exp_gap s (Infinity true) = 0%R) by (apply exp_gap_spec; auto).
  cbn [map]. rewrite map_repeat, E1, E0.
  replace (Rsum (1%R :: repeat 0%R k)) with 1%R
    by (unfold Rsum; simpl; fold (Rsum (repeat 0%R k)); rewrite Rsum_repeat_0; lra).
  destruct (Rlt_dec float_max 1); [lra|].
  cbn [map]. rewrite map_repeat. cbn [fdiv].
  destruct (Req_dec_T 1 0); [lra|].
  rewrite !to_range_in by (unfold Rdiv; lra).
  f_equal; [f_equal; field|]. f_equal. f_equal. field.
Qed.

(** ** Weighted combinations of rows *)

Lemma vscale_zero_f32 (v : vec) :
  Forall is_finite v -> vscale (Finite 0) v = repeat (Finite 0) (length v).
Proof.
  intros HF. induction HF as [|a v Ha HF IH]; cbn [vscale map length repeat]; [reflexivity|].
  rewrite fmul_zero_l by assumption. f_equal. exact IH.
Qed.

Lemma vscale_nan (v : vec) : vscale NaN v = repeat NaN (length v).
Proof.
  induction v as [|a v IH]; cbn [vscale map length repeat]; [reflexivity | f_equal; exact IH].
Qed.

Lemma vscale_one_f32 (v : vec) : Forall in_range v -> vscale (Finite 1) v = v.
Proof.
  intros HF. induction HF as [|a v Ha HF IH]; cbn [vscale map]; [reflexivity|].
  rewrite fmul_one_l by assumption. f_equal. exact IH.
Qed.

Lemma vadd_zero_l_f32 (v : vec) :
  Forall in_range v -> vadd (repeat (Finite 0) (length v)) v = v.
Proof.
  intros HF. induction HF as [|a v Ha HF IH]; [reflexivity|].
  unfold vadd in *. cbn [length repeat map2]. rewrite fadd_zero_l by assumption.
  f_equal. exact IH.
Qed.

Lemma vadd_zero_r_f32 (v : vec) :
  Forall in_range v -> vadd v (repeat (Finite 0) (length v)) = v.
Proof.
  intros HF. induction HF as [|a v Ha HF IH]; [reflexivity|].
  unfold vadd in *. cbn [length repeat map2]. rewrite fadd_zero_r by assumption.
  f_equal. exact IH.
Qed.

Lemma vadd_nan_r (v : vec) : vadd v (repeat NaN (length v)) = repeat NaN (length v).
Proof.
  induction v as [|a v IH]; [reflexivity|].
  unfold vadd in *. cbn [length repeat map2]. rewrite fadd_nan_r. f_equal. exact IH.
Qed.

Lemma vadd_in_range (u v : vec) : Forall in_range (vadd u v).
Proof.
  unfold vadd. revert v. induction u as [|a u IH]; intros [|b v]; simpl; constructor.
  - apply fadd_in_range.
  - apply IH.
Qed.

Lemma fold_vadd_length (p : nat) (terms : list vec) (acc : vec) :
  length acc = p -> Forall (shape1 p) terms -> length (fold_left vadd terms acc) = p.
Proof.
  intros Ha HF. revert acc Ha. induction HF as [|t terms Ht HF IH]; intros acc Ha; simpl.
  - exact Ha.
  - apply IH. unfold vadd. rewrite map2_length. unfold shape1 in Ht. lia.
Qed.

Lemma scaled_rows_shape (p : nat) (w : vec) (b : mat) :
  Forall (shape1 p) b -> Forall (shape1 p) (map2 vscale w b).
Proof.
  intros Hb. revert w. induction Hb as [|r b Hr Hb IH]; intros [|a w]; simpl; constructor.
  - unfold shape1, vscale in *. rewrite length_map. exact Hr.
  - apply IH.
Qed.

Lemma vcomb_length_f32 (p : nat) (w : vec) (b : mat) :
  Forall (shape1 p) b -> length (vcomb p w b) = p.
Proof.
  intros Hb. unfold vcomb. apply fold_vadd_length; [apply repeat_length|].
  apply scaled_rows_shape. exact Hb.
Qed.

(** Adding rows of zeros changes nothing. *)
Lemma fold_vadd_zero_terms (p : nat) (terms : list vec) (acc : vec) :
  Forall in_range acc -> length acc = p ->
  Forall (fun t => t = repeat (Finite 0) p) terms ->
  fold_left vadd terms acc = acc.
Proof.
  intros Hr Ha HF. induction HF as [|t terms Ht HF IH]; simpl; [reflexivity|].
  subst t. rewrite <- Ha at 1. rewrite vadd_zero_r_f32 by assumption. exact IH.
Qed.

(** Once a row of NaN has been added, the sum is NaN throughout. *)
Lemma fold_vadd_nan_terms (p : nat) (terms : list vec) (acc : vec) :
  length acc = p -> terms <> [] ->
  Forall (fun t => t = repeat NaN p) terms ->
  fold_left vadd terms acc = repeat NaN p.
Proof.
  intros Ha Hne HF. revert acc Ha.
  induction HF as [|t terms Ht HF IH]; intros acc Ha; [congruence|].
  subst t. simpl.
  assert (E : vadd acc (repeat NaN p) = repeat NaN p).
  { rewrite <- Ha. apply vadd_nan_r. }
  rewrite E. destruct terms as [|t' terms']; [reflexivity|].
  apply IH; [discriminate | apply repeat_length].
Qed.

Lemma vcomb_nan (p T : nat) (b : mat) :
  0 < T -> shape2 T p b -> vcomb p (repeat NaN T) b = repeat NaN p.
Proof.
  intros HT [Hlen Hb]. unfold vcomb.
  apply fold_vadd_nan_terms; [apply repeat_length | |].
  - destruct T as [|T']; [lia|]. destruct b as [|r b']; [simpl in Hlen; lia|].
    simpl. discriminate.
  - apply Forall_forall. intros t Ht. apply In_nth_error in Ht. destruct Ht as [j Hj].
    rewrite map2_nth_error, nth_error_repeat' in Hj.
    destruct (j <? T)%nat; [|discriminate]. cbn [option_map] in Hj.
    destruct (nth_error b j) as [r|] eqn:Hr; [|discriminate].
    inversion Hj. rewrite vscale_nan.
    rewrite (Forall_nth_error _ _ _ _ Hb Hr). reflexivity.
Qed.

(** Two value matrices give the same combination when they agree wherever
    the weight is neither zero nor NaN, and are finite where it is zero. *)
Lemma vcomb_agree (p : nat) (w : vec) (b b' : mat) :
  length b = length b' ->
  (forall j a r r', nth_error w j = Some a -> nth_error b j = Some r ->
     nth_error b' j = Some r' ->
     r = r' \/
     (a = Finite 0 /\ length r = length r' /\ Forall is_finite r /\ Forall is_finite r') \/
     (a = NaN /\ length r = length r')) ->
  vcomb p w b = vcomb p w b'.
Proof.
  intros Hlen H. unfold vcomb. f_equal. apply nth_error_ext. intros j.
  rewrite !map2_nth_error.
  destruct (nth_error w j) as [a|] eqn:Ha; [|reflexivity].
  destruct (nth_error b j) as [r|] eqn:Hr.
  - destruct (nth_error b' j) as [r'|] eqn:Hr'.
    + f_equal. destruct (H j a r r' Ha Hr Hr') as [->|[[-> [Hl [Hf Hf']]]|[-> Hl]]].
      * reflexivity.
      * rewrite !vscale_zero_f32 by assumption. rewrite Hl. reflexivity.
      * rewrite !vscale_nan. rewrite Hl. reflexivity.
    + apply nth_error_None in Hr'.
      assert (j < length b) by (apply nth_error_Some; congruence). lia.
  - apply nth_error_None in Hr.
    destruct (nth_error b' j) as [r'|] eqn:Hr'; [|reflexivity].
    assert (j < length b') by (apply nth_error_Some; congruence). lia.
Qed.

(** ** One attention head *)

Lemma mapi_shape2_f32 {A : Type} (T m : nat) (f : nat -> A -> vec) (l : list A) :
  length l = T ->
  (forall i a, nth_error l i = Some a -> length (f i a) = m) ->
  shape2 T m (mapi f l).
Proof.
  intros Hlen H. split; [rewrite mapi_length; assumption|].
  apply Forall_forall. intros r Hr. apply In_nth_error in Hr. destruct Hr as [i Hi].
  rewrite mapi_nth_error in Hi.
  destruct (nth_error l i) as [a|] eqn:Ha; [|discriminate].
  inversion Hi; subst. apply (H i a Ha).
Qed.

Lemma shape3_nth_f32 (B T D : nat) (x : tensor3) (b : nat) :
  shape3 B T D x -> b < B -> shape2 T D (nth b x []).
Proof.
  intros [Hlen HF] Hb. rewrite Forall_forall in HF. apply HF. apply nth_In. lia.
Qed.

Lemma scores_row_length (h : Head) (T : nat) (x : mat) (i : nat) (xi : vec) :
  length x = T -> i < T -> length (scores_row h T x i xi) = T.
Proof.
  intros Hlen Hi. unfold scores_row.
  rewrite length_app, length_map, length_firstn, repeat_length. lia.
Qed.

(** The scores after masking, for an input no longer than the buffer. *)
Lemma Head_scores_ok (cfg : Config) (head_size : nat) (h : Head) (T : nat) (x : mat) :
  wf_Head cfg head_size h -> 0 < head_size ->
  shape2 T (n_embd cfg) x -> T <= block_size cfg ->
  Head_scores h x = Some (mapi (scores_row h T x) x).
Proof.
  intros [Hk [Hq [_ Htril]]] Hhs Hx HT.
  pose proof Hx as [Hlen _].
  destruct (Linear_mat_ok_f32 _ _ _ _ _ Hk Hx) as [Ek Sk].
  destruct (Linear_mat_ok_f32 _ _ _ _ _ Hq Hx) as [Eq Sq].
  unfold Head_scores. rewrite Ek, Eq. cbn [bind].
  assert (Ho : out_features (key h) = head_size) by (destruct Hk as [_ [Ho _]]; exact Ho).
  rewrite pow_neg_half_ok by (rewrite Ho; assumption). cbn [bind].
  rewrite Htril, Hlen, sliced_mask_f32 by assumption.
  rewrite masked_fill_causal_f32.
  - f_equal. rewrite !mapi_map.
    apply mapi_ext. intros i xi _. unfold scores_row.
    rewrite masked_row_split_f32.
    rewrite !length_map, Hlen. f_equal.
    rewrite !map_map, firstn_map. reflexivity.
  - split; [rewrite !length_map; assumption|].
    apply Forall_forall. intros w Hw. apply in_map_iff in Hw. destruct Hw as [qi [<- _]].
    unfold shape1. rewrite !length_map. assumption.
Qed.

(** The head on one batch element: scores, weights, values and output. *)
Lemma Head_mat_ok_f32 (cfg : Config) (head_size : nat) (h : Head) (T : nat) (x : mat) :
  wf_Head cfg head_size h -> 0 < head_size ->
  shape2 T (n_embd cfg) x -> T <= block_size cfg ->
  Head_weights h x = Some (map softmax (mapi (scores_row h T x) x)) /\
  Linear_mat (value h) x = Some (map (Linear_apply (value h)) x) /\
  Head_mat h x =
    Some (matmul (out_features (value h)) (map softmax (mapi (scores_row h T x) x))
                 (map (Linear_apply (value h)) x)) /\
  shape2 T T (mapi (scores_row h T x) x) /\
  shape2 T T (map softmax (mapi (scores_row h T x) x)) /\
  shape2 T head_size (map (Linear_apply (value h)) x) /\
  shape2 T head_size
    (matmul (out_features (value h)) (map softmax (mapi (scores_row h T x) x))
            (map (Linear_apply (value h)) x)).
Proof.
  intros Hwf Hhs Hx HT. pose proof Hx as [Hlen _].
  pose proof (Head_scores_ok cfg head_size h T x Hwf Hhs Hx HT) as Es.
  destruct Hwf as [_ [_ [Hv _]]].
  destruct (Linear_mat_ok_f32 _ _ _ _ _ Hv Hx) as [Ev Sv].
  assert (Ho : out_features (value h) = head_size) by (destruct Hv as [_ [Ho _]]; exact Ho).
  assert (Ss : shape2 T T (mapi (scores_row h T x) x)).
  { apply mapi_shape2_f32; [assumption|]. intros i xi Hi.
    apply scores_row_length; [assumption|]. rewrite <- Hlen. apply nth_error_Some. congruence. }
  assert (Sw : shape2 T T (map softmax (mapi (scores_row h T x) x))).
  { destruct Ss as [Sl Sr]. split; [rewrite length_map; exact Sl|].
    apply Forall_forall. intros r Hr. apply in_map_iff in Hr. destruct Hr as [s [<- Hs]].
    unfold shape1. rewrite softmax_length_f32. rewrite Forall_forall in Sr. apply Sr. exact Hs. }
  split; [unfold Head_weights; rewrite Es; reflexivity|].
  split; [exact Ev|].
  split; [unfold Head_mat, Head_weights; rewrite Es; cbn [bind]; rewrite Ev; reflexivity|].
  split; [exact Ss|]. split; [exact Sw|]. split; [exact Sv|].
  destruct Sw as [Sl _]. split; [unfold matmul; rewrite length_map; exact Sl|].
  apply Forall_forall. intros r Hr. unfold matmul in Hr. apply in_map_iff in Hr.
  destruct Hr as [w [<- _]]. unfold shape1. rewrite Ho. apply vcomb_length_f32.
  destruct Sv as [_ Sv]. exact Sv.
Qed.

Lemma row_max_all_finite (l : vec) :
  l <> [] -> Forall is_finite l -> is_finite (row_max l).
Proof.
  intros Hne HF.
  assert (H : l = [] \/ is_finite (row_max l)).
  { clear Hne. induction HF as [|a l Ha HF IH]; [left; reflexivity|]. right.
    destruct a as [x|s|]; try contradiction.
    unfold row_max in *. cbn [fold_right].
    destruct IH as [->|IH]; [exact I|].
    destruct (fold_right fmax2 (Infinity true) l) as [y|s|]; try contradiction. exact I. }
  destruct H as [H|H]; [congruence | exact H].
Qed.

(** The head on a batch. *)
Lemma Head_forward_ok_f32 (cfg : Config) (head_size : nat) (h : Head) (B T : nat) (x : tensor3) :
  wf_Head cfg head_size h -> 0 < head_size ->
  shape3 B T (n_embd cfg) x -> T <= block_size cfg ->
  let S := map (fun xb => mapi (scores_row h T xb) xb) x in
  let W := map (map softmax) S in
  let v := map (map (Linear_apply (value h))) x in
  mapM (Head_scores h) x = Some S /\
  mapM (Head_weights h) x = Some W /\
  Linear_forward (value h) x = Some v /\
  Head_forward h x = Some (map2 (matmul (out_features (value h))) W v) /\
  shape3 B T T S /\ shape3 B T T W /\ shape3 B T head_size v /\
  shape3 B T head_size (map2 (matmul (out_features (value h))) W v).
Proof.
  intros Hwf Hhs [HB Hx] HT S W v. rewrite Forall_forall in Hx.
  assert (Hone : forall xb, In xb x -> _) by
    (intros xb Hxb; exact (Head_mat_ok_f32 cfg head_size h T xb Hwf Hhs (Hx xb Hxb) HT)).
  assert (EO : map2 (matmul (out_features (value h))) W v =
               map (fun xb => matmul (out_features (value h))
                                (map softmax (mapi (scores_row h T xb) xb))
                                (map (Linear_apply (value h)) xb)) x).
  { unfold W, v, S. rewrite map_map, map2_map_l, map2_map_r, map2_diag. reflexivity. }
  split; [apply mapM_pure; intros xb Hxb;
          apply (Head_scores_ok cfg head_size h T xb Hwf Hhs (Hx xb Hxb) HT)|].
  split; [unfold W, S; rewrite map_map; apply mapM_pure; intros xb Hxb; apply (Hone xb Hxb)|].
  split; [apply mapM_pure; intros xb Hxb; apply (Hone xb Hxb)|].
  split; [rewrite EO; apply mapM_pure; intros xb Hxb; apply (Hone xb Hxb)|].
  split; [|split; [|split]].
  - split; [unfold S; rewrite length_map; exact HB|].
    apply Forall_forall. intros s Hs. apply in_map_iff in Hs. destruct Hs as [xb [<- Hxb]].
    apply (Hone xb Hxb).
  - split; [unfold W, S; rewrite !length_map; exact HB|].
    apply Forall_forall. intros s Hs. unfold W, S in Hs. rewrite map_map in Hs.
    apply in_map_iff in Hs. destruct Hs as [xb [<- Hxb]]. apply (Hone xb Hxb).
  - split; [unfold v; rewrite length_map; exact HB|].
    apply Forall_forall. intros s Hs. apply in_map_iff in Hs. destruct Hs as [xb [<- Hxb]].
    apply (Hone xb Hxb).
  - rewrite EO. split; [rewrite length_map; exact HB|].
    apply Forall_forall. intros s Hs. apply in_map_iff in Hs. destruct Hs as [xb [<- Hxb]].
    apply (Hone xb Hxb).
Qed.

(** Row [i] of the scores and of the weights of batch element [b]. *)
Lemma scores_nth (h : Head) (B T D : nat) (x : tensor3) (b i : nat) :
  shape3 B T D x -> b < B -> i < T ->
  nth i (nth b (map (fun xb => mapi (scores_row h T xb) xb) x) []) [] =
    scores_row h T (nth b x []) i (nth i (nth b x []) []) /\
  nth i (nth b (map (map softmax) (map (fun xb => mapi (scores_row h T xb) xb) x)) []) [] =
    softmax (scores_row h T (nth b x []) i (nth i (nth b x []) [])).
Proof.
  intros Hx Hb Hi. destruct (shape3_nth_f32 B T D x b Hx Hb) as [Hlen _].
  rewrite map_map.
  rewrite (nth_map_nil (fun xb => mapi (scores_row h T xb) xb)) by reflexivity.
  rewrite (nth_map_nil (fun xb => map softmax (mapi (scores_row h T xb) xb))) by reflexivity.
  rewrite map_mapi, !mapi_nth.
  rewrite (nth_error_nth' (nth b x []) [] (n := i)) by lia. split; reflexivity.
Qed.

Lemma scores_row_max (h : Head) (T : nat) (x : mat) (i : nat) (xi : vec) :
  row_max (scores_row h T x i xi) = row_max (map (head_score h xi) (firstn (S i) x)).
Proof. unfold scores_row. apply row_max_app_masked. Qed.

Lemma scores_row_future (h : Head) (T : nat) (x : mat) (i j : nat) (xi : vec) :
  length x = T -> i < j -> j < T ->
  nth_error (scores_row h T x i xi) j = Some (Infinity true).
Proof.
  intros Hlen Hij Hj. unfold scores_row.
  rewrite nth_error_app, length_map, length_firstn.
  destruct (Nat.ltb_spec j (Nat.min (S i) (length x))); [lia|].
  rewrite nth_error_repeat'.
  destruct (Nat.ltb_spec (j - Nat.min (S i) (length x)) (T - S i)); [reflexivity | lia].
Qed.

Lemma scores_row_past (h : Head) (T : nat) (x : mat) (i j : nat) (xi : vec) :
  length x = T -> j <= i -> i < T ->
  nth_error (scores_row h T x i xi) j = Some (head_score h xi (nth j x [])).
Proof.
  intros Hlen Hij Hi. unfold scores_row.
  rewrite nth_error_app, length_map, length_firstn.
  destruct (Nat.ltb_spec j (Nat.min (S i) (length x))); [|lia].
  rewrite nth_error_map, nth_error_firstn.
  destruct (Nat.ltb_spec j (S i)); [|lia].
  rewrite (nth_error_nth' x [] (n := j)) by lia. reflexivity.
Qed.

(** The weights of one query position: a distribution when the largest
    score of its row is finite, NaN throughout when it is not. *)
Lemma weights_row_cases (h : Head) (T : nat) (x : mat) (i : nat) (xi : vec) :
  length x = T -> i < T ->
  let srow := scores_row h T x i xi in
  ((forall j, j <= i -> is_finite (head_score h xi (nth j x []))) ->
   is_finite (row_max srow)) /\
  (is_finite (row_max srow) ->
   forall j, i < j -> j < T -> nth_error (softmax srow) j = Some (Finite 0)) /\
  (is_finite (row_max srow) -> (INR T <= float_max)%R ->
   exists ws, softmax srow = map Finite ws /\ Forall (fun a => (0 <= a)%R) ws /\
              Rsum ws = 1%R /\ fsum (softmax srow) = Finite 1) /\
  (~ is_finite (row_max srow) -> softmax srow = repeat NaN T).
Proof.
  intros Hlen Hi srow.
  assert (Ls : length srow = T) by (apply scores_row_length; assumption).
  split; [|split; [|split]].
  - intros Hfin. unfold srow. rewrite scores_row_max. apply row_max_all_finite.
    + destruct x as [|x0 x']; [simpl in Hlen; lia | discriminate].
    + apply Forall_forall. intros s Hs. apply in_map_iff in Hs. destruct Hs as [xj [<- Hxj]].
      apply In_nth_error in Hxj. destruct Hxj as [j Hj]. rewrite nth_error_firstn in Hj.
      destruct (Nat.ltb_spec j (S i)); [|discriminate].
      rewrite <- (nth_error_nth x j [] Hj). apply Hfin. lia.
  - intros Hfin j Hij Hj. destruct (row_max srow) as [m| |] eqn:Em; try contradiction.
    apply (softmax_masked_zero srow m j Em). apply scores_row_future; assumption.
  - intros Hfin HT. destruct (row_max srow) as [m| |] eqn:Em; try contradiction.
    rewrite <- Ls in HT.
    destruct (softmax_distribution srow m Em HT) as [ws [E [Hnn [Hsum [Hfs _]]]]].
    exists ws. auto.
  - intros Hnf. rewrite <- Ls. apply softmax_nan; [|exact Hnf].
    intros E. rewrite E in Ls. simpl in Ls. lia.
Qed.

(** Row [i] of the output of the head on one batch element. *)
Lemma Head_mat_row (cfg : Config) (head_size : nat) (h : Head) (T : nat) (x : mat) (i : nat) :
  wf_Head cfg head_size h -> 0 < head_size ->
  shape2 T (n_embd cfg) x -> T <= block_size cfg -> i < T ->
  nth i (matmul (out_features (value h)) (map softmax (mapi (scores_row h T x) x))
                (map (Linear_apply (value h)) x)) [] =
  vcomb (out_features (value h)) (softmax (scores_row h T x i (nth i x [])))
        (map (Linear_apply (value h)) x).
Proof.
  intros Hwf Hhs [Hlen _] HT Hi. unfold matmul.
  apply nth_error_nth. rewrite nth_error_map, nth_error_map, mapi_nth_error.
  rewrite (nth_error_nth' x [] (n := i)) by lia. reflexivity.
Qed.

Lemma nth_error_repeat_Some {A : Type} (a b : A) (n j : nat) :
  nth_error (repeat a n) j = Some b -> b = a.
Proof.
  rewrite nth_error_repeat'. destruct (j <? n)%nat; [|discriminate].
  intros H. inversion H. reflexivity.
Qed.

(** Two inputs that agree up to position [t], with finite values
    afterwards, give the same output at position [t]. *)
Lemma Head_row_agree (cfg : Config) (head_size : nat) (h : Head) (T : nat) (x x' : mat)
      (t : nat) :
  wf_Head cfg head_size h ->
  length x = T -> length x' = T -> t < T ->
  (forall s, s <= t -> nth s x [] = nth s x' []) ->
  (forall s, t < s -> s < T ->
     Forall is_finite (Linear_apply (value h) (nth s x [])) /\
     Forall is_finite (Linear_apply (value h) (nth s x' []))) ->
  vcomb (out_features (value h)) (softmax (scores_row h T x t (nth t x [])))
        (map (Linear_apply (value h)) x) =
  vcomb (out_features (value h)) (softmax (scores_row h T x' t (nth t x' [])))
        (map (Linear_apply (value h)) x').
Proof.
  intros Hwf Hlen Hlen' Ht Hagree Hfin.
  destruct Hwf as [_ [_ [Hv _]]].
  assert (Erow : scores_row h T x' t (nth t x' []) = scores_row h T x t (nth t x [])).
  { unfold scores_row. rewrite <- (Hagree t (Nat.le_refl t)).
    rewrite (firstn_agree [] t x x'); [reflexivity | lia | exact Hagree]. }
  rewrite Erow. set (srow := scores_row h T x t (nth t x [])).
  pose proof (weights_row_cases h T x t (nth t x []) Hlen Ht) as [_ [Hzero [_ Hnan]]].
  fold srow in Hzero, Hnan.
  apply vcomb_agree; [rewrite !length_map; lia|].
  intros j a r r' Ha Hr Hr'. rewrite nth_error_map in Hr, Hr'.
  destruct (nth_error x j) as [xj|] eqn:Hxj; [|discriminate].
  destruct (nth_error x' j) as [xj'|] eqn:Hxj'; [|discriminate].
  cbn [option_map] in Hr, Hr'. inversion Hr; subst r. inversion Hr'; subst r'.
  assert (Hj : j < T) by (rewrite <- Hlen; apply nth_error_Some; congruence).
  pose proof (nth_error_nth x j [] Hxj) as Nx. pose proof (nth_error_nth x' j [] Hxj') as Nx'.
  destruct (Nat.le_gt_cases j t) as [Hle|Hgt].
  - left. rewrite <- Nx, <- Nx'. rewrite (Hagree j Hle). reflexivity.
  - right.
    assert (Hl : length (Linear_apply (value h) xj) = length (Linear_apply (value h) xj')).
    { rewrite !(Linear_apply_length_f32 _ _ _ _ Hv). reflexivity. }
    destruct (row_max srow) as [m|s|] eqn:Em.
    + left. rewrite (Hzero I j Hgt Hj) in Ha. inversion Ha.
      destruct (Hfin j Hgt Hj) as [F F']. rewrite Nx in F. rewrite Nx' in F'. auto.
    + right. rewrite Hnan in Ha by (intros F; exact F).
      apply nth_error_repeat_Some in Ha. auto.
    + right. rewrite Hnan in Ha by (intros F; exact F).
      apply nth_error_repeat_Some in Ha. auto.
Qed.

(** C7.  In a forward pass of an attention head on an input of shape
    (B, T, D) with T <= block_size, every row of the (B, T, T) matrix of
    attention weights is the softmax of the masked scores of its query
    position.  When the largest score of the row is finite -- it is as
    soon as the scores against the positions up to the query did not
    overflow -- the row has only non-negative entries and sums to 1;
    otherwise every entry of the row is NaN.  (T is taken within the range
    of a float32, so that the T exponentials of a row can be added.) *)
Theorem attention_rows_are_distributions_or_nan
        (cfg : Config) (head_size : nat) (h : Head) (B T : nat) (x : tensor3) :
  wf_Head cfg head_size h -> 0 < head_size ->
  shape3 B T (n_embd cfg) x -> T <= block_size cfg -> (INR T <= float_max)%R ->
  exists S W v,
    mapM (Head_scores h) x = Some S /\
    mapM (Head_weights h) x = Some W /\
    Linear_forward (value h) x = Some v /\
    Head_forward h x = Some (map2 (matmul (out_features (value h))) W v) /\
    shape3 B T T S /\ shape3 B T T W /\
    forall b i, b < B -> i < T ->
      let xb := nth b x [] in
      let srow := nth i (nth b S []) [] in
      let wrow := nth i (nth b W []) [] in
      srow = scores_row h T xb i (nth i xb []) /\
      wrow = softmax srow /\
      ((forall j, j <= i -> is_finite (head_score h (nth i xb []) (nth j xb []))) ->
       is_finite (row_max srow)) /\
      (is_finite (row_max srow) ->
       exists ws, wrow = map Finite ws /\ Forall (fun a => (0 <= a)%R) ws /\
                  Rsum ws = 1%R /\ fsum wrow = Finite 1) /\
      (~ is_finite (row_max srow) -> wrow = repeat NaN T).
Proof.
  intros Hwf Hhs Hx HT HTmax.
  destruct (Head_forward_ok_f32 cfg head_size h B T x Hwf Hhs Hx HT)
    as [ES [EW [Ev [Eo [SS [SW _]]]]]].
  eexists. eexists. eexists.
  split; [exact ES|]. split; [exact EW|]. split; [exact Ev|]. split; [exact Eo|].
  split; [exact SS|]. split; [exact SW|].
  intros b i Hb Hi xb srow wrow.
  destruct (scores_nth h B T _ x b i Hx Hb Hi) as [Es Ew].
  destruct (shape3_nth_f32 B T _ x b Hx Hb) as [Hlen _].
  unfold srow, wrow. rewrite Es, Ew. fold xb.
  destruct (weights_row_cases h T xb i (nth i xb []) Hlen Hi) as [Hfin [_ [Hdist Hnan]]].
  split; [reflexivity|]. split; [reflexivity|]. split; [exact Hfin|].
  split; [|exact Hnan].
  intros Hmax. apply Hdist; assumption.
Qed.

(** C1.  For an input of shape (B, T, D) with T <= block_size, an
    attention head (a) uses the first T rows and columns of its fixed
    lower-triangular buffer, that is the T x T mask of the strictly future
    positions, keeps the scaled score of every other entry and sets the
    score of every masked entry to minus infinity;
    (b) gives every masked entry the attention weight zero in each row
    whose largest score is finite, the other rows being NaN throughout;
    and (c) produces at position [t] the same output for two inputs that
    agree at all positions up to [t], however they differ afterwards, as
    long as the value projections of the later positions are finite. *)
Theorem head_is_causal_on_finite_values
        (cfg : Config) (head_size : nat) (h : Head) (B T : nat) (x : tensor3) :
  wf_Head cfg head_size h -> 0 < head_size ->
  shape3 B T (n_embd cfg) x -> T <= block_size cfg ->
  eq_zero (slice2 T T (tril h)) = causal_mask T /\
  (exists S W v,
     mapM (Head_scores h) x = Some S /\
     mapM (Head_weights h) x = Some W /\
     Linear_forward (value h) x = Some v /\
     Head_forward h x = Some (map2 (matmul (out_features (value h))) W v) /\
     shape3 B T T S /\ shape3 B T T W /\ shape3 B T head_size v /\
     forall b i, b < B -> i < T ->
       let xb := nth b x [] in
       let srow := nth i (nth b S []) [] in
       let wrow := nth i (nth b W []) [] in
       srow = scores_row h T xb i (nth i xb []) /\
       wrow = softmax srow /\
       (forall j, j <= i -> nth j srow NaN = head_score h (nth i xb []) (nth j xb [])) /\
       (forall j, i < j -> j < T -> nth j srow NaN = Infinity true) /\
       (is_finite (row_max srow) ->
        forall j, i < j -> j < T -> nth j wrow NaN = Finite 0) /\
       (~ is_finite (row_max srow) -> wrow = repeat NaN T)) /\
  (forall x' t, shape3 B T (n_embd cfg) x' ->
     (forall b s, s <= t -> nth s (nth b x []) [] = nth s (nth b x' []) []) ->
     (forall b s, b < B -> t < s -> s < T ->
        Forall is_finite (Linear_apply (value h) (nth s (nth b x []) [])) /\
        Forall is_finite (Linear_apply (value h) (nth s (nth b x' []) []))) ->
     exists o o', Head_forward h x = Some o /\ Head_forward h x' = Some o' /\
       shape3 B T head_size o /\ shape3 B T head_size o' /\
       forall b, nth t (nth b o []) [] = nth t (nth b o' []) []).
Proof.
  intros Hwf Hhs Hx HT.
  destruct (Head_forward_ok_f32 cfg head_size h B T x Hwf Hhs Hx HT)
    as [ES [EW [Ev [Eo [SS [SW [Sv So]]]]]]].
  split; [|split].
  - destruct Hwf as [_ [_ [_ Htril]]]. rewrite Htril. apply sliced_mask_f32. assumption.
  - eexists. eexists. eexists.
    split; [exact ES|]. split; [exact EW|]. split; [exact Ev|]. split; [exact Eo|].
    split; [exact SS|]. split; [exact SW|]. split; [exact Sv|].
    intros b i Hb Hi xb srow wrow.
    destruct (scores_nth h B T _ x b i Hx Hb Hi) as [Es Ew].
    destruct (shape3_nth_f32 B T _ x b Hx Hb) as [Hlen _].
    unfold srow, wrow. rewrite Es, Ew. fold xb. fold xb in Hlen.
    destruct (weights_row_cases h T xb i (nth i xb []) Hlen Hi)
      as [_ [Hzero [_ Hnan]]].
    split; [reflexivity|]. split; [reflexivity|]. split; [|split; [|split; [|exact Hnan]]].
    + intros j Hji. apply nth_error_nth. apply scores_row_past; assumption.
    + intros j Hij Hj. apply nth_error_nth. apply scores_row_future; assumption.
    + intros Hmax j Hij Hj. apply nth_error_nth. apply Hzero; assumption.
  - intros x' t Hx' Hagree Hfin.
    destruct (Head_forward_ok_f32 cfg head_size h B T x' Hwf Hhs Hx' HT)
      as [_ [_ [_ [Eo' [_ [_ [_ So']]]]]]].
    eexists. eexists. split; [exact Eo|]. split; [exact Eo'|].
    split; [exact So|]. split; [exact So'|]. intros b.
    rewrite !map_map, !map2_map_l, !map2_map_r, !map2_diag.
    rewrite !(nth_map_nil
                (fun xb => matmul (out_features (value h))
                             (map softmax (mapi (scores_row h T xb) xb))
                             (map (Linear_apply (value h)) xb))) by reflexivity.
    destruct (Nat.lt_ge_cases b B) as [Hb|Hb].
    + destruct (shape3_nth_f32 B T _ x b Hx Hb) as [Hlen Hrows].
      destruct (shape3_nth_f32 B T _ x' b Hx' Hb) as [Hlen' Hrows'].
      destruct (Nat.lt_ge_cases t T) as [Ht|Ht].
      * rewrite (Head_mat_row cfg head_size h T (nth b x []) t Hwf Hhs
                   (conj Hlen Hrows) HT Ht).
        rewrite (Head_mat_row cfg head_size h T (nth b x' []) t Hwf Hhs
                   (conj Hlen' Hrows') HT Ht).
        apply (Head_row_agree cfg head_size h T _ _ t Hwf Hlen Hlen' Ht).
        -- intros s Hs. apply Hagree. exact Hs.
        -- intros s Hts Hs. apply Hfin; assumption.
      * unfold matmul. rewrite !nth_overflow; [reflexivity | |];
          rewrite !length_map, mapi_length; lia.
    + destruct Hx as [HB _], Hx' as [HB' _].
      rewrite (nth_overflow x) by lia. rewrite (nth_overflow x') by lia.
      destruct t; reflexivity.
Qed.

(** Row [i] of the output of the head for batch element [b]. *)
Lemma Head_forward_row (cfg : Config) (head_size : nat) (h : Head) (B T : nat) (x : tensor3)
      (b i : nat) :
  wf_Head cfg head_size h -> 0 < head_size ->
  shape3 B T (n_embd cfg) x -> T <= block_size cfg -> b < B -> i < T ->
  exists o, Head_forward h x = Some o /\ shape3 B T head_size o /\
    nth i (nth b o []) [] =
    vcomb head_size (softmax (scores_row h T (nth b x []) i (nth i (nth b x []) [])))
          (map (Linear_apply (value h)) (nth b x [])).
Proof.
  intros Hwf Hhs Hx HT Hb Hi.
  destruct (Head_forward_ok_f32 cfg head_size h B T x Hwf Hhs Hx HT)
    as [_ [_ [_ [Eo [_ [_ [_ So]]]]]]].
  eexists. split; [exact Eo|]. split; [exact So|].
  rewrite !map_map, !map2_map_l, !map2_map_r, !map2_diag.
  rewrite !(nth_map_nil
              (fun xb => matmul (out_features (value h))
                           (map softmax (mapi (scores_row h T xb) xb))
                           (map (Linear_apply (value h)) xb))) by reflexivity.
  destruct (shape3_nth_f32 B T _ x b Hx Hb) as [Hlen Hrows].
  rewrite (Head_mat_row cfg head_size h T (nth b x []) i Hwf Hhs (conj Hlen Hrows) HT Hi).
  destruct Hwf as [_ [_ [[_ [Ho _]] _]]]. rewrite Ho. reflexivity.
Qed.

(** ** The small instances *)

Lemma tiny_scale : (/ sqrt (INR 1) = 1)%R.
Proof. simpl. rewrite sqrt_1. apply Rinv_1. Qed.

Ltac f32_range :=
  match goal with
  | |- context [to_range ?r] =>
      first [ rewrite (to_range_in r) by (unfold float_max; lra)
            | rewrite (to_range_above r) by (unfold float_max; lra) ]
  | |- context [Req_dec_T ?a ?b] => destruct (Req_dec_T a b); try lra
  | |- context [Rlt_dec ?a ?b] => destruct (Rlt_dec a b); try lra
  end.

Ltac f32_eval :=
  unfold head_score, scores_row;
  repeat (cbn [fadd fmul fsub fneg fdiv fmax2 fsum dot vadd vscale vcomb Linear_apply
               head_score scores_row
               tiny_head Head_init Linear_init key query value weight bias out_features
               const_init sub tabulate seq map map2 fold_left fold_right firstn repeat
               app nth length Nat.sub negb xorb Bool.eqb tiny_config n_embd block_size];
          try rewrite tiny_scale;
          try f32_range).

Lemma tiny_x_shape_f32 : shape3 1 2 4 tiny_x.
Proof. repeat (split || constructor). Qed.

Lemma tiny_x'_shape_f32 : shape3 1 2 4 tiny_x'.
Proof. repeat (split || constructor). Qed.

Lemma tiny_x_overflow_shape : shape3 1 2 4 tiny_x_overflow.
Proof. repeat (split || constructor). Qed.

Lemma tiny_x_large_shape : shape3 1 2 4 tiny_x_large.
Proof. repeat (split || constructor). Qed.

Lemma tiny_head_wf_f32 : wf_Head tiny_config 1 tiny_head.
Proof. apply Head_init_wf_f32. Qed.

Lemma tiny_value (a b c d : R) :
  (0 <= a)%R -> (0 <= b)%R -> (0 <= c)%R -> (0 <= d)%R ->
  (a + b + c + d <= float_max)%R ->
  Linear_apply (value tiny_head) [Finite a; Finite b; Finite c; Finite d] =
  [Finite (a + b + c + d)].
Proof.
  intros Ha Hb Hc Hd Hs. pose proof float_max_ge_1.
  cbn [fadd fmul fsum dot Linear_apply
       tiny_head Head_init Linear_init value weight bias
       const_init sub tabulate seq map map2 fold_left tiny_config n_embd].
  repeat (cbn [fadd]; rewrite to_range_in by lra).
  f_equal. f_equal. lra.
Qed.

Lemma tiny_value_overflow :
  Linear_apply (value tiny_head)
    [Finite 300000000000000000000000000000000000000;
     Finite 300000000000000000000000000000000000000; Finite 0; Finite 0] =
  [Infinity false].
Proof. f32_eval. reflexivity. Qed.

Lemma tiny_score_first :
  head_score tiny_head [Finite 1; Finite 2; Finite 3; Finite 4]
             [Finite 1; Finite 2; Finite 3; Finite 4] = Finite 100.
Proof.
  f32_eval. f_equal. lra.
Qed.

Lemma tiny_score_large :
  head_score tiny_head [Finite 100000000000000000000; Finite 0; Finite 0; Finite 0]
             [Finite 100000000000000000000; Finite 0; Finite 0; Finite 0] = Infinity false.
Proof.
  f32_eval. reflexivity.
Qed.

(** ** The first position *)

Lemma row_max_head (a : float32) (k : nat) :
  row_max (a :: repeat (Infinity true) k) = a.
Proof.
  change (a :: repeat (Infinity true) k) with ([a] ++ repeat (Infinity true) k).
  rewrite row_max_app_masked. destruct a as [x|[|]|]; reflexivity.
Qed.

(** X7.  The first position attends to itself only.  On an input of shape
    (B, T, D) with 1 <= T <= block_size, when the score of position 0
    against itself is finite and the value projections of the later
    positions are finite, the output of a head at position 0 is the value
    projection of the input at position 0; when that score is not finite,
    the output at position 0 is NaN throughout. *)
Theorem head_first_position_is_value_when_finite
        (cfg : Config) (head_size : nat) (h : Head) (B T : nat) (x : tensor3) :
  wf_Head cfg head_size h -> 0 < head_size ->
  shape3 B T (n_embd cfg) x -> 0 < T -> T <= block_size cfg ->
  exists o, Head_forward h x = Some o /\ shape3 B T head_size o /\
    forall b, b < B ->
      let xb := nth b x [] in
      let x0 := nth 0 xb [] in
      (is_finite (head_score h x0 x0) ->
       (forall s, 0 < s -> s < T -> Forall is_finite (Linear_apply (value h) (nth s xb []))) ->
       nth 0 (nth b o []) [] = Linear_apply (value h) x0) /\
      (~ is_finite (head_score h x0 x0) ->
       nth 0 (nth b o []) [] = repeat NaN head_size).
Proof.
  intros Hwf Hhs Hx HT0 HT.
  destruct (Head_forward_ok_f32 cfg head_size h B T x Hwf Hhs Hx HT)
    as [_ [_ [_ [Eo [_ [_ [_ So]]]]]]].
  eexists. split; [exact Eo|]. split; [exact So|].
  intros b Hb xb x0.
  destruct (Head_forward_row cfg head_size h B T x b 0 Hwf Hhs Hx HT Hb HT0)
    as [o' [Eo' [_ Er]]].
  rewrite Eo in Eo'. inversion Eo'; subst o'. clear Eo'. rewrite Er. fold xb. fold x0.
  destruct (shape3_nth_f32 B T _ x b Hx Hb) as [Hlen Hrows]. fold xb in Hlen, Hrows.
  pose proof Hwf as [_ [_ [Hv _]]].
  assert (Erow : scores_row h T xb 0 x0 =
                 head_score h x0 x0 :: repeat (Infinity true) (T - 1)).
  { unfold scores_row, x0. destruct xb as [|y xb']; [simpl in Hlen; lia | reflexivity]. }
  rewrite Erow. split.
  - intros Hfin Hvals.
    destruct (head_score h x0 x0) as [s| |]; try contradiction.
    rewrite softmax_one_hot.
    destruct xb as [|y xb'] eqn:Exb; [simpl in Hlen; lia|].
    assert (Ex0 : x0 = y) by reflexivity. rewrite Ex0.
    pose proof (Linear_apply_in_range (value h) y) as Hr.
    pose proof (Linear_apply_length_f32 _ _ _ y Hv) as Hl.
    unfold vcomb. cbn [map map2 fold_left].
    rewrite (vscale_one_f32 _ Hr). rewrite <- Hl at 1. rewrite (vadd_zero_l_f32 _ Hr).
    apply (fold_vadd_zero_terms head_size); [exact Hr | exact Hl |].
    apply Forall_forall. intros t Ht. apply In_nth_error in Ht. destruct Ht as [j Hj].
    rewrite map2_nth_error, nth_error_repeat', nth_error_map in Hj.
    destruct (j <? T - 1)%nat eqn:Ej; [|discriminate]. cbn [option_map] in Hj.
    destruct (nth_error xb' j) as [xj|] eqn:Hxj; [|discriminate].
    cbn [option_map] in Hj. inversion Hj.
    apply Nat.ltb_lt in Ej.
    assert (Hf : Forall is_finite (Linear_apply (value h) xj)).
    { specialize (Hvals (S j)). cbn [nth] in Hvals.
      rewrite (nth_error_nth _ _ [] Hxj) in Hvals. apply Hvals; lia. }
    rewrite (vscale_zero_f32 _ Hf), (Linear_apply_length_f32 _ _ _ xj Hv). reflexivity.
  - intros Hnf. rewrite softmax_nan; [| discriminate | rewrite row_max_head; exact Hnf].
    cbn [length]. rewrite repeat_length.
    replace (S (T - 1)) with T by lia.
    apply vcomb_nan; [exact HT0|].
    destruct (Linear_mat_ok_f32 _ _ _ _ _ Hv (conj Hlen Hrows)) as [_ Sv]. exact Sv.
Qed.

(** ** A buffer of one row *)

Lemma Head_scores_unmasked (cfg : Config) (head_size : nat) (h : Head) (T : nat) (x : mat) :
  wf_Head cfg head_size h -> 0 < head_size -> block_size cfg = 1 ->
  shape2 T (n_embd cfg) x -> 2 <= T ->
  Head_scores h x = Some (map (fun xi => map (head_score h xi) x) x).
Proof.
  intros [Hk [Hq [_ Htril]]] Hhs Hbs Hx HT. pose proof Hx as [Hlen _].
  destruct (Linear_mat_ok_f32 _ _ _ _ _ Hk Hx) as [Ek _].
  destruct (Linear_mat_ok_f32 _ _ _ _ _ Hq Hx) as [Eq _].
  unfold Head_scores. rewrite Ek, Eq. cbn [bind].
  assert (Ho : out_features (key h) = head_size) by (destruct Hk as [_ [Ho _]]; exact Ho).
  rewrite pow_neg_half_ok by (rewrite Ho; assumption). cbn [bind].
  rewrite Htril, Hbs, Hlen.
  assert (Em : eq_zero (slice2 T T (torch_tril (torch_ones 1 1))) = [[false]]).
  { destruct T as [|T']; [lia|]. cbn. rewrite !firstn_nil. cbn.
    destruct (Req_dec_T 1 0); [lra | reflexivity]. }
  rewrite Em. unfold masked_fill. rewrite !length_map, Hlen.
  rewrite expand_one. cbn [bind].
  rewrite zipM_pure with (g := fun (w : vec) (m : list bool) => w).
  - f_equal. rewrite map2_const_r by (rewrite !length_map; exact Hlen).
    rewrite !map_map. apply map_ext. intros xi. unfold head_score.
    rewrite !map_map. reflexivity.
  - rewrite !length_map, repeat_length. exact Hlen.
  - intros i w m Hw Hm. rewrite nth_error_repeat' in Hm.
    destruct (i <? T)%nat; [|discriminate]. inversion Hm; subst m.
    assert (Lw : length w = T).
    { rewrite nth_error_map in Hw. destruct (nth_error (map (Linear_apply (query h)) x) i);
        [|discriminate]. inversion Hw; subst w. rewrite !length_map. exact Hlen. }
    rewrite Lw, expand_one. cbn [bind]. f_equal.
    rewrite map2_const_r by exact Lw. apply map_id.
Qed.

(** X9.  With [block_size = 1] the mask protects nothing on longer inputs:
    for T >= 2 the 1 x 1 slice of the buffer is broadcast over the whole
    T x T score matrix and no score is replaced by minus infinity.  The
    head does not raise; its output at every position is the combination
    of the values of all T positions weighted by the softmax of the
    unmasked scores; and in a row with a finite maximum, a position that
    attains the maximum -- a later one as well as an earlier one -- gets
    a weight of at least 1/T. *)
Theorem head_unmasked_when_block_size_is_one
        (cfg : Config) (head_size : nat) (h : Head) (B T : nat) (x : tensor3) :
  wf_Head cfg head_size h -> 0 < head_size -> block_size cfg = 1 ->
  shape3 B T (n_embd cfg) x -> 2 <= T ->
  mapM (Head_scores h) x =
    Some (map (fun xb => map (fun xi => map (head_score h xi) xb) xb) x) /\
  exists o, Head_forward h x = Some o /\ shape3 B T head_size o /\
    forall b i, b < B -> i < T ->
      let xb := nth b x [] in
      let srow := map (head_score h (nth i xb [])) xb in
      nth i (nth b o []) [] =
        vcomb head_size (softmax srow) (map (Linear_apply (value h)) xb) /\
      ((INR T <= float_max)%R -> forall j m, j < T ->
         row_max srow = Finite m -> nth j srow NaN = Finite m ->
         exists w, nth j (softmax srow) NaN = Finite w /\ (/ INR T <= w)%R).
Proof.
  intros Hwf Hhs Hbs Hx HT. pose proof Hx as [HB Hxs]. rewrite Forall_forall in Hxs.
  pose proof Hwf as [_ [_ [Hv _]]].
  assert (Ho : out_features (value h) = head_size) by (destruct Hv as [_ [Ho _]]; exact Ho).
  assert (Hone : forall xb, In xb x ->
            Head_mat h xb =
            Some (matmul head_size (map softmax (map (fun xi => map (head_score h xi) xb) xb))
                         (map (Linear_apply (value h)) xb))).
  { intros xb Hxb. unfold Head_mat, Head_weights.
    rewrite (Head_scores_unmasked cfg head_size h T xb Hwf Hhs Hbs (Hxs xb Hxb) HT).
    cbn [bind]. destruct (Linear_mat_ok_f32 _ _ _ _ _ Hv (Hxs xb Hxb)) as [Ev _].
    rewrite Ev, Ho. reflexivity. }
  split.
  - apply mapM_pure. intros xb Hxb.
    apply (Head_scores_unmasked cfg head_size h T xb Hwf Hhs Hbs (Hxs xb Hxb) HT).
  - eexists. split; [apply mapM_pure; exact Hone|]. split.
    + split; [rewrite length_map; exact HB|].
      apply Forall_forall. intros r Hr. apply in_map_iff in Hr. destruct Hr as [xb [<- Hxb]].
      destruct (Hxs xb Hxb) as [Hlen Hrows].
      split; [unfold matmul; rewrite !length_map; exact Hlen|].
      apply Forall_forall. intros r Hr. unfold matmul in Hr. apply in_map_iff in Hr.
      destruct Hr as [w [<- _]]. apply vcomb_length_f32.
      destruct (Linear_mat_ok_f32 _ _ _ _ _ Hv (Hxs xb Hxb)) as [_ [_ Sv]]. exact Sv.
    + intros b i Hb Hi xb srow.
      destruct (shape3_nth_f32 B T _ x b Hx Hb) as [Hlen Hrows]. fold xb in Hlen, Hrows.
      split.
      * rewrite (nth_map_nil
                   (fun xb => matmul head_size
                                (map softmax (map (fun xi => map (head_score h xi) xb) xb))
                                (map (Linear_apply (value h)) xb))) by reflexivity.
        fold xb. unfold matmul. apply nth_error_nth.
        rewrite !nth_error_map. rewrite (nth_error_nth' xb [] (n := i)) by lia. reflexivity.
      * intros HTmax j m Hj Hm Hjm.
        assert (Ls : length srow = T) by (unfold srow; rewrite length_map; exact Hlen).
        rewrite <- Ls in HTmax.
        destruct (softmax_distribution srow m Hm HTmax) as [ws [E [_ [_ [_ Hshare]]]]].
        destruct (Hshare j) as [w [Hw Hge]].
        { rewrite <- Hjm. apply nth_error_nth'. lia. }
        exists w. split; [|rewrite <- Ls; exact Hge].
        rewrite E. apply nth_error_nth. rewrite nth_error_map, Hw. reflexivity.
Qed.

(** ** Attention as a weighted average *)

Lemma fold_vadd_nth (p c : nat) (terms : list vec) (acc : vec) :
  length acc = p -> Forall (shape1 p) terms -> c < p ->
  nth c (fold_left vadd terms acc) NaN =
  fold_left fadd (map (fun t => nth c t NaN) terms) (nth c acc NaN).
Proof.
  intros Ha HF Hc. revert acc Ha. induction HF as [|t terms Ht HF IH]; intros acc Ha.
  - reflexivity.
  - cbn [fold_left map]. unfold shape1 in Ht. rewrite IH.
    + f_equal. unfold vadd. apply map2_nth; lia.
    + unfold vadd. rewrite map2_length. lia.
Qed.

Lemma scaled_rows_nth (p c : nat) (w : vec) (b : mat) :
  Forall (shape1 p) b -> c < p ->
  map (fun t => nth c t NaN) (map2 vscale w b) =
  map2 fmul w (map (fun r => nth c r NaN) b).
Proof.
  intros Hb Hc. revert w. induction Hb as [|r b Hr Hb IH]; intros [|a w]; try reflexivity.
  cbn [map2 map]. f_equal; [|apply IH].
  unfold vscale. apply nth_map_default. unfold shape1 in Hr. lia.
Qed.

Lemma vcomb_nth_f32 (p c : nat) (w : vec) (b : mat) :
  Forall (shape1 p) b -> c < p ->
  nth c (vcomb p w b) NaN =
  fold_left fadd (map2 fmul w (map (fun r => nth c r NaN) b)) (Finite 0).
Proof.
  intros Hb Hc. unfold vcomb.
  rewrite (fold_vadd_nth p c); [| apply repeat_length | apply scaled_rows_shape; exact Hb | exact Hc].
  rewrite (scaled_rows_nth p) by assumption. rewrite nth_repeat_lt by exact Hc. reflexivity.
Qed.

Lemma Forall2_pointwise {A B : Type} (P : A -> B -> Prop) (l1 : list A) (l2 : list B) :
  length l1 = length l2 ->
  (forall j a b, nth_error l1 j = Some a -> nth_error l2 j = Some b -> P a b) ->
  Forall2 P l1 l2.
Proof.
  revert l2. induction l1 as [|a l1 IH]; intros [|b l2] Hlen H; simpl in Hlen; try lia.
  - constructor.
  - constructor.
    + apply (H 0); reflexivity.
    + apply IH; [lia|]. intros j a' b' Ha Hb. apply (H (S j)); assumption.
Qed.

(** A combination of values between [lo] and [hi], with non-negative
    weights of total at most 1, is accumulated without leaving the range
    and ends between [lo] and [hi] times the total weight. *)
Lemma weighted_fold (lo hi : R) (ws vs : list R) :
  Forall2 (fun w v => (0 <= w)%R /\ (- float_max <= v <= float_max)%R /\
                      (w = 0%R \/ (lo <= v <= hi)%R)) ws vs ->
  (- float_max <= lo)%R -> (hi <= float_max)%R ->
  forall a P : R,
    (0 <= P)%R -> (P + Rsum ws <= 1)%R -> (lo * P <= a <= hi * P)%R ->
    exists r,
      fold_left fadd (map2 fmul (map Finite ws) (map Finite vs)) (Finite a) = Finite r /\
      (lo * (P + Rsum ws) <= r <= hi * (P + Rsum ws))%R.
Proof.
  pose proof float_max_ge_1 as Hmax.
  intros HF Hlo Hhi. induction HF as [|w v ws vs [Hw [Hv Hwv]] HF IH]; intros a P HP Hsum Ha.
  - exists a. split; [reflexivity|]. unfold Rsum. simpl. rewrite Rplus_0_r. exact Ha.
  - change (Rsum (w :: ws)) with (w + Rsum ws)%R in *.
    assert (Hnn : (0 <= Rsum ws)%R).
    { apply Rsum_nonneg. clear -HF. induction HF as [|? ? ? ? [H _] _ IH]; constructor; auto. }
    assert (Hw1 : (w <= 1)%R) by lra.
    assert (Hprod : (- float_max <= w * v <= float_max)%R) by nra.
    assert (Hstep : (lo * (P + w) <= a + w * v <= hi * (P + w))%R).
    { destruct Hwv as [->|[Hl Hh]]; [rewrite Rmult_0_l, !Rplus_0_r; exact Ha | nra]. }
    assert (Hq : (0 <= P + w <= 1)%R) by lra.
    assert (Hrange : (- float_max <= a + w * v <= float_max)%R).
    { assert (- float_max <= lo * (P + w))%R by (destruct (Rle_dec 0 lo); nra).
      assert (hi * (P + w) <= float_max)%R by (destruct (Rle_dec 0 hi); nra).
      lra. }
    cbn [map map2 fold_left fmul]. rewrite (to_range_in (w * v)) by exact Hprod.
    cbn [fadd]. rewrite (to_range_in (a + w * v)) by exact Hrange.
    destruct (IH (a + w * v)%R (P + w)%R) as [r [Er Hr]]; [lra | lra | exact Hstep |].
    exists r. split; [exact Er|]. rewrite <- Rplus_assoc. exact Hr.
Qed.

Lemma in_range_nth (v : vec) (c : nat) : Forall in_range v -> in_range (nth c v NaN).
Proof.
  intros HF. destruct (Nat.lt_ge_cases c (length v)) as [H|H].
  - rewrite Forall_forall in HF. apply HF. apply nth_In. exact H.
  - rewrite nth_overflow by exact H. exact I.
Qed.

(** X20.  The output of a head is a weighted average of the values of the
    past.  At a query position whose largest score is finite, and with
    finite value projections at the later positions, every coordinate of
    the output is finite and lies between any two bounds that hold for
    that coordinate of the value projections of the positions up to the
    query.  (T is taken within the range of a float32, and the bounds
    within half of it, which leaves room for the rounding of the sum.) *)
Theorem head_output_averages_finite_past_values
        (cfg : Config) (head_size : nat) (h : Head) (B T : nat) (x : tensor3) :
  wf_Head cfg head_size h -> 0 < head_size ->
  shape3 B T (n_embd cfg) x -> T <= block_size cfg -> (INR T <= float_max)%R ->
  exists o, Head_forward h x = Some o /\ shape3 B T head_size o /\
    forall b i c lo hi, b < B -> i < T -> c < head_size ->
      (- float_max / 2 <= lo)%R -> (hi <= float_max / 2)%R ->
      let xb := nth b x [] in
      is_finite (row_max (scores_row h T xb i (nth i xb []))) ->
      (forall j, j <= i -> exists r,
          nth c (Linear_apply (value h) (nth j xb [])) NaN = Finite r /\ (lo <= r <= hi)%R) ->
      (forall j, i < j -> j < T ->
          is_finite (nth c (Linear_apply (value h) (nth j xb [])) NaN)) ->
      exists r, nth c (nth i (nth b o []) []) NaN = Finite r /\ (lo <= r <= hi)%R.
Proof.
  intros Hwf Hhs Hx HT HTmax.
  destruct (Head_forward_ok_f32 cfg head_size h B T x Hwf Hhs Hx HT)
    as [_ [_ [_ [Eo [_ [_ [_ So]]]]]]].
  eexists. split; [exact Eo|]. split; [exact So|].
  intros b i c lo hi Hb Hi Hc Hlo Hhi xb Hclean Hpast Hfuture.
  destruct (Head_forward_row cfg head_size h B T x b i Hwf Hhs Hx HT Hb Hi)
    as [o' [Eo' [_ Er]]].
  rewrite Eo in Eo'. inversion Eo'; subst o'. clear Eo'. rewrite Er. fold xb.
  destruct (shape3_nth_f32 B T _ x b Hx Hb) as [Hlen Hrows]. fold xb in Hlen, Hrows.
  pose proof Hwf as [_ [_ [Hv _]]].
  destruct (Linear_mat_ok_f32 _ _ _ _ _ Hv (conj Hlen Hrows)) as [_ [_ Sv]].
  set (srow := scores_row h T xb i (nth i xb [])) in *.
  assert (Ls : length srow = T) by (apply scores_row_length; assumption).
  destruct (row_max srow) as [m| |] eqn:Em; try contradiction.
  rewrite <- Ls in HTmax.
  destruct (softmax_distribution srow m Em HTmax) as [ws [E [Hnn [Hsum _]]]].
  assert (Lw : length ws = T).
  { rewrite <- Ls, <- (softmax_length_f32 srow), E, length_map. reflexivity. }
  rewrite (vcomb_nth_f32 head_size c) by assumption.
  set (rs := map (fun xj => to_real (nth c (Linear_apply (value h) xj) NaN)) xb).
  assert (Hfin : forall j, j < T ->
            nth c (Linear_apply (value h) (nth j xb [])) NaN =
            Finite (to_real (nth c (Linear_apply (value h) (nth j xb [])) NaN))).
  { intros j Hj. destruct (Nat.le_gt_cases j i) as [Hle|Hgt].
    - destruct (Hpast j Hle) as [r [-> _]]. reflexivity.
    - specialize (Hfuture j Hgt Hj).
      destruct (nth c (Linear_apply (value h) (nth j xb [])) NaN); try contradiction.
      reflexivity. }
  assert (Ecol : map (fun r => nth c r NaN) (map (Linear_apply (value h)) xb) = map Finite rs).
  { unfold rs. rewrite !map_map. apply nth_error_ext. intros j. rewrite !nth_error_map.
    destruct (nth_error xb j) as [xj|] eqn:Hxj; [|reflexivity]. cbn [option_map]. f_equal.
    assert (Hj : j < T) by (rewrite <- Hlen; apply nth_error_Some; congruence).
    rewrite <- (nth_error_nth xb j [] Hxj). apply Hfin. exact Hj. }
  rewrite E, Ecol.
  pose proof float_max_ge_1 as Hmax.
  destruct (weighted_fold lo hi ws rs) with (a := 0%R) (P := 0%R) as [r [Efold Hr]].
  - apply Forall2_pointwise; [unfold rs; rewrite length_map; lia|].
    intros j w v Hw Hv'. unfold rs in Hv'. rewrite nth_error_map in Hv'.
    destruct (nth_error xb j) as [xj|] eqn:Hxj; [|discriminate].
    cbn [option_map] in Hv'. inversion Hv'; subst v. clear Hv'.
    assert (Hj : j < T) by (rewrite <- Hlen; apply nth_error_Some; congruence).
    pose proof (nth_error_nth xb j [] Hxj) as Nj.
    pose proof (in_range_nth _ c (Linear_apply_in_range (value h) xj)) as Hr.
    rewrite <- Nj in Hr |- *. rewrite (Hfin j Hj) in Hr. cbn [in_range] in Hr.
    split; [|split; [exact Hr|]].
    + rewrite Forall_forall in Hnn. apply Hnn. apply (nth_error_In _ _ Hw).
    + destruct (Nat.le_gt_cases j i) as [Hle|Hgt].
      * right. destruct (Hpast j Hle) as [r [Er' Hb']]. rewrite Er' in Hr |- *.
        cbn [to_real] in *. exact Hb'.
      * left. pose proof (weights_row_cases h T xb i (nth i xb []) Hlen Hi) as [_ [Hzero _]].
        fold srow in Hzero. rewrite Em in Hzero. specialize (Hzero I j Hgt Hj).
        rewrite E, nth_error_map, Hw in Hzero. inversion Hzero. reflexivity.
  - lra.
  - lra.
  - lra.
  - rewrite Hsum. lra.
  - rewrite !Rmult_0_r. lra.
  - exists r. split; [exact Efold|].
    rewrite Hsum, Rplus_0_l, !Rmult_1_r in Hr. exact Hr.
Qed.

(** ** The theorems at the small float32 instances *)

Lemma tiny_weights_large :
  exists W, mapM (Head_weights tiny_head) tiny_x_large = Some W /\ shape3 1 2 2 W /\
            nth 0 (nth 0 W []) [] = [NaN; NaN].
Proof.
  destruct (Head_forward_ok_f32 tiny_config 1 tiny_head 1 2 tiny_x_large
              tiny_head_wf_f32 (Nat.lt_0_succ 0) tiny_x_large_shape (Nat.le_refl 2))
    as [_ [EW [_ [_ [_ [SW _]]]]]].
  eexists. split; [exact EW|]. split; [exact SW|].
  destruct (scores_nth tiny_head 1 2 4 tiny_x_large 0 0 tiny_x_large_shape
              (Nat.lt_0_succ 0) (Nat.lt_0_succ 1)) as [_ Ew].
  rewrite Ew. cbn [tiny_x_large nth]. unfold scores_row. cbn [firstn map app repeat Nat.sub].
  rewrite tiny_score_large.
  apply (softmax_nan [Infinity false; Infinity true]); [discriminate|].
  intros F. exact F.
Qed.

(** The first output row of the small head on an input whose first
    position is (1, 2, 3, 4). *)
Lemma tiny_first_row (x1 : vec) (v1 : float32) :
  length x1 = 4 -> Linear_apply (value tiny_head) x1 = [v1] ->
  exists o,
    Head_forward tiny_head [[[Finite 1; Finite 2; Finite 3; Finite 4]; x1]] = Some o /\
    nth 0 (nth 0 o []) [] = [fadd (Finite 10) (fmul (Finite 0) v1)].
Proof.
  intros Hlen Hv.
  assert (Hx : shape3 1 2 4 [[[Finite 1; Finite 2; Finite 3; Finite 4]; x1]]).
  { repeat (split || constructor). exact Hlen. }
  destruct (Head_forward_row tiny_config 1 tiny_head 1 2 _ 0 0
              tiny_head_wf_f32 (Nat.lt_0_succ 0) Hx (Nat.le_refl 2)
              (Nat.lt_0_succ 0) (Nat.lt_0_succ 1)) as [o [Eo [_ Er]]].
  exists o. split; [exact Eo|]. rewrite Er. cbn [nth].
  unfold scores_row. cbn [firstn map app Nat.sub].
  rewrite tiny_score_first, (softmax_one_hot 100 1). rewrite Hv.
  rewrite (tiny_value 1 2 3 4) by (unfold float_max; lra).
  cbn [vcomb map2 vscale map fold_left repeat vadd].
  assert (Hr : in_range (Finite (1 + 2 + 3 + 4))) by (simpl; unfold float_max; lra).
  rewrite (fmul_one_l _ Hr), (fadd_zero_l _ Hr).
  f_equal. f_equal. f_equal. lra.
Qed.

(** C1, as stated, fails where a value projection overflows: the two
    inputs agree at position 0, the value projection of position 1
    overflows in the second, and the outputs at position 0 are 10 and NaN.
    It also fails for the weights of a row whose score overflows: the
    masked entry of row 0 is NaN, not zero. *)
Lemma head_output_follows_overflowing_future_value :
  wf_Head tiny_config 1 tiny_head /\
  shape3 1 2 4 tiny_x /\ shape3 1 2 4 tiny_x_overflow /\ 2 <= block_size tiny_config /\
  (forall b s, s <= 0 -> nth s (nth b tiny_x []) [] = nth s (nth b tiny_x_overflow []) []) /\
  (exists o o',
     Head_forward tiny_head tiny_x = Some o /\
     Head_forward tiny_head tiny_x_overflow = Some o' /\
     nth 0 (nth 0 o []) [] = [Finite 10] /\
     nth 0 (nth 0 o' []) [] = [NaN]) /\
  (shape3 1 2 4 tiny_x_large /\
   exists W, mapM (Head_weights tiny_head) tiny_x_large = Some W /\
             nth 1 (nth 0 (nth 0 W []) []) (Finite 0) = NaN).
Proof.
  split; [exact tiny_head_wf_f32|]. split; [exact tiny_x_shape_f32|].
  split; [exact tiny_x_overflow_shape|]. split; [apply Nat.le_refl|].
  split; [|split].
  - intros b s Hs. assert (s = 0) by lia. subst s. destruct b as [|[|b]]; reflexivity.
  - destruct (tiny_first_row [Finite 0; Finite 1; Finite 0; Finite 1] (Finite 2) eq_refl)
      as [o [Eo Er]].
    { rewrite (tiny_value 0 1 0 1) by (unfold float_max; lra). f_equal. f_equal. lra. }
    destruct (tiny_first_row
                [Finite 300000000000000000000000000000000000000;
                 Finite 300000000000000000000000000000000000000; Finite 0; Finite 0]
                (Infinity false) eq_refl tiny_value_overflow) as [o' [Eo' Er']].
    exists o, o'. split; [exact Eo|]. split; [exact Eo'|]. split.
    + rewrite Er. rewrite fmul_zero_l by exact I.
      rewrite fadd_zero_r by (simpl; unfold float_max; lra). reflexivity.
    + rewrite Er'. cbn [fmul]. destruct (Req_dec_T 0 0); [reflexivity | lra].
  - split; [exact tiny_x_large_shape|].
    destruct tiny_weights_large as [W [EW [_ Er]]].
    exists W. split; [exact EW|]. rewrite Er. reflexivity.
Qed.

(** C7, as stated, fails where a score overflows: with inputs of
    magnitude 1e20 the score of position 0 is infinite and row 0 of the
    weights is NaN, neither non-negative nor of sum 1. *)
Lemma attention_weights_nan_on_overflow :
  wf_Head tiny_config 1 tiny_head /\ 0 < 1 /\
  shape3 1 2 4 tiny_x_large /\ 2 <= block_size tiny_config /\
  exists W,
    mapM (Head_weights tiny_head) tiny_x_large = Some W /\
    nth 0 (nth 0 W []) [] = [NaN; NaN] /\
    ~ (forall wb row, In wb W -> In row wb ->
         exists ws, row = map Finite ws /\
                    Forall (fun a => (0 <= a)%R) ws /\ Rsum ws = 1%R).
Proof.
  split; [exact tiny_head_wf_f32|]. split; [apply Nat.lt_0_succ|].
  split; [exact tiny_x_large_shape|]. split; [apply Nat.le_refl|].
  destruct tiny_weights_large as [W [EW [[LW SW] Er]]].
  exists W. split; [exact EW|]. split; [exact Er|].
  intros H.
  destruct W as [|wb W']; [simpl in LW; lia|].
  inversion SW as [|? ? [Lwb _] _]; subst.
  destruct wb as [|row wb']; [simpl in Lwb; lia|].
  cbn [nth] in Er. subst row.
  destruct (H ([NaN; NaN] :: wb') [NaN; NaN]) as [ws [E _]]; [left; reflexivity .. |].
  destruct ws as [|w ws']; discriminate.
Qed.

Lemma head_is_causal_on_finite_values_witness :
  exists o o',
    Head_forward tiny_head tiny_x = Some o /\
    Head_forward tiny_head tiny_x' = Some o' /\
    shape3 1 2 1 o /\ shape3 1 2 1 o' /\
    forall b, nth 0 (nth b o []) [] = nth 0 (nth b o' []) [].
Proof.
  destruct (head_is_causal_on_finite_values tiny_config 1 tiny_head 1 2 tiny_x
              tiny_head_wf_f32 (Nat.lt_0_succ 0) tiny_x_shape_f32 (Nat.le_refl 2))
    as [_ [_ H]].
  apply (H tiny_x' 0 tiny_x'_shape_f32).
  - intros b s Hs. assert (s = 0) by lia. subst s.
    destruct b as [|[|b]]; reflexivity.
  - intros b s Hb Hs Hs2. assert (b = 0) by lia. assert (s = 1) by lia. subst b s.
    cbn [tiny_x tiny_x' nth].
    rewrite (tiny_value 0 1 0 1), (tiny_value 5 5 5 5) by (unfold float_max; lra).
    split; repeat constructor.
Defined.

Lemma attention_rows_are_distributions_or_nan_witness :
  exists S W v,
    mapM (Head_scores tiny_head) tiny_x = Some S /\
    mapM (Head_weights tiny_head) tiny_x = Some W /\
    Linear_forward (value tiny_head) tiny_x = Some v /\
    Head_forward tiny_head tiny_x = Some (map2 (matmul (out_features (value tiny_head))) W v) /\
    shape3 1 2 2 S /\ shape3 1 2 2 W.
Proof.
  assert (HT : (INR 2 <= float_max)%R) by (simpl; unfold float_max; lra).
  destruct (attention_rows_are_distributions_or_nan tiny_config 1 tiny_head 1 2 tiny_x
              tiny_head_wf_f32 (Nat.lt_0_succ 0) tiny_x_shape_f32 (Nat.le_refl 2) HT)
    as [S [W [v [ES [EW [Ev [Eo [SS [SW _]]]]]]]]].
  exists S, W, v.
  split; [exact ES|]. split; [exact EW|]. split; [exact Ev|]. split; [exact Eo|].
  split; [exact SS | exact SW].
Defined.

Lemma head_first_position_is_value_when_finite_witness :
  exists o, Head_forward tiny_head tiny_x = Some o /\
    nth 0 (nth 0 o []) [] = Linear_apply (value tiny_head) (nth 0 (nth 0 tiny_x []) []).
Proof.
  destruct (head_first_position_is_value_when_finite tiny_config 1 tiny_head 1 2 tiny_x
              tiny_head_wf_f32 (Nat.lt_0_succ 0) tiny_x_shape_f32 (Nat.lt_0_succ 1)
              (Nat.le_refl 2)) as [o [Eo [_ H]]].
  exists o. split; [exact Eo|].
  destruct (H 0 (Nat.lt_0_succ 0)) as [Hfin _]. apply Hfin.
  - cbn [tiny_x nth]. rewrite tiny_score_first. exact I.
  - intros s Hs0 Hs. assert (s = 1) by lia. subst s. cbn [tiny_x nth].
    rewrite (tiny_value 0 1 0 1) by (unfold float_max; lra). repeat constructor.
Defined.

Lemma head_unmasked_when_block_size_is_one_witness :
  exists o, Head_forward tiny_head1 tiny_x = Some o /\ shape3 1 2 1 o.
Proof.
  destruct (head_unmasked_when_block_size_is_one tiny_config1 1 tiny_head1 1 2 tiny_x
              (Head_init_wf_f32 tiny_config1 1 (const_init 1)) (Nat.lt_0_succ 0) eq_refl
              tiny_x_shape_f32 (Nat.le_refl 2)) as [_ [o [Eo [So _]]]].
  exists o. split; [exact Eo | exact So].
Defined.

Lemma head_output_averages_finite_past_values_witness :
  exists o, Head_forward tiny_head tiny_x = Some o /\
    exists r, nth 0 (nth 0 (nth 0 o []) []) NaN = Finite r /\ (10 <= r <= 10)%R.
Proof.
  assert (HT : (INR 2 <= float_max)%R) by (simpl; unfold float_max; lra).
  destruct (head_output_averages_finite_past_values tiny_config 1 tiny_head 1 2 tiny_x
              tiny_head_wf_f32 (Nat.lt_0_succ 0) tiny_x_shape_f32 (Nat.le_refl 2) HT)
    as [o [Eo [_ H]]].
  exists o. split; [exact Eo|].
  apply (H 0 0 0 10%R 10%R (Nat.lt_0_succ 0) (Nat.lt_0_succ 1) (Nat.lt_0_succ 0)).
  - unfold float_max. lra.
  - unfold float_max. lra.
  - cbn [tiny_x nth]. unfold scores_row. cbn [firstn map app repeat Nat.sub].
    rewrite tiny_score_first. exact I.
  - intros j Hj. assert (j = 0) by lia. subst j. cbn [tiny_x nth].
    rewrite (tiny_value 1 2 3 4) by (unfold float_max; lra).
    exists (1 + 2 + 3 + 4)%R. split; [reflexivity | lra].
  - intros j Hj0 Hj. assert (j = 1) by lia. subst j. cbn [tiny_x nth].
    rewrite (tiny_value 0 1 0 1) by (unfold float_max; lra). exact I.
Defined.

End Float32Facts.

(** * The language model in floating point *)

Section Float32Model.

Import Float32.

(** ** Shapes through the layers *)

Lemma LayerNorm_vec_ok_f32 (n : nat) (ln : LayerNorm) (x : vec) :
  wf_LayerNorm n ln -> length x = n ->
  LayerNorm_vec ln x = Some (LayerNorm_apply ln x) /\ length (LayerNorm_apply ln x) = n.
Proof.
  intros [Hn [Hw Hb]] Hx. unfold shape1 in *. split.
  - unfold LayerNorm_vec. rewrite Hx, Hn, Nat.eqb_refl. reflexivity.
  - unfold LayerNorm_apply, vadd. rewrite !map2_length, length_map. lia.
Qed.

Lemma LayerNorm_forward_ok_f32 (n B T : nat) (ln : LayerNorm) (x : tensor3) :
  wf_LayerNorm n ln -> shape3 B T n x ->
  LayerNorm_forward ln x = Some (map (map (LayerNorm_apply ln)) x) /\
  shape3 B T n (map (map (LayerNorm_apply ln)) x).
Proof.
  intros Hwf [HB Hx]. rewrite Forall_forall in Hx. split.
  - apply mapM_pure. intros xb Hxb. apply mapM_pure. intros r Hr.
    destruct (Hx xb Hxb) as [_ Hrows]. rewrite Forall_forall in Hrows.
    apply (LayerNorm_vec_ok_f32 n ln r Hwf (Hrows r Hr)).
  - split; [rewrite length_map; assumption|].
    apply Forall_forall. intros y Hy. apply in_map_iff in Hy. destruct Hy as [xb [<- Hxb]].
    destruct (Hx xb Hxb) as [HT Hrows]. rewrite Forall_forall in Hrows.
    split; [rewrite length_map; assumption|].
    apply Forall_forall. intros z Hz. apply in_map_iff in Hz. destruct Hz as [r [<- Hr]].
    apply (LayerNorm_vec_ok_f32 n ln r Hwf (Hrows r Hr)).
Qed.

Lemma vadd_shape_f32 (n : nat) (u v : vec) : shape1 n u -> shape1 n v -> shape1 n (vadd u v).
Proof. unfold shape1, vadd. intros. rewrite map2_length. lia. Qed.

Lemma madd_shape_f32 (T n : nat) (a b : mat) :
  shape2 T n a -> shape2 T n b -> shape2 T n (madd a b).
Proof.
  intros [Ha Hra] [Hb Hrb]. split.
  - unfold madd. rewrite map2_length. lia.
  - apply (map2_Forall (shape1 n) (shape1 n)); auto using vadd_shape_f32.
Qed.

Lemma tadd_shape_f32 (B T n : nat) (a b : tensor3) :
  shape3 B T n a -> shape3 B T n b -> shape3 B T n (tadd a b).
Proof.
  intros [Ha Hra] [Hb Hrb]. split.
  - unfold tadd. rewrite map2_length. lia.
  - apply (map2_Forall (shape2 T n) (shape2 T n)); auto using madd_shape_f32.
Qed.

Lemma relu_shape_f32 (B T n : nat) (x : tensor3) : shape3 B T n x -> shape3 B T n (relu x).
Proof.
  intros [HB Hx]. rewrite Forall_forall in Hx. unfold relu. split.
  - rewrite length_map. assumption.
  - apply Forall_forall. intros y Hy. apply in_map_iff in Hy. destruct Hy as [xb [<- Hxb]].
    destruct (Hx xb Hxb) as [HT Hrows]. rewrite Forall_forall in Hrows.
    split; [rewrite length_map; assumption|].
    apply Forall_forall. intros z Hz. apply in_map_iff in Hz. destruct Hz as [r [<- Hr]].
    unfold shape1. rewrite length_map. apply (Hrows r Hr).
Qed.

Lemma FeedForward_forward_ok_f32 (cfg : Config) (f : FeedForward) (B T : nat) (x : tensor3) :
  wf_FeedForward cfg f -> shape3 B T (n_embd cfg) x ->
  exists y, FeedForward_forward f x = Some y /\ shape3 B T (n_embd cfg) y.
Proof.
  intros [H0 H2] Hx. unfold FeedForward_forward.
  destruct (Linear_forward_ok_f32 _ _ _ _ _ _ H0 Hx) as [E0 S0]. rewrite E0. cbn [bind].
  apply relu_shape_f32 in S0.
  destruct (Linear_forward_ok_f32 _ _ _ _ _ _ H2 S0) as [E2 S2]. rewrite E2.
  eexists. split; [reflexivity | exact S2].
Qed.

Lemma cat_mat_ok_f32 (T p q : nat) (a b : mat) :
  shape2 T p a -> shape2 T q b ->
  cat_mat a b = Some (map2 (@app float32) a b) /\ shape2 T (p + q) (map2 (@app float32) a b).
Proof.
  intros [Ha Hra] [Hb Hrb]. split.
  - unfold cat_mat. apply zipM_pure; [lia | reflexivity].
  - split; [rewrite map2_length; lia|].
    apply (map2_Forall (shape1 p) (shape1 q)); auto.
    unfold shape1. intros. rewrite length_app. lia.
Qed.

Lemma cat_tensor3_ok_f32 (B T p q : nat) (a b : tensor3) :
  shape3 B T p a -> shape3 B T q b ->
  cat_tensor3 a b = Some (map2 (map2 (@app float32)) a b) /\
  shape3 B T (p + q) (map2 (map2 (@app float32)) a b).
Proof.
  intros [Ha Hra] [Hb Hrb]. split.
  - unfold cat_tensor3. apply zipM_pure; [lia|].
    intros i x y Hx Hy.
    apply (cat_mat_ok_f32 T p q x y (Forall_nth_error _ _ _ _ Hra Hx)
             (Forall_nth_error _ _ _ _ Hrb Hy)).
  - split; [rewrite map2_length; lia|].
    apply (map2_Forall (shape2 T p) (shape2 T q)); auto.
    intros x y Hx Hy. apply (cat_mat_ok_f32 T p q x y Hx Hy).
Qed.

Lemma cat_last_ok_f32 (B T p : nat) (ts : list tensor3) :
  ts <> [] -> Forall (shape3 B T p) ts ->
  exists c, cat_last ts = Some c /\ shape3 B T (length ts * p) c.
Proof.
  intros Hne HF. induction HF as [|o ts Ho HF IH]; [congruence|].
  destruct ts as [|o' ts'].
  - exists o. simpl. rewrite Nat.add_0_r. split; [reflexivity | exact Ho].
  - destruct IH as [c [Ec Sc]]; [discriminate|].
    destruct (cat_tensor3_ok_f32 B T p _ o c Ho Sc) as [E S].
    exists (map2 (map2 (@app float32)) o c). split; [|exact S].
    change (cat_last (o :: o' :: ts')) with (bind (cat_last (o' :: ts')) (fun r => cat_tensor3 o r)).
    rewrite Ec. exact E.
Qed.

Lemma MultiHeadAttention_forward_ok_f32
      (cfg : Config) (num_heads head_size : nat) (m : MultiHeadAttention)
      (B T : nat) (x : tensor3) :
  wf_MultiHeadAttention cfg num_heads head_size m ->
  0 < num_heads -> 0 < head_size -> num_heads * head_size = n_embd cfg ->
  shape3 B T (n_embd cfg) x -> T <= block_size cfg ->
  exists a, MultiHeadAttention_forward m x = Some a /\ shape3 B T (n_embd cfg) a.
Proof.
  intros [Hn [Hheads Hproj]] Hnh Hhs Hdiv Hx HT.
  destruct (mapM_total (fun h => Head_forward h x) (shape3 B T head_size) (heads m))
    as [outs [Eouts [Hlen Hshapes]]].
  { intros h Hh. rewrite Forall_forall in Hheads.
    destruct (Head_forward_ok_f32 cfg head_size h B T x (Hheads h Hh) Hhs Hx HT)
      as [_ [_ [_ [E [_ [_ [_ S]]]]]]].
    eexists. split; [exact E | exact S]. }
  assert (Hne : outs <> []) by (destruct outs; [simpl in Hlen; lia | discriminate]).
  destruct (cat_last_ok_f32 B T head_size outs Hne Hshapes) as [c [Ec Sc]].
  rewrite Hlen, Hn, Hdiv in Sc.
  destruct (Linear_forward_ok_f32 _ _ _ _ _ _ Hproj Sc) as [Ep Sp].
  eexists. split; [|exact Sp].
  unfold MultiHeadAttention_forward. rewrite Eouts. cbn [bind]. rewrite Ec. cbn [bind].
  exact Ep.
Qed.

Lemma Block_forward_ok_f32 (cfg : Config) (n_head : nat) (b : Block) (B T : nat) (x : tensor3) :
  wf_Block cfg n_head b ->
  0 < n_head -> 0 < n_embd cfg -> n_embd cfg mod n_head = 0 ->
  shape3 B T (n_embd cfg) x -> T <= block_size cfg ->
  exists n1 y,
    LayerNorm_forward (ln1 b) x = Some n1 /\ shape3 B T (n_embd cfg) n1 /\
    Block_forward b x = Some y /\ shape3 B T (n_embd cfg) y.
Proof.
  intros [Hsa [Hff [Hl1 Hl2]]] Hnh HD Hmod Hx HT.
  destruct (LayerNorm_forward_ok_f32 _ B T _ x Hl1 Hx) as [E1 S1].
  assert (Hdiv : n_head * (n_embd cfg / n_head) = n_embd cfg).
  { pose proof (Nat.div_mod_eq (n_embd cfg) n_head). lia. }
  assert (Hhs : 0 < n_embd cfg / n_head) by nia.
  destruct (MultiHeadAttention_forward_ok_f32 cfg n_head _ (sa b) B T _ Hsa Hnh Hhs Hdiv S1 HT)
    as [a [Ea Sa]].
  pose proof (tadd_shape_f32 B T _ x a Hx Sa) as Sx1.
  destruct (LayerNorm_forward_ok_f32 _ B T _ _ Hl2 Sx1) as [E2 S2].
  destruct (FeedForward_forward_ok_f32 cfg (ffwd b) B T _ Hff S2) as [f [Ef Sf]].
  eexists. eexists. split; [exact E1|]. split; [exact S1|]. split.
  - unfold Block_forward. rewrite E1. cbn [bind]. rewrite Ea. cbn [bind].
    rewrite E2. cbn [bind]. rewrite Ef. reflexivity.
  - apply (tadd_shape_f32 B T _ _ _ Sx1 Sf).
Qed.

Lemma Embedding_lookup_ok_f32 (n d : nat) (e : Embedding) (i : Z) :
  wf_Embedding n d e -> (0 <= i < Z.of_nat n)%Z ->
  exists v, Embedding_lookup e i = Some v /\ shape1 d v.
Proof.
  intros [Hn [_ [Hlen Hrows]]] Hi. unfold Embedding_lookup. rewrite Hn.
  destruct (Z.leb_spec 0 i); [|lia]. destruct (Z.ltb_spec i (Z.of_nat n)); [|lia]. simpl.
  destruct (nth_error (emb_weight e) (Z.to_nat i)) as [v|] eqn:Hv.
  - exists v. split; [reflexivity|]. apply (Forall_nth_error _ _ _ _ Hrows Hv).
  - apply nth_error_None in Hv. lia.
Qed.

Lemma blocks_forward_ok_f32 (cfg : Config) (bs : list Block) (B T : nat) (x : tensor3) :
  Forall (wf_Block cfg 4) bs -> 0 < n_embd cfg -> n_embd cfg mod 4 = 0 ->
  shape3 B T (n_embd cfg) x -> T <= block_size cfg ->
  exists y, blocks_forward bs x = Some y /\ shape3 B T (n_embd cfg) y.
Proof.
  intros Hbs HD Hmod. revert x. induction Hbs as [|b bs Hb Hbs IH]; intros x Hx HT; simpl.
  - exists x. split; [reflexivity | assumption].
  - destruct (Block_forward_ok_f32 cfg 4 b B T x Hb (Nat.lt_0_succ 3) HD Hmod Hx HT)
      as [n1 [y [_ [_ [E S]]]]].
    rewrite E. cbn [bind]. apply IH; assumption.
Qed.

(** The embedded input of a forward pass. *)
Lemma embed_ok_f32 (cfg : Config) (m : BigramLanguageModel) (B T : nat) (idx : list (list Z)) :
  wf_BigramLanguageModel cfg m ->
  zshape2 B T idx -> codes_in (vocab_size cfg) idx -> T <= block_size cfg ->
  exists tok pos,
    mapM (mapM (Embedding_lookup (token_embedding_table m))) idx = Some tok /\
    mapM (Embedding_lookup (position_embedding_table m)) (arange (dim1 idx)) = Some pos /\
    shape3 B T (n_embd cfg) (map (fun te => madd te pos) tok).
Proof.
  intros [Htok [Hpos _]] [HB Hrows] Hcodes HT.
  destruct (mapM_total (mapM (Embedding_lookup (token_embedding_table m)))
                       (shape2 T (n_embd cfg)) idx) as [tok [Etok [Ltok Stok]]].
  { intros r Hr. rewrite Forall_forall in Hrows. unfold codes_in in Hcodes.
    rewrite Forall_forall in Hcodes. specialize (Hcodes r Hr).
    destruct (mapM_total (Embedding_lookup (token_embedding_table m))
                         (shape1 (n_embd cfg)) r) as [te [Ete [Lte Ste]]].
    { intros i Hi. rewrite Forall_forall in Hcodes.
      apply (Embedding_lookup_ok_f32 _ _ _ i Htok (Hcodes i Hi)). }
    exists te. split; [exact Ete|]. split; [rewrite Lte; apply Hrows; assumption | exact Ste]. }
  assert (Hdim : dim1 idx <= block_size cfg).
  { destruct idx as [|r idx']; simpl; [lia|]. inversion Hrows; subst. assumption. }
  destruct (mapM_total (Embedding_lookup (position_embedding_table m))
                       (shape1 (n_embd cfg)) (arange (dim1 idx))) as [pos [Epos [Lpos Spos]]].
  { intros i Hi. pose proof (arange_codes (dim1 idx) (block_size cfg) Hdim) as HF.
    rewrite Forall_forall in HF. apply (Embedding_lookup_ok_f32 _ _ _ i Hpos (HF i Hi)). }
  exists tok, pos. split; [exact Etok|]. split; [exact Epos|].
  split; [rewrite length_map; lia|].
  apply Forall_forall. intros y Hy. apply in_map_iff in Hy. destruct Hy as [te [<- Hte]].
  rewrite Forall_forall in Stok. apply madd_shape_f32; [apply Stok; assumption|].
  split; [|exact Spos]. rewrite Lpos. unfold arange. rewrite length_map, length_seq.
  apply (dim1_shape B T idx HB Hrows).
  destruct tok; [contradiction | simpl in Ltok; lia].
Qed.

(** The logits of a forward pass without targets. *)
Lemma forward_ok_f32 (cfg : Config) (m : BigramLanguageModel) (B T : nat) (idx : list (list Z)) :
  wf_BigramLanguageModel cfg m -> 0 < n_embd cfg -> n_embd cfg mod 4 = 0 ->
  zshape2 B T idx -> codes_in (vocab_size cfg) idx -> T <= block_size cfg ->
  exists logits, shape3 B T (vocab_size cfg) logits /\
    forward m idx None = Some (Logits3 logits, None).
Proof.
  intros Hwf HD Hmod Hidx Hcodes HT.
  destruct (embed_ok_f32 cfg m B T idx Hwf Hidx Hcodes HT) as [tok [pos [Etok [Epos Sx]]]].
  destruct Hwf as [_ [_ [Hblocks [Hln Hhead]]]].
  destruct (blocks_forward_ok_f32 cfg (blocks m) B T _ Hblocks HD Hmod Sx HT) as [y [Ey Sy]].
  destruct (LayerNorm_forward_ok_f32 _ B T _ y Hln Sy) as [Eln Sln].
  destruct (Linear_forward_ok_f32 _ _ _ _ _ _ Hhead Sln) as [Eh Sh].
  eexists. split; [exact Sh|].
  unfold forward.
  rewrite Etok. cbn [bind]. rewrite Epos. cbn [bind]. rewrite Ey. cbn [bind].
  rewrite Eln. cbn [bind]. rewrite Eh. reflexivity.
Qed.

(** ** The model on a prefix of the context *)

Lemma cat_tensor3_prefix_f32 (k : nat) (a b c : tensor3) :
  cat_tensor3 a b = Some c ->
  cat_tensor3 (time_prefix k a) (time_prefix k b) = Some (time_prefix k c).
Proof.
  unfold cat_tensor3, time_prefix. apply zipM_map.
  intros x y z. unfold cat_mat. apply zipM_firstn.
Qed.

Lemma cat_last_prefix_f32 (k : nat) (ts : list tensor3) (c : tensor3) :
  cat_last ts = Some c -> cat_last (map (time_prefix k) ts) = Some (time_prefix k c).
Proof.
  revert c. induction ts as [|t ts IH]; intros c H; [discriminate|].
  destruct ts as [|t' ts'].
  - simpl in *. inversion H; subst. reflexivity.
  - change (cat_last (t :: t' :: ts')) with (bind (cat_last (t' :: ts')) (fun r => cat_tensor3 t r)) in H.
    inv_bind H.
    change (cat_last (map (time_prefix k) (t :: t' :: ts')))
      with (bind (cat_last (map (time_prefix k) (t' :: ts')))
                 (fun r => cat_tensor3 (time_prefix k t) r)).
    rewrite (IH _ Ha). cbn [bind]. apply cat_tensor3_prefix_f32. exact H.
Qed.

Lemma tadd_prefix_f32 (k : nat) (a b : tensor3) :
  tadd (time_prefix k a) (time_prefix k b) = time_prefix k (tadd a b).
Proof.
  unfold tadd, time_prefix. apply map2_map_both. intros x y. unfold madd.
  symmetry. apply map2_firstn.
Qed.

Lemma relu_prefix_f32 (k : nat) (x : tensor3) : relu (time_prefix k x) = time_prefix k (relu x).
Proof.
  unfold relu, time_prefix. rewrite !map_map. apply map_ext. intros xb.
  symmetry. apply firstn_map.
Qed.

Lemma prefix_shape3_f32 (k B T D : nat) (x : tensor3) :
  shape3 B T D x -> shape3 B (Nat.min k T) D (time_prefix k x).
Proof.
  intros [HB Hx]. unfold time_prefix. split; [rewrite length_map; exact HB|].
  apply Forall_forall. intros y Hy. apply in_map_iff in Hy. destruct Hy as [xb [<- Hxb]].
  rewrite Forall_forall in Hx. destruct (Hx xb Hxb) as [HT Hrows]. split.
  - rewrite length_firstn, HT. reflexivity.
  - rewrite <- (firstn_skipn k xb) in Hrows. apply Forall_app in Hrows. apply Hrows.
Qed.

Lemma Linear_forward_prefix_f32 (l : Linear) (k : nat) (x y : tensor3) :
  Linear_forward l x = Some y -> Linear_forward l (time_prefix k x) = Some (time_prefix k y).
Proof. unfold Linear_forward, Linear_mat. apply mapM2_prefix. Qed.

Lemma LayerNorm_forward_prefix_f32 (ln : LayerNorm) (k : nat) (x y : tensor3) :
  LayerNorm_forward ln x = Some y ->
  LayerNorm_forward ln (time_prefix k x) = Some (time_prefix k y).
Proof. unfold LayerNorm_forward. apply mapM2_prefix. Qed.

Lemma FeedForward_forward_prefix_f32 (f : FeedForward) (k : nat) (x y : tensor3) :
  FeedForward_forward f x = Some y ->
  FeedForward_forward f (time_prefix k x) = Some (time_prefix k y).
Proof.
  unfold FeedForward_forward. intros H. inv_bind H.
  rewrite (Linear_forward_prefix_f32 _ k _ _ Ha). cbn [bind].
  rewrite relu_prefix_f32. apply Linear_forward_prefix_f32. exact H.
Qed.

(** *** One head *)

Lemma fold_fadd_zeros (n : nat) (a : float32) :
  in_range a -> fold_left fadd (repeat (Finite 0) n) a = a.
Proof.
  intros Ha. induction n as [|n IH]; [reflexivity|].
  cbn [repeat fold_left]. rewrite fadd_zero_r by exact Ha. exact IH.
Qed.

(** Masked entries appended to a row leave its weights as they are and
    get the weight zero, when the row maximum is finite. *)
Lemma softmax_app_masked (r : vec) (n : nat) :
  is_finite (row_max r) ->
  softmax (r ++ repeat (Infinity true) n) = softmax r ++ repeat (Finite 0) n.
Proof.
  intros Hfin. destruct (row_max r) as [m| |] eqn:Em; try contradiction.
  assert (Em' : row_max (r ++ repeat (Infinity true) n) = Finite m)
    by (rewrite row_max_app_masked; exact Em).
  destruct (softmax_finite_max _ _ Em) as [E _].
  destruct (softmax_finite_max _ _ Em') as [E' _].
  destruct (softmax_total _ _ Em) as [Hge Et].
  assert (E0 : exp_gap m (Infinity true) = 0%R) by (apply exp_gap_spec; auto).
  rewrite E', E. rewrite !map_app, !map_repeat, E0.
  assert (Etot : fsum (map Finite (map (exp_gap m) r) ++ repeat (Finite 0) n) =
                 fsum (map Finite (map (exp_gap m) r))).
  { unfold fsum. rewrite fold_left_app. apply fold_fadd_zeros.
    apply fold_fadd_in_range. simpl. pose proof float_max_ge_1. lra. }
  rewrite Etot. f_equal. f_equal. rewrite Et.
  destruct (Rlt_dec float_max (Rsum (map (exp_gap m) r))); [reflexivity|].
  cbn [fdiv]. destruct (Req_dec_T (Rsum (map (exp_gap m) r)) 0); [lra|].
  pose proof float_max_ge_1.
  rewrite to_range_in by (unfold Rdiv; rewrite Rmult_0_l; lra).
  f_equal. unfold Rdiv. apply Rmult_0_l.
Qed.

Lemma fold_vadd_in_range (terms : list vec) (acc : vec) :
  Forall in_range acc -> Forall in_range (fold_left vadd terms acc).
Proof.
  revert acc. induction terms as [|t terms IH]; intros acc Ha; [exact Ha|].
  cbn [fold_left]. apply IH. apply vadd_in_range.
Qed.

Lemma vcomb_in_range (p : nat) (w : vec) (b : mat) : Forall in_range (vcomb p w b).
Proof.
  unfold vcomb. apply fold_vadd_in_range.
  apply Forall_forall. intros a Ha. apply repeat_spec in Ha. subst a.
  simpl. pose proof float_max_ge_1. lra.
Qed.

(** Rows with finite entries and the weight zero, appended to a
    combination, leave it as it is. *)
Lemma vcomb_app_zero (p n : nat) (w : vec) (b1 b2 : mat) :
  length w = length b1 -> Forall (shape1 p) b1 ->
  Forall (fun r => shape1 p r /\ Forall is_finite r) b2 ->
  vcomb p (w ++ repeat (Finite 0) n) (b1 ++ b2) = vcomb p w b1.
Proof.
  intros Hlen Hb1 Hb2. unfold vcomb. rewrite map2_app by exact Hlen.
  rewrite fold_left_app. apply (fold_vadd_zero_terms p).
  - apply (vcomb_in_range p w b1).
  - apply (vcomb_length_f32 p w b1 Hb1).
  - apply Forall_forall. intros t Ht. apply In_nth_error in Ht. destruct Ht as [j Hj].
    rewrite map2_nth_error, nth_error_repeat' in Hj.
    destruct (j <? n)%nat; [|discriminate]. cbn [option_map] in Hj.
    destruct (nth_error b2 j) as [r|] eqn:Hr; [|discriminate]. inversion Hj.
    destruct (Forall_nth_error _ _ _ _ Hb2 Hr) as [Hs Hf].
    rewrite (vscale_zero_f32 _ Hf). unfold shape1 in Hs. rewrite Hs. reflexivity.
Qed.

Lemma is_finite_dec (a : float32) : {is_finite a} + {~ is_finite a}.
Proof. destruct a; simpl; [left; exact I | right; tauto | right; tauto]. Qed.

Lemma head_rows_prefix_f32 (cfg : Config) (head_size : nat) (h : Head) (T k : nat) (xb : mat) :
  wf_Head cfg head_size h -> shape2 T (n_embd cfg) xb ->
  (forall s, k <= s -> s < T -> Forall is_finite (Linear_apply (value h) (nth s xb []))) ->
  matmul head_size
         (map softmax (mapi (scores_row h (Nat.min k T) (firstn k xb)) (firstn k xb)))
         (map (Linear_apply (value h)) (firstn k xb)) =
  firstn k (matmul head_size (map softmax (mapi (scores_row h T xb) xb))
                   (map (Linear_apply (value h)) xb)).
Proof.
  intros Hwf [Hlen Hrows] Hfin. pose proof Hwf as [_ [_ [Hv _]]].
  unfold matmul. apply nth_error_ext. intros i.
  rewrite nth_error_firstn, !nth_error_map, !mapi_nth_error, nth_error_firstn.
  destruct (Nat.ltb_spec i k) as [Hi|Hi]; [|reflexivity].
  destruct (nth_error xb i) as [xi|] eqn:Hxi; [|reflexivity]. cbn [option_map]. f_equal.
  assert (HiT : i < T) by (rewrite <- Hlen; apply nth_error_Some; congruence).
  set (past := map (head_score h xi) (firstn (S i) xb)).
  assert (Es' : scores_row h (Nat.min k T) (firstn k xb) i xi =
                past ++ repeat (Infinity true) (Nat.min k T - S i)).
  { unfold scores_row, past. rewrite firstn_firstn. do 3 f_equal. lia. }
  assert (Es : scores_row h T xb i xi =
               (past ++ repeat (Infinity true) (Nat.min k T - S i))
               ++ repeat (Infinity true) (T - Nat.min k T)).
  { unfold scores_row. fold past. rewrite <- app_assoc, <- repeat_app. do 2 f_equal. lia. }
  rewrite Es, Es'. set (srow := past ++ repeat (Infinity true) (Nat.min k T - S i)).
  assert (Ls : length srow = Nat.min k T).
  { unfold srow, past. rewrite length_app, length_map, length_firstn, repeat_length. lia. }
  assert (Ex : xb = firstn k xb ++ skipn k xb) by (symmetry; apply firstn_skipn).
  assert (Sv : forall l, Forall (shape1 (n_embd cfg)) l ->
                 Forall (shape1 head_size) (map (Linear_apply (value h)) l)).
  { intros l _. apply Forall_forall. intros r Hr. apply in_map_iff in Hr.
    destruct Hr as [a [<- _]]. apply (Linear_apply_length_f32 _ _ _ a Hv). }
  destruct (is_finite_dec (row_max srow)) as [Hclean|Hdirty].
  - rewrite softmax_app_masked by exact Hclean.
    replace (map (Linear_apply (value h)) xb)
      with (map (Linear_apply (value h)) (firstn k xb)
            ++ map (Linear_apply (value h)) (skipn k xb))
      by (rewrite <- map_app, firstn_skipn; reflexivity).
    symmetry. apply vcomb_app_zero.
    + rewrite softmax_length_f32, Ls, length_map, length_firstn. lia.
    + apply Sv. rewrite Ex in Hrows. apply Forall_app in Hrows. apply Hrows.
    + apply Forall_forall. intros r Hr. apply in_map_iff in Hr. destruct Hr as [a [<- Ha]].
      split; [apply (Linear_apply_length_f32 _ _ _ a Hv)|].
      apply In_nth_error in Ha. destruct Ha as [j Hj].
      assert (Hjl : j < length (skipn k xb)) by (apply nth_error_Some; congruence).
      rewrite length_skipn in Hjl.
      rewrite nth_error_skipn in Hj. rewrite <- (nth_error_nth xb (k + j) [] Hj).
      apply Hfin; lia.
  - assert (Hne : srow <> []) by (intros E; rewrite E in Ls; simpl in Ls; lia).
    assert (Hne' : srow ++ repeat (Infinity true) (T - Nat.min k T) <> [])
      by (destruct srow; [congruence | discriminate]).
    assert (Hdirty' : ~ is_finite (row_max (srow ++ repeat (Infinity true) (T - Nat.min k T))))
      by (rewrite row_max_app_masked; exact Hdirty).
    rewrite (softmax_nan srow Hne Hdirty), (softmax_nan _ Hne' Hdirty').
    rewrite length_app, repeat_length, Ls.
    replace (Nat.min k T + (T - Nat.min k T)) with T by lia.
    rewrite (vcomb_nan head_size T);
      [| lia | split; [rewrite length_map; exact Hlen | apply Sv; exact Hrows]].
    apply vcomb_nan; [lia|]. split; [rewrite length_map, length_firstn; lia|].
    apply Sv. rewrite Ex in Hrows. apply Forall_app in Hrows. apply Hrows.
Qed.

Lemma Head_forward_prefix_f32 (cfg : Config) (head_size : nat) (h : Head)
      (B T k : nat) (x o : tensor3) :
  wf_Head cfg head_size h -> 0 < head_size ->
  shape3 B T (n_embd cfg) x -> T <= block_size cfg ->
  head_values_finite k h x ->
  Head_forward h x = Some o ->
  Head_forward h (time_prefix k x) = Some (time_prefix k o).
Proof.
  intros Hwf Hhs Hx HT Hfin Ho.
  destruct (Head_forward_ok_f32 cfg head_size h B T x Hwf Hhs Hx HT)
    as [_ [_ [_ [E _]]]].
  rewrite E in Ho. inversion Ho; subst o. clear Ho.
  destruct (Head_forward_ok_f32 cfg head_size h B _ _ Hwf Hhs (prefix_shape3_f32 k B T _ x Hx))
    as [_ [_ [_ [E' _]]]]; [lia|].
  rewrite E'. f_equal.
  rewrite !map_map, !map2_map_l, !map2_map_r, !map2_diag.
  pose proof Hwf as [_ [_ [[_ [Ho _]] _]]]. rewrite Ho.
  unfold time_prefix. rewrite !map_map. apply map_ext_in. intros xb Hxb.
  destruct Hx as [_ Hx]. rewrite Forall_forall in Hx.
  apply (head_rows_prefix_f32 cfg head_size h T k xb Hwf (Hx xb Hxb)).
  intros s Hks Hs. apply (Hfin xb s Hxb Hks).
  destruct (Hx xb Hxb) as [Hlen _]. lia.
Qed.

Lemma MultiHeadAttention_forward_prefix_f32
      (cfg : Config) (num_heads head_size : nat) (m : MultiHeadAttention)
      (B T k : nat) (x a : tensor3) :
  wf_MultiHeadAttention cfg num_heads head_size m -> 0 < head_size ->
  shape3 B T (n_embd cfg) x -> T <= block_size cfg ->
  attention_values_finite k m x ->
  MultiHeadAttention_forward m x = Some a ->
  MultiHeadAttention_forward m (time_prefix k x) = Some (time_prefix k a).
Proof.
  intros [_ [Hheads _]] Hhs Hx HT Hfin H. unfold MultiHeadAttention_forward in *.
  inv_bind H. rename a0 into outs. inv_bind H. rename a0 into c.
  rewrite (mapM_post (fun h => Head_forward h x) (fun h => Head_forward h (time_prefix k x))
                     (time_prefix k) (heads m) outs).
  - cbn [bind]. rewrite (cat_last_prefix_f32 k outs c Ha0). cbn [bind].
    apply Linear_forward_prefix_f32. exact H.
  - intros h o Hin Ho. rewrite Forall_forall in Hheads.
    apply (Head_forward_prefix_f32 cfg head_size h B T k x o (Hheads h Hin) Hhs Hx HT
             (Hfin h Hin) Ho).
  - exact Ha.
Qed.

Lemma Block_forward_prefix_f32 (cfg : Config) (n_head : nat) (b : Block)
      (B T k : nat) (x y : tensor3) :
  wf_Block cfg n_head b ->
  0 < n_head -> 0 < n_embd cfg -> n_embd cfg mod n_head = 0 ->
  shape3 B T (n_embd cfg) x -> T <= block_size cfg ->
  (forall n1, LayerNorm_forward (ln1 b) x = Some n1 -> attention_values_finite k (sa b) n1) ->
  Block_forward b x = Some y ->
  Block_forward b (time_prefix k x) = Some (time_prefix k y).
Proof.
  intros [Hsa [Hff [Hl1 Hl2]]] Hnh HD Hmod Hx HT Hfin H. unfold Block_forward in *.
  inv_bind H. rename a into n1. inv_bind H. inv_bind H. rename a0 into n2.
  inv_bind H. rename a0 into f. inversion H; subst y.
  destruct (LayerNorm_forward_ok_f32 _ B T _ x Hl1 Hx) as [E1 S1].
  specialize (Hfin _ E1).
  rewrite E1 in Ha. inversion Ha; subst n1.
  assert (Hhs : 0 < n_embd cfg / n_head).
  { pose proof (Nat.div_mod_eq (n_embd cfg) n_head). nia. }
  rewrite (LayerNorm_forward_prefix_f32 _ k _ _ E1). cbn [bind].
  rewrite (MultiHeadAttention_forward_prefix_f32 cfg n_head _ (sa b) B T k _ a
             Hsa Hhs S1 HT Hfin Ha0).
  cbn [bind]. rewrite tadd_prefix_f32.
  rewrite (LayerNorm_forward_prefix_f32 _ k _ _ Ha1). cbn [bind].
  rewrite (FeedForward_forward_prefix_f32 _ k _ _ Ha2). cbn [bind].
  rewrite tadd_prefix_f32. reflexivity.
Qed.

Lemma blocks_forward_prefix_f32 (cfg : Config) (bs : list Block) (B T k : nat)
      (x y : tensor3) :
  Forall (wf_Block cfg 4) bs -> 0 < n_embd cfg -> n_embd cfg mod 4 = 0 ->
  shape3 B T (n_embd cfg) x -> T <= block_size cfg ->
  blocks_values_finite k bs x ->
  blocks_forward bs x = Some y ->
  blocks_forward bs (time_prefix k x) = Some (time_prefix k y).
Proof.
  intros Hbs HD Hmod. revert x.
  induction Hbs as [|b bs Hb Hbs IH]; intros x Hx HT Hfin H; simpl in *.
  - inversion H; subst. reflexivity.
  - inv_bind H. rename a into x1. destruct Hfin as [Hfin1 Hfin2].
    rewrite (Block_forward_prefix_f32 cfg 4 b B T k x x1 Hb (Nat.lt_0_succ 3) HD Hmod Hx HT
               Hfin1 Ha).
    cbn [bind]. apply IH; [|exact HT | apply Hfin2; exact Ha | exact H].
    destruct (Block_forward_ok_f32 cfg 4 b B T x Hb (Nat.lt_0_succ 3) HD Hmod Hx HT)
      as [n1 [y1 [_ [_ [E S]]]]].
    rewrite E in Ha. inversion Ha; subst x1. exact S.
Qed.

Lemma dim1_prefix_f32 (k B T : nat) (idx : list (list Z)) :
  zshape2 B T idx -> arange (dim1 (time_prefix k idx)) = firstn k (arange (dim1 idx)).
Proof.
  intros [_ Hrows]. rewrite arange_firstn. destruct idx as [|r idx]; simpl.
  - rewrite Nat.min_0_r. reflexivity.
  - rewrite length_firstn. reflexivity.
Qed.

Lemma forward_prefix_f32 (cfg : Config) (m : BigramLanguageModel) (B T k : nat)
      (idx : list (list Z)) (lg : tensor3) :
  wf_BigramLanguageModel cfg m -> 0 < n_embd cfg -> n_embd cfg mod 4 = 0 ->
  zshape2 B T idx -> codes_in (vocab_size cfg) idx -> T <= block_size cfg ->
  values_finite_from k m idx ->
  forward m idx None = Some (Logits3 lg, None) ->
  forward m (time_prefix k idx) None = Some (Logits3 (time_prefix k lg), None).
Proof.
  intros Hwf HD Hmod Hidx Hcodes HT Hfin H.
  destruct (embed_ok_f32 cfg m B T idx Hwf Hidx Hcodes HT) as [tok [pos [Etok [Epos Sx]]]].
  specialize (Hfin tok pos Etok Epos).
  destruct Hwf as [_ [_ [Hblocks _]]].
  unfold forward in *. rewrite Etok, Epos in H. cbn [bind] in H.
  inv_bind H. rename a into x1. inv_bind H. rename a into x2. inv_bind H.
  inversion H; subst lg.
  rewrite (mapM2_prefix _ k _ _ Etok). cbn [bind].
  rewrite (dim1_prefix_f32 k B T idx Hidx), (mapM_firstn _ k _ _ Epos). cbn [bind].
  assert (Ex : map (fun te => madd te (firstn k pos)) (time_prefix k tok)
               = time_prefix k (map (fun te => madd te pos) tok)).
  { unfold time_prefix. rewrite !map_map. apply map_ext. intros te. unfold madd.
    symmetry. apply map2_firstn. }
  rewrite Ex.
  rewrite (blocks_forward_prefix_f32 cfg _ B T k _ x1 Hblocks HD Hmod Sx HT Hfin Ha).
  cbn [bind].
  rewrite (LayerNorm_forward_prefix_f32 _ k _ _ Ha0). cbn [bind].
  rewrite (Linear_forward_prefix_f32 _ k _ _ Ha1). reflexivity.
Qed.

(** X12.  The language model is causal and consistent on prefixes as long
    as no value projection of a later position overflows.  For an input of
    shape (B, T) with T <= block_size: when, in the pass on the whole
    input, the value projections of the positions from [k] on are finite in
    every head of every block, the logits of the first [k] time steps alone
    are the first [k] time steps of the logits of the whole input; hence
    two inputs that agree up to time step [t], both with finite value
    projections after [t], get the same logits at [t], whatever follows. *)
Theorem logits_depend_on_the_finite_past
        (cfg : Config) (m : BigramLanguageModel) (B T : nat) (idx : list (list Z)) :
  wf_BigramLanguageModel cfg m -> 0 < n_embd cfg -> n_embd cfg mod 4 = 0 ->
  zshape2 B T idx -> codes_in (vocab_size cfg) idx -> T <= block_size cfg ->
  exists lg,
    forward m idx None = Some (Logits3 lg, None) /\
    shape3 B T (vocab_size cfg) lg /\
    (forall k, values_finite_from k m idx ->
       forward m (time_prefix k idx) None = Some (Logits3 (time_prefix k lg), None)) /\
    (forall idx' t,
       zshape2 B T idx' -> codes_in (vocab_size cfg) idx' ->
       time_prefix (S t) idx' = time_prefix (S t) idx ->
       values_finite_from (S t) m idx -> values_finite_from (S t) m idx' ->
       exists lg', forward m idx' None = Some (Logits3 lg', None) /\
                   forall b, nth t (nth b lg []) [] = nth t (nth b lg' []) []).
Proof.
  intros Hwf HD Hmod Hidx Hcodes HT.
  destruct (forward_ok_f32 cfg m B T idx Hwf HD Hmod Hidx Hcodes HT) as [lg [Slg Hf]].
  exists lg. split; [exact Hf|]. split; [exact Slg|]. split.
  - intros k Hfin.
    apply (forward_prefix_f32 cfg m B T k idx lg Hwf HD Hmod Hidx Hcodes HT Hfin Hf).
  - intros idx' t Hidx' Hcodes' Hagree Hfin Hfin'.
    destruct (forward_ok_f32 cfg m B T idx' Hwf HD Hmod Hidx' Hcodes' HT) as [lg' [_ Hf']].
    exists lg'. split; [exact Hf'|]. intros b.
    pose proof (forward_prefix_f32 cfg m B T (S t) idx lg Hwf HD Hmod Hidx Hcodes HT Hfin Hf)
      as P.
    pose proof (forward_prefix_f32 cfg m B T (S t) idx' lg' Hwf HD Hmod Hidx' Hcodes' HT
                  Hfin' Hf') as P'.
    rewrite Hagree, P in P'. inversion P' as [Heq].
    rewrite <- (nth_time_prefix (S t) t b lg) by lia.
    rewrite <- (nth_time_prefix (S t) t b lg') by lia.
    rewrite Heq. reflexivity.
Qed.

(** ** The small model *)

Lemma Embedding_init_wf_f32 (n d : nat) (init : nat -> nat -> float32) :
  wf_Embedding n d (Embedding_init n d init).
Proof.
  unfold wf_Embedding, Embedding_init; simpl. repeat split.
  - apply tabulate_length.
  - apply Forall_forall. intros r Hr. unfold tabulate in Hr. apply in_map_iff in Hr.
    destruct Hr as [k [<- _]]. apply tabulate_length.
Qed.

Lemma MultiHeadAttention_init_wf_f32 (cfg : Config) (num_heads head_size : nat) (init : Init) :
  wf_MultiHeadAttention cfg num_heads head_size
                        (MultiHeadAttention_init cfg num_heads head_size init).
Proof.
  unfold wf_MultiHeadAttention, MultiHeadAttention_init; simpl. split; [|split].
  - rewrite length_map, length_seq. reflexivity.
  - apply Forall_forall. intros h Hh. apply in_map_iff in Hh. destruct Hh as [i [<- _]].
    apply Head_init_wf_f32.
  - apply Linear_init_wf_f32.
Qed.

Lemma LayerNorm_init_wf_f32 (n : nat) : wf_LayerNorm n (LayerNorm_init n).
Proof.
  unfold wf_LayerNorm, LayerNorm_init, shape1; simpl. rewrite !repeat_length. auto.
Qed.

Lemma FeedForward_init_wf_f32 (cfg : Config) (init : Init) :
  wf_FeedForward cfg (FeedForward_init (n_embd cfg) init).
Proof.
  unfold wf_FeedForward, FeedForward_init; simpl. split; apply Linear_init_wf_f32.
Qed.

Lemma tiny_model_wf_f32 : wf_BigramLanguageModel tiny_config tiny_model.
Proof.
  split; [apply Embedding_init_wf_f32|]. split; [apply Embedding_init_wf_f32|].
  split; [|split; [apply LayerNorm_init_wf_f32 | apply Linear_init_wf_f32]].
  constructor; [|constructor].
  split; [apply (MultiHeadAttention_init_wf_f32 tiny_config 4 1)|]. split; [|split].
  - apply (FeedForward_init_wf_f32 tiny_config).
  - apply LayerNorm_init_wf_f32.
  - apply LayerNorm_init_wf_f32.
Qed.

(** Layer normalisation maps a constant row to zero. *)
Lemma LayerNorm_const (c : R) :
  (0 <= c <= 1000)%R ->
  LayerNorm_apply (LayerNorm_init 4) [Finite c; Finite c; Finite c; Finite c] =
  [Finite 0; Finite 0; Finite 0; Finite 0].
Proof.
  intros Hc.
  assert (Hmax : (10000 <= float_max)%R) by (unfold float_max; lra).
  assert (Em : mean [Finite c; Finite c; Finite c; Finite c] = Finite c).
  { unfold mean, fsum. cbn [fold_left length].
    repeat (cbn [fadd]; rewrite to_range_in by lra).
    cbn [fdiv]. replace (INR 4) with 4%R by (simpl; lra).
    destruct (Req_dec_T 4 0); [lra|].
    rewrite to_range_in by lra. f_equal. lra. }
  assert (Ed : fsub (Finite c) (Finite c) = Finite 0).
  { unfold fsub. cbn [fneg fadd]. rewrite to_range_in by lra. f_equal. lra. }
  assert (Ev : variance [Finite c; Finite c; Finite c; Finite c] = Finite 0).
  { unfold variance. rewrite Em. cbn [map]. rewrite Ed. cbn [fmul].
    rewrite to_range_in by lra. replace (0 * 0)%R with 0%R by lra.
    unfold mean, fsum. cbn [fold_left length].
    repeat (cbn [fadd]; rewrite to_range_in by lra).
    cbn [fdiv]. replace (INR 4) with 4%R by (simpl; lra).
    destruct (Req_dec_T 4 0); [lra|].
    rewrite to_range_in by lra. f_equal. lra. }
  unfold LayerNorm_apply. rewrite Em, Ev. cbn [LayerNorm_init ln_eps ln_weight ln_bias map].
  rewrite Ed. cbn [fadd]. rewrite to_range_in by lra. cbn [fsqrt].
  destruct (Rlt_dec (0 + / 100000) 0); [lra|].
  assert (Hs : (0 < sqrt (0 + / 100000))%R) by (apply sqrt_lt_R0; lra).
  cbn [fdiv]. destruct (Req_dec_T (sqrt (0 + / 100000)) 0); [lra|].
  replace (0 / sqrt (0 + / 100000))%R with 0%R by (unfold Rdiv; rewrite Rmult_0_l; reflexivity).
  rewrite to_range_in by lra.
  cbn [repeat map2 vadd fmul fadd].
  repeat (rewrite (to_range_in (0 * 1)) by lra).
  cbn [fadd]. repeat (rewrite (to_range_in (0 * 1 + 0)) by lra).
  repeat f_equal; lra.
Qed.

Lemma tiny_embedded (i : Z) (tok : tensor3) (pos : mat) :
  (i = 0 \/ i = 1)%Z ->
  mapM (mapM (Embedding_lookup (token_embedding_table tiny_model))) [[0; i]]%Z = Some tok ->
  mapM (Embedding_lookup (position_embedding_table tiny_model)) (arange (dim1 [[0; i]]%Z))
    = Some pos ->
  exists c, (0 <= c <= 1000)%R /\
    map (fun te => madd te pos) tok =
    [[[Finite 1; Finite 1; Finite 1; Finite 1]; [Finite c; Finite c; Finite c; Finite c]]].
Proof.
  assert (Hmax : (10000 <= float_max)%R) by (unfold float_max; lra).
  intros Hi Etok Epos.
  cbn in Epos. inversion Epos; subst pos. clear Epos.
  destruct Hi as [-> | ->]; cbn in Etok; inversion Etok; subst tok; clear Etok.
  - exists 2%R. split; [lra|].
    cbn [map madd map2 vadd fadd].
    repeat (rewrite to_range_in by lra).
    repeat f_equal; lra.
  - exists 3%R. split; [lra|].
    cbn [map madd map2 vadd fadd].
    repeat (rewrite to_range_in by lra).
    repeat f_equal; lra.
Qed.

Lemma tiny_values_finite (i : Z) :
  (i = 0 \/ i = 1)%Z -> values_finite_from 1 tiny_model [[0; i]]%Z.
Proof.
  intros Hi tok pos Etok Epos.
  destruct (tiny_embedded i tok pos Hi Etok Epos) as [c [Hc Ex]]. rewrite Ex.
  cbn [tiny_model blocks blocks_values_finite]. split; [|intros y _; exact I].
  intros n1 En1. cbn [ln1] in En1.
  unfold LayerNorm_forward in En1. cbn [mapM LayerNorm_vec length normalized_shape
    LayerNorm_init Nat.eqb bind] in En1.
  rewrite (LayerNorm_const 1), (LayerNorm_const c) in En1 by lra.
  inversion En1; subst n1. clear En1.
  intros h Hh xb s Hxb Hks Hs.
  destruct Hxb as [<-|[]]. cbn [length] in Hs. assert (s = 1) by lia. subst s.
  cbn [nth].
  cbn [sa MultiHeadAttention_init heads seq map] in Hh.
  assert (Ev : Linear_apply (value tiny_head) [Finite 0; Finite 0; Finite 0; Finite 0] =
               [Finite (0 + 0 + 0 + 0)])
    by (apply tiny_value; unfold float_max; lra).
  destruct Hh as [<-|[<-|[<-|[<-|[]]]]];
    change (Forall is_finite
              (Linear_apply (value tiny_head) [Finite 0; Finite 0; Finite 0; Finite 0]));
    rewrite Ev; repeat constructor.
Qed.

Lemma logits_depend_on_the_finite_past_witness :
  exists lg lg',
    forward tiny_model [[0; 1]]%Z None = Some (Logits3 lg, None) /\
    forward tiny_model [[0; 0]]%Z None = Some (Logits3 lg', None) /\
    forward tiny_model (time_prefix 1 [[0; 1]]%Z) None
      = Some (Logits3 (time_prefix 1 lg), None) /\
    forall b, nth 0 (nth b lg []) [] = nth 0 (nth b lg' []) [].
Proof.
  destruct (logits_depend_on_the_finite_past tiny_config tiny_model 1 2 [[0; 1]]%Z
              tiny_model_wf_f32 (Nat.lt_0_succ 3) eq_refl) as [lg [E [_ [Hp H2]]]].
  - repeat (split || constructor).
  - repeat constructor; simpl; lia.
  - apply Nat.le_refl.
  - destruct (H2 [[0; 0]]%Z 0) as [lg' [E' Hagree]].
    + repeat (split || constructor).
    + repeat constructor; simpl; lia.
    + reflexivity.
    + apply tiny_values_finite. right. reflexivity.
    + apply tiny_values_finite. left. reflexivity.
    + exists lg, lg'. split; [exact E|]. split; [exact E'|]. split; [|exact Hagree].
      apply Hp. apply tiny_values_finite. right. reflexivity.
Defined.

End Float32Model.
